(** * shenfun.chebyshev.bases: Chebyshev bases and their fast transforms

    A shallow embedding of [shenfun/chebyshev/bases.py].

    - Arrays are the one-dimensional arrays along the transform axis, as
      lists; numpy's indexing, with negative indices, clamped slices and
      broadcasting, is written out.
    - Python exceptions are explicit results.
    - The arithmetic is a class of operations without laws, instantiated by
      IEEE 754 binary64 (what numpy computes with) and by the real numbers
      (what the formulas mean).  What is proved for every instance holds for
      both.
    - [plan] is about the identity of buffers and callables: objects carry
      the number of the allocation that made them, and allocation threads a
      counter.  The transforms act on the content of the one pair of
      buffers that [plan] binds them to.
    - numpy.polynomial.chebyshev and the transform provider (pyfftw) are
      libraries; the functions of theirs that the module calls are written
      out from their documentation. *)

From Stdlib Require Import Bool String ZArith List Lia Floats Reals Lra.
Import ListNotations.

Set Implicit Arguments.

Local Open Scope Z_scope.

(** ** Python exceptions *)

Inductive exn : Set :=
| AssertionError
| IndexError
| ValueError
| ZeroDivisionError
| AttributeError
| TypeError.

Inductive result (A : Type) : Type :=
| Ok (a : A)
| Raise (e : exn).

Arguments Ok {A} a.
Arguments Raise {A} e.

Definition bind {A B : Type} (r : result A) (k : A -> result B) : result B :=
  match r with
  | Ok a => k a
  | Raise e => Raise e
  end.

Notation "x <- r ;; k" := (bind r (fun x => k))
  (at level 61, r at next level, right associativity).
Notation "' pat <- r ;; k" := (bind r (fun x => match x with pat => k end))
  (at level 61, pat pattern, r at next level, right associativity).

Definition assert (b : bool) : result unit :=
  if b then Ok tt else Raise AssertionError.

Fixpoint mapM {A B : Type} (f : A -> result B) (l : list A) : result (list B) :=
  match l with
  | [] => Ok []
  | x :: l' => y <- f x ;; ys <- mapM f l' ;; Ok (y :: ys)
  end.

(** ** numpy indexing of one-dimensional arrays *)

(** [slice(start, stop)]; [None] is an absent bound.  A step occurs only in
    the Gauss-Lobatto correction of [Basis.evaluate_expansion_all]. *)
Record slice : Set := Slice { start : option Z; stop : option Z }.

Module np.
Section Arrays.
Context {A : Type}.

(** [a[i]] for an integer [i]: negative indices count from the end. *)
Definition index (n : nat) (i : Z) : result nat :=
  if (0 <=? i) && (i <? Z.of_nat n) then Ok (Z.to_nat i)
  else if (- Z.of_nat n <=? i) && (i <? 0) then Ok (Z.to_nat (Z.of_nat n + i))
  else Raise IndexError.

(** A slice bound is clamped to the array, never an error. *)
Definition bound (n : nat) (dflt : nat) (b : option Z) : nat :=
  match b with
  | None => dflt
  | Some i =>
      if i <? 0 then Z.to_nat (Z.max 0 (Z.of_nat n + i))
      else Nat.min (Z.to_nat i) n
  end.

(** First index and length of [a[s]] in an array of length [n]. *)
Definition indices (n : nat) (s : slice) : nat * nat :=
  let lo := bound n 0%nat (start s) in
  let hi := bound n n (stop s) in
  (lo, (hi - lo)%nat).

Definition getitem (a : list A) (i : Z) : result A :=
  k <- index (length a) i ;;
  match nth_error a k with
  | Some v => Ok v
  | None => Raise IndexError
  end.

Definition update (a : list A) (k : nat) (v : A) : list A :=
  firstn k a ++ v :: skipn (S k) a.

Definition setitem (a : list A) (i : Z) (v : A) : result (list A) :=
  k <- index (length a) i ;; Ok (update a k v).

(** [a[i] op= ...] *)
Definition moditem (f : A -> A) (a : list A) (i : Z) : result (list A) :=
  v <- getitem a i ;; setitem a i (f v).

Definition getslice (a : list A) (s : slice) : list A :=
  let '(lo, len) := indices (length a) s in
  firstn len (skipn lo a).

(** Broadcasting of a one-dimensional array to length [n]. *)
Definition broadcast (n : nat) (v : list A) : result (list A) :=
  if (length v =? n)%nat then Ok v
  else match v with
       | [x] => Ok (repeat x n)
       | _ => Raise ValueError
       end.

(** [a[s] = v] *)
Definition setslice (a : list A) (s : slice) (v : list A) : result (list A) :=
  let '(lo, len) := indices (length a) s in
  w <- broadcast len v ;;
  Ok (firstn lo a ++ w ++ skipn (lo + len) a).

(** [a[s] = x] for a scalar [x] *)
Definition fill (a : list A) (s : slice) (x : A) : list A :=
  let '(lo, len) := indices (length a) s in
  firstn lo a ++ repeat x len ++ skipn (lo + len) a.

(** [a[...] = v] *)
Definition assign (a : list A) (v : list A) : result (list A) :=
  broadcast (length a) v.

Fixpoint zip (f : A -> A -> A) (a b : list A) : list A :=
  match a, b with
  | x :: a', y :: b' => f x y :: zip f a' b'
  | _, _ => []
  end.

(** Elementwise binary operation of two one-dimensional arrays. *)
Definition binop (f : A -> A -> A) (a b : list A) : result (list A) :=
  if (length a =? length b)%nat then Ok (zip f a b)
  else match a, b with
       | [x], _ => Ok (map (f x) b)
       | _, [y] => Ok (map (fun x => f x y) a)
       | _, _ => Raise ValueError
       end.

(** [a[s] op= v] *)
Definition modslice (f : A -> A -> A) (a : list A) (s : slice) (v : list A)
  : result (list A) :=
  w <- binop f (getslice a s) v ;;
  if (length w =? snd (indices (length a) s))%nat then setslice a s w
  else Raise ValueError.

(** [a[start::step] op= v], for [start >= 0] and [step > 0]: the entries
    at [start], [start + step], ... take [v], broadcast, in turn. *)
Definition modstep (f : A -> A -> A) (a : list A) (start step : nat) (v : list A)
  : result (list A) :=
  let count := ((length a - start + (step - 1)) / step)%nat in
  w <- broadcast count v ;;
  Ok (map (fun '(i, x) =>
             if ((start <=? i) && ((i - start) mod step =? 0))%nat then
               match nth_error w ((i - start) / step) with
               | Some y => f x y
               | None => x
               end
             else x)
        (combine (seq 0 (length a)) a)).

End Arrays.
End np.

(** A two-dimensional array as [V.shape[1]] and the list of its rows. *)
Record matrix (T : Type) : Type := Matrix {
  ncols : nat;
  rows : list (list T);
}.

Definition wf_matrix {T : Type} (V : matrix T) : Prop :=
  Forall (fun r => length r = ncols V) (rows V).

Module np2.
Section Columns.
Context {T : Type}.

(** [V[:, i]] *)
Definition getcol (V : matrix T) (i : Z) : result (list T) :=
  _ <- np.index (ncols V) i ;;
  mapM (fun r => np.getitem r i) (rows V).

(** [V[:, s]] *)
Definition getcols (V : matrix T) (s : slice) : matrix T :=
  Matrix (snd (np.indices (ncols V) s)) (map (fun r => np.getslice r s) (rows V)).

Fixpoint zipM {A B C : Type} (f : A -> B -> result C) (a : list A) (b : list B)
  : result (list C) :=
  match a, b with
  | [], [] => Ok []
  | x :: a', y :: b' => z <- f x y ;; zs <- zipM f a' b' ;; Ok (z :: zs)
  | _, _ => Raise ValueError
  end.

(** Elementwise operation of two matrices with as many rows. *)
Definition binop (f : T -> T -> T) (A B : matrix T) : result (matrix T) :=
  r <- zipM (np.binop f) (rows A) (rows B) ;;
  if ((ncols A =? ncols B) || (ncols A =? 1) || (ncols B =? 1))%nat
  then Ok (Matrix (if (ncols A =? 1)%nat then ncols B else ncols A) r)
  else Raise ValueError.

(** [P[:, s] = M] *)
Definition setcols (P : matrix T) (s : slice) (M : matrix T) : result (matrix T) :=
  if ((ncols M =? snd (np.indices (ncols P) s)) || (ncols M =? 1))%nat then
    r <- zipM (fun p m => np.setslice p s m) (rows P) (rows M) ;;
    Ok (Matrix (ncols P) r)
  else Raise ValueError.

(** [P[:, i] = c] *)
Definition setcol (P : matrix T) (i : Z) (c : list T) : result (matrix T) :=
  _ <- np.index (ncols P) i ;;
  r <- zipM (fun p v => np.setitem p i v) (rows P) c ;;
  Ok (Matrix (ncols P) r).

(** A one-dimensional array against the rows of a matrix: what
    broadcasting makes of [v] in [v * M]. *)
Definition tile (v : list T) (M : matrix T) : matrix T :=
  Matrix (length v) (map (fun _ => v) (rows M)).

End Columns.
End np2.

(** ** Arithmetic *)

(** The operations the module applies to array elements.  No law is assumed
    of them: binary64 has few. *)
Class Num (T : Type) : Type := {
  num_add : T -> T -> T;
  num_sub : T -> T -> T;
  num_mul : T -> T -> T;
  num_div : T -> T -> T;
  num_opp : T -> T;
  num_of_Z : Z -> T;       (* a Python int where a float is expected *)
  num_half : T;            (* the literal 0.5 *)
}.

(** [np.pi] *)
Class Pi (T : Type) : Type := num_pi : T.

(** [np.cos] *)
Class Cos (T : Type) : Type := num_cos : T -> T.

Declare Scope num_scope.
Delimit Scope num_scope with num.
Infix "+" := num_add : num_scope.
Infix "-" := num_sub : num_scope.
Infix "*" := num_mul : num_scope.
Infix "/" := num_div : num_scope.
Notation "- x" := (num_opp x) : num_scope.
Notation "# z" := (num_of_Z z) (at level 1, format "# z") : num_scope.

(** IEEE 754 binary64, the dtype of every array of the module.  The
    conversion of a Python int rounds to nearest; it is written for ints
    below [2^63] in magnitude, which those of the module are. *)
Definition float_of_Z (z : Z) : float :=
  if z <? 0 then PrimFloat.opp (PrimFloat.of_uint63 (Uint63.of_Z (- z)))
  else PrimFloat.of_uint63 (Uint63.of_Z z).

#[export] Instance Num_float : Num float := {
  num_add := PrimFloat.add;
  num_sub := PrimFloat.sub;
  num_mul := PrimFloat.mul;
  num_div := PrimFloat.div;
  num_opp := PrimFloat.opp;
  num_of_Z := float_of_Z;
  num_half := 0.5%float;
}.

#[export] Instance Pi_float : Pi float := 0x1.921fb54442d18p+1%float.

(** Exact arithmetic. *)
#[export] Instance Num_R : Num R := {
  num_add := Rplus;
  num_sub := Rminus;
  num_mul := Rmult;
  num_div := Rdiv;
  num_opp := Ropp;
  num_of_Z := IZR;
  num_half := (/ 2)%R;
}.

#[export] Instance Pi_R : Pi R := PI.
#[export] Instance Cos_R : Cos R := cos.

(** [float / int] of Python, with a Python float on the left. *)
Definition pydiv {T : Type} `{Num T} (x : T) (z : Z) : result T :=
  if z =? 0 then Raise ZeroDivisionError else Ok (x / #z)%num.

(** [sum_{j < n} f j] *)
Fixpoint sigma {T : Type} `{Num T} (f : nat -> T) (n : nat) : T :=
  match n with
  | O => (#0)%num
  | S m => (sigma f m + f m)%num
  end.

(** ** numpy.polynomial.chebyshev *)

Module n_cheb.
Section Cheb.
Context {T : Type} `{Num T}.
Local Open Scope num_scope.

(** [chebval(x, c)] at one point [x]: Clenshaw's recursion, from the last
    coefficient down. *)
Definition chebval (x : T) (c : list T) : result T :=
  match rev c with
  | [] => Raise IndexError
  | [a] => Ok (a + #0 * x)
  | [b; a] => Ok (a + b * x)
  | c1 :: c0 :: rest =>
      let x2 := #2 * x in
      let '(c0, c1) :=
        fold_left (fun '(c0, c1) ci => (ci - c1, c0 + c1 * x2)) rest (c0, c1) in
      Ok (c0 + c1 * x)
  end.

(** [chebval(x, c)] for an array [x] of points. *)
Definition chebval_all (x : list T) (c : list T) : result (list T) :=
  match c with
  | [] => Raise IndexError
  | _ => mapM (fun xi => chebval xi c) x
  end.

(** The loop of [chebvander]: [v[i] = v[i-1]*x2 - v[i-2]]. *)
Fixpoint chebvander_loop (x2 vm2 vm1 : T) (n : nat) : list T :=
  match n with
  | O => []
  | S n' => let v := vm1 * x2 - vm2 in v :: chebvander_loop x2 vm1 v n'
  end.

(** [chebvander(x, deg)]: one row for each point of [x], [deg + 1]
    columns. *)
Definition chebvander (x : list T) (deg : Z) : result (matrix T) :=
  if deg <? 0 then Raise ValueError
  else
    let row xi :=
      let xi := xi + #0 in
      let v0 := xi * #0 + #1 in
      match Z.to_nat deg with
      | O => [v0]
      | S d => v0 :: xi :: chebvander_loop (#2 * xi) v0 xi d
      end in
    Ok (Matrix (Z.to_nat deg + 1) (map row x)).

Context `{Pi T} `{Cos T}.

(** [chebgauss(deg)]: the Gauss-Chebyshev points and weights. *)
Definition chebgauss (deg : Z) : result (list T * list T) :=
  if deg <=? 0 then Raise ValueError
  else
    let n := Z.to_nat deg in
    Ok (map (fun j => num_cos (num_pi * #(2 * Z.of_nat j + 1) / (#2 * #deg)))
          (seq 0 n),
        repeat (#1 * (num_pi / #deg)) n).

(** [chebpts2(npts)]: the Chebyshev points of the second kind, ascending. *)
Definition chebpts2 (npts : Z) : result (list T) :=
  if npts <? 2 then Raise ValueError
  else
    let n := Z.to_nat npts in
    let step := (#0 - (- num_pi)) / #(npts - 1) in
    Ok (map (fun j => num_cos (if (S j =? n)%nat then #0
                               else #(Z.of_nat j) * step + (- num_pi)))
          (seq 0 n)).

End Cheb.
End n_cheb.

(** The Chebyshev polynomials of the first kind, [T_0 = 1], [T_1 = x],
    [T_{k+2} = 2 x T_{k+1} - T_k], and the series [sum_k c_k T_k(x)]: what
    the evaluations are compared with. *)
Fixpoint cheb_T (x : R) (k : nat) : R :=
  match k with
  | O => 1%R
  | S k' =>
      match k' with
      | O => x
      | S k'' => (2 * x * cheb_T x k' - cheb_T x k'')%R
      end
  end.

Definition cheb_series (c : list R) (x : R) : R :=
  sigma (fun k => nth k c 0 * cheb_T x k)%R (length c).

(** ** The transform provider *)

(** [pyfftw.builders.dct(..., type=t)]: the real even transforms of FFTW,
    unnormalised (REDFT00, REDFT10 and REDFT01 of its manual). *)
Inductive dct_type : Set := DCT1 | DCT2 | DCT3.

Module fftw.
Section Transforms.
Context {T : Type} `{Num T} `{Pi T} `{Cos T}.
Local Open Scope num_scope.

Definition alt (k : nat) (x : T) : T := if Nat.even k then x else - x.

Definition dct (t : dct_type) (X : list T) : list T :=
  let n := length X in
  let x j := nth j X (#0) in
  let r i := #(Z.of_nat i) in
  map (fun k =>
         match t with
         | DCT1 =>
             x 0%nat + alt k (x (n - 1)%nat)
             + #2 * sigma (fun j => x (S j)
                                    * num_cos (num_pi * r (S j) * r k / r (n - 1)%nat))
                     (n - 2)
         | DCT2 =>
             #2 * sigma (fun j => x j * num_cos (num_pi * (r j + num_half) * r k / r n)) n
         | DCT3 =>
             x 0%nat
             + #2 * sigma (fun j => x (S j)
                                    * num_cos (num_pi * r (S j) * (r k + num_half) / r n))
                     (n - 1)
         end)
    (seq 0 n).

End Transforms.
End fftw.

(** ** Objects

    [plan] is about which array and which callable an attribute refers to,
    so arrays and callables carry the identity Python gives them: the number
    of the allocation that made them. *)

Definition oid : Set := nat.

(** Allocation: a computation that may raise and that draws identities from
    a counter. *)
Definition alloc (A : Type) : Type := oid -> result (A * oid).

Definition ret {A : Type} (a : A) : alloc A := fun h => Ok (a, h).

Definition raise {A : Type} (e : exn) : alloc A := fun _ => Raise e.

Definition abind {A B : Type} (m : alloc A) (k : A -> alloc B) : alloc B :=
  fun h => match m h with
           | Ok (a, h') => k a h'
           | Raise e => Raise e
           end.

Notation "x <~ m ;; k" := (abind m (fun x => k))
  (at level 61, m at next level, right associativity).
Notation "' pat <~ m ;; k" := (abind m (fun x => match x with pat => k end))
  (at level 61, pat pattern, m at next level, right associativity).

Definition fresh : alloc oid := fun h => Ok (h, S h).

Definition lift {A : Type} (r : result A) : alloc A :=
  fun h => match r with Ok a => Ok (a, h) | Raise e => Raise e end.

(** The [shape] argument of [plan]: an int, as the constructors pass it, or
    a tuple of ints. *)
Inductive pyshape : Set :=
| ShapeInt (n : Z)
| ShapeTuple (dims : list Z).

(** The [axis] argument of [plan]: an int or a tuple of ints. *)
Inductive pyaxis : Set :=
| AxisInt (a : Z)
| AxisTuple (l : list Z).

Inductive dtype : Set := float64 | complex128.

Definition dtype_eqb (a b : dtype) : bool :=
  match a, b with
  | float64, float64 | complex128, complex128 => true
  | _, _ => false
  end.

Record ndarray : Set := Ndarray {
  arr_id : oid;
  arr_shape : list Z;       (* [.shape], always a tuple *)
  arr_dtype : dtype;
}.

Fixpoint tuple_eqb (a b : list Z) : bool :=
  match a, b with
  | [], [] => true
  | x :: a', y :: b' => (x =? y) && tuple_eqb a' b'
  | _, _ => false
  end.

(** [t == shape] for a tuple [t]: a tuple never equals an int. *)
Definition shape_eq (t : list Z) (shape : pyshape) : bool :=
  match shape with
  | ShapeInt _ => false
  | ShapeTuple dims => tuple_eqb t dims
  end.

(** [pyfftw.empty_aligned(shape, dtype)] *)
Definition empty_aligned (shape : pyshape) (dt : dtype) : alloc ndarray :=
  let dims := match shape with ShapeInt n => [n] | ShapeTuple l => l end in
  if forallb (fun d => 0 <=? d) dims then
    i <~ fresh ;; ret (Ndarray i dims dt)
  else raise ValueError.

(** A planned transform: a [pyfftw.FFTW] object, or the [_dct_wrap] that
    runs one on the real and on the imaginary part of complex arrays. *)
Inductive transform : Set :=
| FFTW (i : oid) (t : dct_type) (axis : Z) (inp out : ndarray)
| dct_wrap (i : oid) (dct : transform) (inp out : ndarray).

Definition transform_input (x : transform) : ndarray :=
  match x with FFTW _ _ _ inp _ | dct_wrap _ _ inp _ => inp end.

Definition transform_output (x : transform) : ndarray :=
  match x with FFTW _ _ _ _ out | dct_wrap _ _ _ out => out end.

(** [FFTW.update_arrays(inp, out)] *)
Definition update_arrays (x : transform) (inp out : ndarray) : transform :=
  match x with
  | FFTW i t axis _ _ => FFTW i t axis inp out
  | dct_wrap i d _ _ => dct_wrap i d inp out
  end.

(** A transform of FFTW has at least one point, and at least two for
    REDFT00. *)
Definition min_length (t : dct_type) : Z :=
  match t with DCT1 => 2 | DCT2 | DCT3 => 1 end.

Definition options : Set := list (string * string).

(** The keywords that the builders of the provider take from [plan]
    (6: "options recognized"). *)
Definition provider_options : list string :=
  ["avoid_copy"; "overwrite_input"; "auto_align_input"; "auto_contiguous";
   "planner_effort"; "threads"]%string.

(** [functools.partial(pyfftw.builders.dct, type=t)(a, axis=axis, **opts)]:
    a keyword that the builder does not have is a [TypeError] of the call;
    the plan takes [a] as its input array (it is aligned, and [avoid_copy]
    is set) and allocates the output array. *)
Definition builders_dct (t : dct_type) (a : ndarray) (axis : Z) (opts : options)
  : alloc transform :=
  if negb (forallb (fun o => existsb (String.eqb (fst o)) provider_options) opts)
  then raise TypeError
  else
    k <~ lift (np.index (length (arr_shape a)) axis) ;;
    if existsb (fun d => d =? 0) (arr_shape a) then raise ValueError
    else if nth k (arr_shape a) 0 <? min_length t then raise ValueError
    else
      o <~ fresh ;;
      i <~ fresh ;;
      ret (FFTW i t axis a (Ndarray o (arr_shape a) float64)).

Inductive method : Set := m_forward | m_backward | m_scalar_product.

(** What a transform attribute of a basis refers to: the method of its
    class, or the [_func_wrap] that [plan] put in its place. *)
Inductive callable : Set :=
| Method (m : method)
| func_wrap (i : oid) (func : callable) (xfftn : option transform) (inp out : ndarray).

(** [_func_wrap(func, xfftn, input_array, output_array)] *)
Definition new_func_wrap (func : callable) (xfftn : option transform) (inp out : ndarray)
  : alloc callable :=
  i <~ fresh ;; ret (func_wrap i func xfftn inp out).

(** ** Bases *)

Inductive quadrature : Set := GC | GL.

(** The arrays [U] and [V] that [plan] binds to the three transforms of a
    basis, by their content; a Shen basis and its [CT] are bound to one
    pair. *)
Record buffers (T : Type) : Type := Buffers {
  input_array : list T;
  output_array : list T;
}.

Module SpectralBase.

(** The attributes that every basis has. *)
Record t (T : Type) : Type := Make {
  N : Z;
  quad : quadrature;
  domain : T * T;
  axis : Z;
  xfftn_fwd : option transform;
  xfftn_bck : option transform;
  forward : callable;
  backward : callable;
  scalar_product : callable;
}.

(** Modelled from the spec: [SpectralBase.__init__] is not among the
    sources.  By 3, "a Basis is constructed with configuration only": the
    arguments are stored as they come, the transform axis is the first one,
    and the three transforms are the methods of the class until [plan]
    wraps them.  This is the storing only.  The checks of 6 and 7, of [N]
    against the minimum of the variant and of the domain, are not in
    bases.py and are not modelled here, and no statement below rests on
    their absence: a constructor of bases.py is assumed to have returned,
    or is run at an [N] and a domain that 6 allows; elsewhere [__init__]
    only writes down the attributes of a basis that is given. *)
Definition __init__ {T : Type} (N : Z) (quad : quadrature) (domain : T * T) : t T :=
  Make N quad domain 0 None None
    (Method m_forward) (Method m_backward) (Method m_scalar_product).

End SpectralBase.

(** Modelled from the spec: [work], the pool of scratch arrays of
    shenfun.spectralbase, is not among the sources.  [work[(a, 0)]] stands
    for the array that 4.5 has the recombinations scatter into: zeros, of
    the shape of [a]. *)
Definition work {T : Type} `{Num T} (a : list T) : list T :=
  repeat (#0)%num (length a).

(** Modelled from the spec: [SpectralBase.sl] is not among the sources.
    [self.sl(a)] is the index that selects [a] along the transform axis and
    everything along the others (4.4: "halves the k=0 coefficient" for
    [sl(0)]); on the one-dimensional arrays of this development it is [a]
    itself, so the indexing functions of [np] take [a] directly. *)
Definition sl {A : Type} (a : A) : A := a.

(** [self.forward] is a [_func_wrap] whose input array has the shape asked
    for, and [self.axis] is the axis asked for: the guard of every [plan]. *)
Definition already_planned {T : Type} (self : SpectralBase.t T)
  (shape : pyshape) (axis : Z) : bool :=
  match SpectralBase.forward self with
  | func_wrap _ _ _ inp _ => shape_eq (arr_shape inp) shape && (SpectralBase.axis self =? axis)
  | Method _ => false
  end.

(** [if isinstance(axis, tuple): axis = axis[0]] *)
Definition first_axis (axis : pyaxis) : result Z :=
  match axis with
  | AxisInt a => Ok a
  | AxisTuple (a :: _) => Ok a
  | AxisTuple [] => Raise IndexError
  end.

Module ChebyshevBase.
Section Methods.
Context {T : Type} `{Num T}.
Local Open Scope num_scope.

Definition __init__ (N : Z) (quad : string) (domain : T * T)
  : result (SpectralBase.t T) :=
  _ <- assert (String.eqb quad "GC" || String.eqb quad "GL") ;;
  Ok (SpectralBase.__init__ N (if String.eqb quad "GC" then GC else GL) domain).

Definition points_and_weights `{Pi T} `{Cos T}
  (self : SpectralBase.t T) (N : Z) (scaled : bool)
  : result (list T * list T) :=
  '(points, weights) <-
    match SpectralBase.quad self with
    | GL =>
        pts <- n_cheb.chebpts2 N ;;
        let points := map num_opp pts in
        let weights := repeat (num_pi / #(N - 1)) (Z.to_nat N) in
        weights <- np.moditem (fun w => w / #2) weights 0 ;;
        weights <- np.moditem (fun w => w / #2) weights (-1) ;;
        Ok (points, weights)
    | GC => n_cheb.chebgauss N
    end ;;
  if scaled then
    let '(a, b) := SpectralBase.domain self in
    Ok (map (fun p => a + (b - a) / #2 + p * (b - a) / #2) points, weights)
  else Ok (points, weights).

(** "Return Chebyshev Vandermonde matrix" *)
Definition vandermonde (self : SpectralBase.t T) (x : list T) : result (matrix T) :=
  n_cheb.chebvander x (SpectralBase.N self - 1).

(** [plan], with the builders [self._xfftn_fwd] and [self._xfftn_bck] that
    the subclass set.  [options] only reaches the provider. *)
Definition plan (_xfftn_fwd _xfftn_bck : dct_type) (self : SpectralBase.t T)
  (shape : pyshape) (axis : pyaxis) (dt : dtype) (opts : options)
  : alloc (SpectralBase.t T) :=
  axis <~ lift (first_axis axis) ;;
  if already_planned self shape axis then ret self
  else
    U <~ empty_aligned shape float64 ;;
    xfftn_fwd <~ builders_dct _xfftn_fwd U axis opts ;;
    let V := transform_output xfftn_fwd in
    xfftn_bck <~ builders_dct _xfftn_bck V axis opts ;;
    let xfftn_fwd := update_arrays xfftn_fwd U V in
    let xfftn_bck := update_arrays xfftn_bck V U in
    '(xfftn_fwd, xfftn_bck, U, V) <~
      (if dtype_eqb dt float64 then ret (xfftn_fwd, xfftn_bck, U, V)
       else
         U <~ empty_aligned shape complex128 ;;
         V <~ empty_aligned shape complex128 ;;
         f <~ fresh ;;
         b <~ fresh ;;
         ret (dct_wrap f xfftn_fwd U V, dct_wrap b xfftn_bck V U, U, V)) ;;
    forward <~ new_func_wrap (SpectralBase.forward self) (Some xfftn_fwd) U V ;;
    backward <~ new_func_wrap (SpectralBase.backward self) (Some xfftn_bck) V U ;;
    scalar_product <~
      new_func_wrap (SpectralBase.scalar_product self) (Some xfftn_fwd) U V ;;
    ret (SpectralBase.Make (SpectralBase.N self) (SpectralBase.quad self)
           (SpectralBase.domain self) axis (Some xfftn_fwd) (Some xfftn_bck)
           forward backward scalar_product).

End Methods.
End ChebyshevBase.

Module Basis.
Section Methods.
Context {T : Type} `{Num T}.
Local Open Scope num_scope.

Record t : Type := Make {
  super : SpectralBase.t T;
  _xfftn_fwd : dct_type;
  _xfftn_bck : dct_type;
}.

Definition plan (self : t) (shape : pyshape) (axis : pyaxis) (dt : dtype)
  (opts : options) : alloc t :=
  s <~ ChebyshevBase.plan (_xfftn_fwd self) (_xfftn_bck self) (super self)
         shape axis dt opts ;;
  ret (Make s (_xfftn_fwd self) (_xfftn_bck self)).

Definition __init__ (N : Z) (quad : string) (plan_ : bool) (domain : T * T)
  : alloc t :=
  s <~ lift (ChebyshevBase.__init__ N quad domain) ;;
  let self :=
    if String.eqb quad "GC" then Make s DCT2 DCT3 else Make s DCT1 DCT1 in
  if plan_ then plan self (ShapeInt N) (AxisInt 0) float64 [] else ret self.

(** The transform that [plan] bound to the buffers: [xfftn_fwd()] reads the
    input buffer and leaves its result in the output buffer. *)
Variable xfftn_fwd : list T -> list T.

(** [SpectralBase.vandermonde_scalar_product(input, output)], the slow path;
    not among the sources.  It yields the new content of [output]. *)
Variable vandermonde_scalar_product : list T -> list T -> list T.

Context `{Pi T}.

Definition apply_inverse_mass (self : t) (array : list T) : result (list T) :=
  let s := sl 0%Z in
  let array := map (fun a => a * (#2 / num_pi)) array in
  array <- np.moditem (fun a => a / #2) array s ;;
  match SpectralBase.quad (super self) with
  | GL =>
      let s := (-1)%Z in
      np.moditem (fun a => a / #2) array s
  | GC => Ok array
  end.

Definition scalar_product (self : t)
  (input output : option (list T)) (fast_transform : bool)
  (b : buffers T) : result (list T * buffers T) :=
  U <- match input with
       | Some f => np.assign (input_array b) f
       | None => Ok (input_array b)
       end ;;
  V <- (if fast_transform then
          _ <- assert (SpectralBase.N (super self) =? Z.of_nat (length U))%Z ;;
          let out := xfftn_fwd U in
          match SpectralBase.quad (super self) with
          | GC =>
              c <- pydiv num_pi (2 * SpectralBase.N (super self)) ;;
              Ok (map (fun y => y * c) out)
          | GL =>
              c <- pydiv num_pi (2 * (SpectralBase.N (super self) - 1)) ;;
              Ok (map (fun y => y * c) out)
          end
        else Ok (vandermonde_scalar_product U (output_array b))) ;;
  match output with
  | Some o => r <- np.assign o V ;; Ok (r, Buffers U V)
  | None => Ok (V, Buffers U V)
  end.

(** The inverse transform that [plan] bound to the buffers, as
    [xfftn_fwd] above: [xfftn_bck()] reads its input array, which it leaves
    as it was, and puts its result in its output array. *)
Variable xfftn_bck : list T -> list T.

(** [evaluate_expansion_all(input_array, output_array)].  Its arrays are
    those of [xfftn_bck], which its two assertions check; the result is the
    new content of the output array. *)
Definition evaluate_expansion_all (self : t) (input_array : list T)
  : result (list T) :=
  let output_array := xfftn_bck input_array in
  let s0 := sl (Slice (Some 0%Z) (Some 1%Z)) in
  match SpectralBase.quad (super self) with
  | GC =>
      let output_array := map (fun y => y * num_half) output_array in
      np.modslice num_add output_array (Slice None None)
        (map (fun v => v / #2) (np.getslice input_array s0))
  | GL =>
      let output_array := map (fun y => y * num_half) output_array in
      output_array <- np.modslice num_add output_array (Slice None None)
                        (map (fun v => v / #2) (np.getslice input_array s0)) ;;
      let s0 := Slice (Some (-1)%Z) None in
      output_array <- np.modstep num_add output_array 0 2
                        (map (fun v => v / #2) (np.getslice input_array s0)) ;;
      np.modstep num_sub output_array 1 2
        (map (fun v => v / #2) (np.getslice input_array s0))
  end.

(** [eval(x, fk)], with [output_array=None]. *)
Definition eval (self : t) (x : list T) (fk : list T) : result (list T) :=
  let output_array := repeat (#0) (length x) in
  v <- n_cheb.chebval_all x fk ;;
  np.setslice output_array (Slice None None) v.

End Methods.
Arguments t : clear implicits.
End Basis.

(** The [plan] of the three Shen bases, which they spell out alike: the
    wrapped plain basis [CT] plans, and the basis binds its own transforms
    to the buffers of [CT]. *)
Definition shen_plan {T : Type} `{Num T} (self : SpectralBase.t T) (CT : Basis.t T)
  (shape : pyshape) (axis : pyaxis) (dt : dtype) (opts : options)
  : alloc (SpectralBase.t T * Basis.t T) :=
  axis <~ lift (first_axis axis) ;;
  if already_planned self shape axis then ret (self, CT)
  else
    CT <~ Basis.plan CT shape (AxisInt axis) dt opts ;;
    let c := Basis.super CT in
    let xfftn_fwd := SpectralBase.xfftn_fwd c in
    let xfftn_bck := SpectralBase.xfftn_bck c in
    f <~ lift (match xfftn_fwd with Some f => Ok f | None => Raise AttributeError end) ;;
    let U := transform_input f in
    let V := transform_output f in
    forward <~ new_func_wrap (SpectralBase.forward self) xfftn_fwd U V ;;
    backward <~ new_func_wrap (SpectralBase.backward self) xfftn_bck V U ;;
    scalar_product <~ new_func_wrap (SpectralBase.scalar_product self) xfftn_fwd U V ;;
    ret (SpectralBase.Make (SpectralBase.N self) (SpectralBase.quad self)
           (SpectralBase.domain self) (SpectralBase.axis c) xfftn_fwd xfftn_bck
           forward backward scalar_product, CT).

(** Modelled from the spec: [SpectralBase.wavenumbers] is not among the
    sources.  By 3 the factor arrays are "indexed by wavenumber k" and as
    long as "N - boundary_rows": the wavenumbers are 0, 1, ... below that
    length, as floats. *)
Definition wavenumbers {T : Type} `{Num T} (N boundary_rows : Z) : list T :=
  map (fun k => (#(Z.of_nat k))%num) (seq 0 (Z.to_nat (N - boundary_rows))).

Module ShenDirichletBasis.
Section Methods.
Context {T : Type} `{Num T}.
Local Open Scope num_scope.

Record t : Type := Make {
  super : SpectralBase.t T;
  CT : Basis.t T;
  _scaled : bool;
  _factor : list T;
  bc : T * T;               (* what [BoundaryValues(self, bc=bc)] keeps *)
}.

Definition plan (self : t) (shape : pyshape) (axis : pyaxis) (dt : dtype)
  (opts : options) : alloc t :=
  '(s, c) <~ shen_plan (super self) (CT self) shape axis dt opts ;;
  ret (Make s c (_scaled self) (_factor self) (bc self)).

Definition __init__ (N : Z) (quad : string) (bc : T * T) (plan_ : bool)
  (domain : T * T) (scaled : bool) : alloc t :=
  s <~ lift (ChebyshevBase.__init__ N quad domain) ;;
  CT <~ Basis.__init__ N quad plan_ (- #1, #1) ;;
  let self := Make s CT scaled [#1] bc in
  if plan_ then plan self (ShapeInt N) (AxisInt 0) float64 [] else ret self.

Definition get_vandermonde_basis (V : matrix T) : result (matrix T) :=
  let P := Matrix (ncols V) (map (fun _ => repeat (#0) (ncols V)) (rows V)) in
  D <- np2.binop num_sub (np2.getcols V (Slice None (Some (-2)%Z)))
         (np2.getcols V (Slice (Some 2%Z) None)) ;;
  P <- np2.setcols P (Slice None (Some (-2)%Z)) D ;;
  v0 <- np2.getcol V 0 ;;
  v1 <- np2.getcol V 1 ;;
  a <- np.binop num_add v0 v1 ;;
  P <- np2.setcol P (-2) (map (fun y => y / #2) a) ;;
  v0 <- np2.getcol V 0 ;;
  v1 <- np2.getcol V 1 ;;
  d <- np.binop num_sub v0 v1 ;;
  P <- np2.setcol P (-1) (map (fun y => y / #2) d) ;;
  Ok P.

(** "Return True if scaled basis is used, otherwise False" *)
Definition is_scaled (self : t) : bool := false.

Definition eval (self : t) (x : list T) (fk : list T) : result (list T) :=
  let w_hat := work fk in
  output_array <- n_cheb.chebval_all x (np.getslice fk (Slice None (Some (-2)%Z))) ;;
  w_hat <- np.setslice w_hat (Slice (Some 2%Z) None)
             (np.getslice fk (Slice None (Some (-2)%Z))) ;;
  w <- n_cheb.chebval_all x w_hat ;;
  output_array <- np.binop num_sub output_array w ;;
  fm1 <- np.getitem fk (-1) ;;
  fm2 <- np.getitem fk (-2) ;;
  np.binop num_add output_array
    (map (fun xi => num_half * (fm1 * (#1 + xi) + fm2 * (#1 - xi))) x).

Variable xfftn_fwd : list T -> list T.
Variable vandermonde_scalar_product : list T -> list T -> list T.
Context `{Pi T}.

Definition scalar_product (self : t)
  (input output : option (list T)) (fast_transform : bool)
  (b : buffers T) : result (list T * buffers T) :=
  U <- match input with
       | Some f => np.assign (input_array b) f
       | None => Ok (input_array b)
       end ;;
  out <-
    (if fast_transform then
       '(out, _) <- Basis.scalar_product xfftn_fwd vandermonde_scalar_product
                      (CT self) None None fast_transform
                      (Buffers U (output_array b)) ;;
       let s0 := sl 0%Z in
       let s1 := sl 1%Z in
       o0 <- np.getitem out s0 ;;
       o1 <- np.getitem out s1 ;;
       let c0 := num_half * (o0 + o1) in
       o0 <- np.getitem out s0 ;;
       o1 <- np.getitem out s1 ;;
       let c1 := num_half * (o0 - o1) in
       let s0 := Slice (Some 0%Z) (Some (-2)%Z) in
       let s1 := Slice (Some 2%Z) None in
       out <- np.modslice num_sub out s0 (np.getslice out s1) ;;
       let s0 := (-2)%Z in
       out <- np.setitem out s0 c0 ;;
       let s0 := (-1)%Z in
       out <- np.setitem out s0 c1 ;;
       Ok out
     else Ok (vandermonde_scalar_product U (output_array b))) ;;
  match output with
  | Some o => r <- np.assign o out ;; Ok (r, Buffers U out)
  | None => Ok (out, Buffers U out)
  end.

(** [self.slice()] *)
Definition slice_ (self : t) : slice :=
  Slice (Some 0%Z) (Some (SpectralBase.N (super self) - 2)%Z).

End Methods.
Arguments t : clear implicits.
End ShenDirichletBasis.

Module ShenNeumannBasis.
Section Methods.
Context {T : Type} `{Num T}.
Local Open Scope num_scope.

Record t : Type := Make {
  super : SpectralBase.t T;
  mean : T;
  CT : Basis.t T;
  _factor : list T;
}.

Definition plan (self : t) (shape : pyshape) (axis : pyaxis) (dt : dtype)
  (opts : options) : alloc t :=
  '(s, c) <~ shen_plan (super self) (CT self) shape axis dt opts ;;
  ret (Make s (mean self) c (_factor self)).

Definition __init__ (N : Z) (quad : string) (mean : T) (plan_ : bool)
  (domain : T * T) : alloc t :=
  s <~ lift (ChebyshevBase.__init__ N quad domain) ;;
  CT <~ Basis.__init__ N quad false (- #1, #1) ;;
  let self := Make s mean CT [] in
  if plan_ then plan self (ShapeInt N) (AxisInt 0) float64 [] else ret self.

Definition get_vandermonde_basis (self : t) (V : matrix T) : result (matrix T) :=
  _ <- assert (SpectralBase.N (super self) =? Z.of_nat (ncols V))%Z ;;
  let P := Matrix (ncols V) (map (fun _ => repeat (#0) (ncols V)) (rows V)) in
  let k := map (fun j => #(Z.of_nat j)) (seq 0 (Z.to_nat (SpectralBase.N (super self)))) in
  let km2 := np.getslice k (Slice None (Some (-2)%Z)) in
  let fac := map (fun k => let q := k / (k + #2) in q * q) km2 in
  FV <- np2.binop num_mul (np2.tile fac V) (np2.getcols V (Slice (Some 2%Z) None)) ;;
  D <- np2.binop num_sub (np2.getcols V (Slice None (Some (-2)%Z))) FV ;;
  P <- np2.setcols P (Slice None (Some (-2)%Z)) D ;;
  Ok P.

(** "Set intermediate factor arrays" *)
Definition set_factor_array (self : t) (v : list T) : t :=
  if (length (_factor self) =? length v)%nat then self
  else
    let k := wavenumbers (SpectralBase.N (super self)) 2 in
    Make (super self) (mean self) (CT self)
      (map (fun k => let q := k / (k + #2) in q * q) k).

(** [eval(x, fk)], with [output_array=None]; it sets the factor array. *)
Definition eval (self : t) (x : list T) (fk : list T) : result (list T * t) :=
  let output_array := repeat (#0) (length x) in
  let w_hat := work fk in
  let self := set_factor_array self fk in
  v <- n_cheb.chebval_all x (np.getslice fk (Slice None (Some (-2)%Z))) ;;
  output_array <- np.setslice output_array (Slice None None) v ;;
  r <- np.binop num_mul (_factor self) (np.getslice fk (Slice None (Some (-2)%Z))) ;;
  w_hat <- np.setslice w_hat (Slice (Some 2%Z) None) r ;;
  w <- n_cheb.chebval_all x w_hat ;;
  output_array <- np.binop num_sub output_array w ;;
  Ok (output_array, self).

Variable xfftn_fwd : list T -> list T.
Variable vandermonde_scalar_product : list T -> list T -> list T.
Context `{Pi T}.

Definition scalar_product (self : t)
  (input output : option (list T)) (fast_transform : bool)
  (b : buffers T) : result (list T * t * buffers T) :=
  U <- match input with
       | Some f => np.assign (input_array b) f
       | None => Ok (input_array b)
       end ;;
  '(fk, self) <-
    (if fast_transform then
       '(fk, _) <- Basis.scalar_product xfftn_fwd vandermonde_scalar_product
                     (CT self) None None fast_transform
                     (Buffers U (output_array b)) ;;
       let self := set_factor_array self fk in
       let sm2 := sl (Slice (Some 0%Z) (Some (-2)%Z)) in
       let s2p := sl (Slice (Some 2%Z) None) in
       r <- np.binop num_mul (_factor self) (np.getslice fk s2p) ;;
       fk <- np.modslice num_sub fk sm2 r ;;
       Ok (fk, self)
     else Ok (vandermonde_scalar_product U (output_array b), self)) ;;
  let s := sl 0%Z in
  fk <- np.setitem fk s (mean self * num_pi) ;;
  let s := Slice (Some (-2)%Z) None in
  let fk := np.fill fk s (#0) in
  match output with
  | Some o => r <- np.assign o fk ;; Ok (r, self, Buffers U fk)
  | None => Ok (fk, self, Buffers U fk)
  end.

(** [self.CT.backward], the wrapped transform of the plain basis:
    [SpectralBase.backward] is not among the sources. *)
Variable CT_backward : list T -> result (list T).

Definition evaluate_expansion_all (self : t) (input_array : list T)
  : result (list T * t) :=
  let w_hat := work input_array in
  let self := set_factor_array self input_array in
  let s0 := sl (Slice (Some 0%Z) (Some (-2)%Z)) in
  let s1 := sl (Slice (Some 2%Z) None) in
  w_hat <- np.setslice w_hat s0 (np.getslice input_array s0) ;;
  r <- np.binop num_mul (_factor self) (np.getslice input_array s0) ;;
  w_hat <- np.modslice num_sub w_hat s1 r ;;
  output_array <- CT_backward w_hat ;;
  Ok (output_array, self).

End Methods.
Arguments t : clear implicits.
End ShenNeumannBasis.

Module ShenBiharmonicBasis.
Section Methods.
Context {T : Type} `{Num T}.
Local Open Scope num_scope.

Record t : Type := Make {
  super : SpectralBase.t T;
  CT : Basis.t T;
  _factor1 : list T;
  _factor2 : list T;
}.

Definition plan (self : t) (shape : pyshape) (axis : pyaxis) (dt : dtype)
  (opts : options) : alloc t :=
  '(s, c) <~ shen_plan (super self) (CT self) shape axis dt opts ;;
  ret (Make s c (_factor1 self) (_factor2 self)).

Definition __init__ (N : Z) (quad : string) (plan_ : bool) : alloc t :=
  s <~ lift (ChebyshevBase.__init__ N quad (- #1, #1)) ;;
  CT <~ Basis.__init__ N quad false (- #1, #1) ;;
  let self := Make s CT [] [] in
  if plan_ then plan self (ShapeInt N) (AxisInt 0) float64 [] else ret self.

Definition get_vandermonde_basis (self : t) (V : matrix T) : result (matrix T) :=
  let P := Matrix (ncols V) (map (fun _ => repeat (#0) (ncols V)) (rows V)) in
  let k := np.getslice (map (fun j => #(Z.of_nat j)) (seq 0 (ncols V)))
             (Slice None (Some (-4)%Z)) in
  A <- np2.binop num_mul (np2.tile (map (fun k => #2 * (k + #2) / (k + #3)) k) V)
         (np2.getcols V (Slice (Some 2%Z) (Some (-2)%Z))) ;;
  D <- np2.binop num_sub (np2.getcols V (Slice None (Some (-4)%Z))) A ;;
  B <- np2.binop num_mul (np2.tile (map (fun k => (k + #1) / (k + #3)) k) V)
         (np2.getcols V (Slice (Some 4%Z) None)) ;;
  D <- np2.binop num_add D B ;;
  P <- np2.setcols P (Slice None (Some (-4)%Z)) D ;;
  Ok P.

(** [self.slice()] *)
Definition slice_ (self : t) : slice :=
  Slice (Some 0%Z) (Some (SpectralBase.N (super self) - 4)%Z).

(** "Set intermediate factor arrays" *)
Definition set_factor_arrays (self : t) (v : list T) : t :=
  if (length (_factor1 self) =? length (np.getslice v (slice_ self)))%nat then self
  else
    let k := wavenumbers (SpectralBase.N (super self)) 4 in
    Make (super self) (CT self)
      (map (fun k => #(-2) * (k + #2) / (k + #3)) k)
      (map (fun k => (k + #1) / (k + #3)) k).

(** [eval(x, fk)], with [output_array=None]; it sets the factor arrays. *)
Definition eval (self : t) (x : list T) (fk : list T) : result (list T * t) :=
  let output_array := repeat (#0) (length x) in
  let w_hat := work fk in
  let self := set_factor_arrays self fk in
  v <- n_cheb.chebval_all x (np.getslice fk (Slice None (Some (-4)%Z))) ;;
  output_array <- np.setslice output_array (Slice None None) v ;;
  r <- np.binop num_mul (_factor1 self) (np.getslice fk (Slice None (Some (-4)%Z))) ;;
  w_hat <- np.setslice w_hat (Slice (Some 2%Z) (Some (-2)%Z)) r ;;
  w <- n_cheb.chebval_all x (np.getslice w_hat (Slice None (Some (-2)%Z))) ;;
  output_array <- np.binop num_add output_array w ;;
  r <- np.binop num_mul (_factor2 self) (np.getslice fk (Slice None (Some (-4)%Z))) ;;
  w_hat <- np.setslice w_hat (Slice (Some 4%Z) None) r ;;
  let w_hat := np.fill w_hat (Slice None (Some 4%Z)) (#0) in
  w <- n_cheb.chebval_all x w_hat ;;
  output_array <- np.binop num_add output_array w ;;
  Ok (output_array, self).

Variable xfftn_fwd : list T -> list T.
Variable vandermonde_scalar_product : list T -> list T -> list T.
Context `{Pi T}.

Definition scalar_product (self : t)
  (input output : option (list T)) (fast_transform : bool)
  (b : buffers T) : result (list T * t * buffers T) :=
  U <- match input with
       | Some f => np.assign (input_array b) f
       | None => Ok (input_array b)
       end ;;
  '(out, self) <-
    (if fast_transform then
       '(out, _) <- Basis.scalar_product xfftn_fwd vandermonde_scalar_product
                      (CT self) None None fast_transform
                      (Buffers U (output_array b)) ;;
       Tk <- np.assign (work out) out ;;
       let self := set_factor_arrays self Tk in
       let s := sl (slice_ self) in
       let s2 := sl (Slice (Some 2%Z) (Some (-2)%Z)) in
       r <- np.binop num_mul (_factor1 self) (np.getslice Tk s2) ;;
       out <- np.modslice num_add out s r ;;
       let s2 := Slice (Some 4%Z) None in
       r <- np.binop num_mul (_factor2 self) (np.getslice Tk s2) ;;
       out <- np.modslice num_add out s r ;;
       Ok (out, self)
     else Ok (vandermonde_scalar_product U (output_array b), self)) ;;
  let out := np.fill out (sl (Slice (Some (-4)%Z) None)) (#0) in
  match output with
  | Some o => r <- np.assign o out ;; Ok (r, self, Buffers U out)
  | None => Ok (out, self, Buffers U out)
  end.

(** "Return intermediate w_hat array" *)
Definition set_w_hat (self : t) (w_hat fk f1 f2 : list T) : result (list T) :=
  let s := sl (slice_ self) in
  let s2 := sl (Slice (Some 2%Z) (Some (-2)%Z)) in
  let s4 := sl (Slice (Some 4%Z) None) in
  w_hat <- np.setslice w_hat s (np.getslice fk s) ;;
  r <- np.binop num_mul f1 (np.getslice fk s) ;;
  w_hat <- np.modslice num_add w_hat s2 r ;;
  r <- np.binop num_mul f2 (np.getslice fk s) ;;
  np.modslice num_add w_hat s4 r.

(** [self.CT.backward], the wrapped transform of the plain basis:
    [SpectralBase.backward] is not among the sources. *)
Variable CT_backward : list T -> result (list T).

(** [evaluate_expansion_all(input_array, output_array)], called with the
    arrays of [self.backward], which is what its two assertions check. *)
Definition evaluate_expansion_all (self : t) (input_array : list T)
  : result (list T * t) :=
  let w_hat := work input_array in
  let self := set_factor_arrays self input_array in
  w_hat <- set_w_hat self w_hat input_array (_factor1 self) (_factor2 self) ;;
  output_array <- CT_backward w_hat ;;
  Ok (output_array, self).

End Methods.
Arguments t : clear implicits.
End ShenBiharmonicBasis.

(** ** Tolerances and sums *)

(** [abs(y) <= tol] in binary64. *)
Definition within (tol y : float) : bool := PrimFloat.leb (PrimFloat.abs y) tol.

(** The sum of the entries of an array, first to last. *)
Definition np_sum {T : Type} `{Num T} (a : list T) : T :=
  fold_left num_add a (#0)%num.

(** ** Binary64 values *)

(** [FloatAxioms] specifies the operations of [PrimFloat] on [spec_float]:
    sign, mantissa and exponent.  A finite number [(-1)^s m 2^e] is read
    as the integer [(-1)^s m 2^(e + 2148)], its multiple of [2^-2148]:
    exponents are at least [-1074], so the product of two numbers is such
    an integer too. *)
Definition SFfinite (x : spec_float) : bool :=
  match x with
  | S754_zero _ | S754_finite _ _ _ => true
  | _ => false
  end.

Definition SFval (x : spec_float) : Z :=
  match x with
  | S754_finite s m e => cond_Zopp s (Zpos m * 2 ^ (e + 2148))
  | _ => 0
  end.

Definition finite (x : float) : bool := SFfinite (Prim2SF x).
Definition fval (x : float) : Z := SFval (Prim2SF x).

(** A bound on the rounding error of one operation whose exact result is
    at most [A] in magnitude: [2^-52] of it, and [2^-1074] for a
    subnormal result. *)
Definition round_err (A : Z) : Z := (A + 2 ^ 1126) / 2 ^ 52.

(** [x] is finite and within [E] of the exact value [r], which is at
    most [M] in magnitude. *)
Definition near (x : float) (r E M : Z) : Prop :=
  finite x = true /\ (- E <= fval x - r <= E) /\ (- M <= r <= M).

(** ** Planned bases *)

(** The wrapper in [forward] wraps the provider in [xfftn_fwd] and reads
    the provider's input array: what [plan] leaves behind. *)
Definition wraps_provider {T : Type} (s : SpectralBase.t T) : Prop :=
  match SpectralBase.forward s with
  | Method _ => True
  | func_wrap _ _ x inp _ =>
      x = SpectralBase.xfftn_fwd s
      /\ exists f, x = Some f /\ inp = transform_input f
  end.

(** * Properties *)

(** Case analysis on the computation a hypothesis or the goal is stuck on. *)
Ltac break_match_hyp H :=
  match type of H with
  | context [match ?x with _ => _ end] => destruct x eqn:?
  | context [if ?x then _ else _] => destruct x eqn:?
  end.

Ltac inv H := inversion H; subst; clear H.

(** ** Indexing *)

Section IndexingFacts.
Context {A : Type}.
Implicit Types (a v : list A) (d x : A).

Lemma index_nonneg n i :
  0 <= i < Z.of_nat n -> np.index n i = Ok (Z.to_nat i).
Proof.
  intros Hi. unfold np.index.
  replace (0 <=? i) with true by (symmetry; apply Z.leb_le; lia).
  replace (i <? Z.of_nat n) with true by (symmetry; apply Z.ltb_lt; lia).
  reflexivity.
Qed.

Lemma index_neg n i :
  - Z.of_nat n <= i < 0 -> np.index n i = Ok (Z.to_nat (Z.of_nat n + i)).
Proof.
  intros Hi. unfold np.index.
  replace (0 <=? i) with false by (symmetry; apply Z.leb_gt; lia).
  replace (- Z.of_nat n <=? i) with true by (symmetry; apply Z.leb_le; lia).
  replace (i <? 0) with true by (symmetry; apply Z.ltb_lt; lia).
  reflexivity.
Qed.

Lemma update_length a k x :
  (k < length a)%nat -> length (np.update a k x) = length a.
Proof.
  intros Hk. unfold np.update.
  rewrite length_app, length_firstn. cbn [length]. rewrite length_skipn. lia.
Qed.

Lemma update_nth a k x j d :
  (k < length a)%nat ->
  nth j (np.update a k x) d = if (j =? k)%nat then x else nth j a d.
Proof.
  intros Hk. unfold np.update.
  assert (Hf : length (firstn k a) = k) by (rewrite length_firstn; lia).
  destruct (Nat.eqb_spec j k) as [->|Hne].
  - rewrite app_nth2 by lia. rewrite Hf, Nat.sub_diag. reflexivity.
  - destruct (Nat.lt_ge_cases j k) as [Hlt|Hge].
    + rewrite app_nth1 by lia.
      rewrite <- (firstn_skipn k a) at 2. rewrite app_nth1 by lia. reflexivity.
    + rewrite app_nth2 by lia. rewrite Hf.
      destruct (j - k)%nat as [|m] eqn:Em; [lia|]. cbn [nth].
      rewrite nth_skipn. f_equal. lia.
Qed.

Lemma setitem_ok a i k x :
  np.index (length a) i = Ok k -> np.setitem a i x = Ok (np.update a k x).
Proof. intros Hi. unfold np.setitem. rewrite Hi. reflexivity. Qed.

Lemma moditem_ok (f : A -> A) a i k d :
  np.index (length a) i = Ok k -> (k < length a)%nat ->
  np.moditem f a i = Ok (np.update a k (f (nth k a d))).
Proof.
  intros Hi Hk. unfold np.moditem, np.getitem. rewrite Hi. cbn [bind].
  rewrite (nth_error_nth' a d Hk). cbn [bind]. apply setitem_ok, Hi.
Qed.

Lemma broadcast_same n v : length v = n -> np.broadcast n v = Ok v.
Proof. intros <-. unfold np.broadcast. rewrite Nat.eqb_refl. reflexivity. Qed.

Lemma assign_same a v : length v = length a -> np.assign a v = Ok v.
Proof. apply broadcast_same. Qed.

Lemma zip_length (f : A -> A -> A) a v :
  length a = length v -> length (np.zip f a v) = length a.
Proof.
  revert v. induction a as [|x a IH]; intros [|y v] E; simpl in *; try lia.
  rewrite IH; lia.
Qed.

Lemma zip_nth (f : A -> A -> A) a v k d :
  (k < length a)%nat -> (k < length v)%nat ->
  nth k (np.zip f a v) d = f (nth k a d) (nth k v d).
Proof.
  revert v k. induction a as [|x a IH]; intros [|y v] [|k] Ha Hv;
    simpl in *; try lia; try reflexivity.
  apply IH; lia.
Qed.

Lemma binop_same (f : A -> A -> A) a v :
  length a = length v -> np.binop f a v = Ok (np.zip f a v).
Proof. intros E. unfold np.binop. rewrite E, Nat.eqb_refl. reflexivity. Qed.

End IndexingFacts.

(** ** Slices *)

Lemma indices_to_m2 n : np.indices n (Slice None (Some (-2))) = (0, n - 2)%nat.
Proof. unfold np.indices, np.bound. cbn. f_equal. lia. Qed.

Lemma indices_0_m2 n : np.indices n (Slice (Some 0) (Some (-2))) = (0, n - 2)%nat.
Proof. unfold np.indices, np.bound. cbn. f_equal. lia. Qed.

Lemma indices_from2 n :
  (2 <= n)%nat -> np.indices n (Slice (Some 2) None) = (2, n - 2)%nat.
Proof. intros Hn. unfold np.indices, np.bound. cbn. f_equal; lia. Qed.

Lemma indices_last2 n :
  (2 <= n)%nat -> np.indices n (Slice (Some (-2)) None) = (n - 2, 2)%nat.
Proof. intros Hn. unfold np.indices, np.bound. cbn. f_equal; lia. Qed.

Lemma indices_last4 n :
  (4 <= n)%nat -> np.indices n (Slice (Some (-4)) None) = (n - 4, 4)%nat.
Proof. intros Hn. unfold np.indices, np.bound. cbn. f_equal; lia. Qed.

Lemma indices_2_m2 n :
  (4 <= n)%nat -> np.indices n (Slice (Some 2) (Some (-2))) = (2, n - 4)%nat.
Proof. intros Hn. unfold np.indices, np.bound. cbn. f_equal; lia. Qed.

Lemma indices_from4 n :
  (4 <= n)%nat -> np.indices n (Slice (Some 4) None) = (4, n - 4)%nat.
Proof. intros Hn. unfold np.indices, np.bound. cbn. f_equal; lia. Qed.

Lemma indices_0_to n :
  (4 <= n)%nat ->
  np.indices n (Slice (Some 0) (Some (Z.of_nat n - 4))) = (0, n - 4)%nat.
Proof.
  intros Hn. unfold np.indices, np.bound. cbn.
  replace (Z.of_nat n - 4 <? 0) with false by (symmetry; apply Z.ltb_ge; lia).
  f_equal. lia.
Qed.

Section SliceFacts.
Context {A : Type}.
Implicit Types (a v : list A) (d x : A).

Lemma getslice_length a s lo len :
  np.indices (length a) s = (lo, len) -> (lo + len <= length a)%nat ->
  length (np.getslice a s) = len.
Proof.
  intros E Hle. unfold np.getslice. rewrite E.
  rewrite length_firstn, length_skipn. lia.
Qed.

Lemma getslice_nth a s lo len k d :
  np.indices (length a) s = (lo, len) -> (k < len)%nat ->
  nth k (np.getslice a s) d = nth (lo + k) a d.
Proof.
  intros E Hk. unfold np.getslice. rewrite E.
  rewrite nth_firstn. replace (k <? len)%nat with true
    by (symmetry; apply Nat.ltb_lt; exact Hk).
  apply nth_skipn.
Qed.

Lemma splice_length a lo len v :
  (lo + len <= length a)%nat -> length v = len ->
  length (firstn lo a ++ v ++ skipn (lo + len) a) = length a.
Proof.
  intros Hle Hv. rewrite !length_app, length_firstn, length_skipn. lia.
Qed.

Lemma splice_nth a lo len v k d :
  (lo + len <= length a)%nat -> length v = len ->
  nth k (firstn lo a ++ v ++ skipn (lo + len) a) d =
    if (k <? lo)%nat then nth k a d
    else if (k <? lo + len)%nat then nth (k - lo) v d
    else nth k a d.
Proof.
  intros Hle Hv.
  assert (Hf : length (firstn lo a) = lo) by (rewrite length_firstn; lia).
  destruct (Nat.ltb_spec k lo).
  - rewrite app_nth1 by lia. rewrite nth_firstn.
    replace (k <? lo)%nat with true by (symmetry; apply Nat.ltb_lt; lia).
    reflexivity.
  - rewrite app_nth2 by lia. rewrite Hf.
    destruct (Nat.ltb_spec k (lo + len)).
    + rewrite app_nth1 by lia. reflexivity.
    + rewrite app_nth2 by lia. rewrite nth_skipn. f_equal. lia.
Qed.

Lemma setslice_ok a s lo len v :
  np.indices (length a) s = (lo, len) -> length v = len ->
  np.setslice a s v = Ok (firstn lo a ++ v ++ skipn (lo + len) a).
Proof.
  intros E Hv. unfold np.setslice. rewrite E.
  rewrite broadcast_same by exact Hv. reflexivity.
Qed.

Lemma fill_length a s lo len x :
  np.indices (length a) s = (lo, len) -> (lo + len <= length a)%nat ->
  length (np.fill a s x) = length a.
Proof.
  intros E Hle. unfold np.fill. rewrite E.
  apply splice_length; [exact Hle | apply repeat_length].
Qed.

Lemma fill_nth a s lo len x k d :
  np.indices (length a) s = (lo, len) -> (lo + len <= length a)%nat ->
  nth k (np.fill a s x) d =
    if ((lo <=? k) && (k <? lo + len))%nat then x else nth k a d.
Proof.
  intros E Hle. unfold np.fill. rewrite E.
  rewrite (@splice_nth a lo len) by (try apply repeat_length; lia).
  destruct (Nat.ltb_spec k lo), (Nat.leb_spec lo k), (Nat.ltb_spec k (lo + len));
    cbn [andb]; try lia; try reflexivity.
  apply nth_repeat_lt. lia.
Qed.

Lemma modslice_ok (f : A -> A -> A) a s lo len v :
  np.indices (length a) s = (lo, len) -> (lo + len <= length a)%nat ->
  length v = len ->
  np.modslice f a s v
  = Ok (firstn lo a ++ np.zip f (np.getslice a s) v ++ skipn (lo + len) a).
Proof.
  intros E Hle Hv.
  assert (Hg : length (np.getslice a s) = len) by (eapply getslice_length; eauto).
  unfold np.modslice. rewrite binop_same by lia. cbn [bind].
  rewrite E. cbn [snd]. rewrite zip_length by lia. rewrite Hg, Nat.eqb_refl.
  apply setslice_ok; [exact E | rewrite zip_length; lia].
Qed.

End SliceFacts.

(** ** Rows of a matrix *)

Lemma mapM_ok {A B : Type} (f : A -> result B) (g : A -> B) (l : list A) :
  (forall x, In x l -> f x = Ok (g x)) -> mapM f l = Ok (map g l).
Proof.
  induction l as [|x l IH]; intros Hf; [reflexivity|].
  cbn [mapM map]. rewrite Hf by (left; reflexivity). cbn [bind].
  rewrite IH by (intros y Hy; apply Hf; right; exact Hy). reflexivity.
Qed.

Lemma zipM_map {X A B C : Type} (f : A -> B -> result C)
  (g : X -> A) (h : X -> B) (k : X -> C) (l : list X) :
  (forall x, In x l -> f (g x) (h x) = Ok (k x)) ->
  np2.zipM f (map g l) (map h l) = Ok (map k l).
Proof.
  induction l as [|x l IH]; intros Hf; [reflexivity|].
  cbn [np2.zipM map]. rewrite Hf by (left; reflexivity). cbn [bind].
  rewrite IH by (intros y Hy; apply Hf; right; exact Hy). reflexivity.
Qed.

Lemma zip_map {X A : Type} (f : A -> A -> A) (g h : X -> A) (l : list X) :
  np.zip f (map g l) (map h l) = map (fun x => f (g x) (h x)) l.
Proof. induction l as [|x l IH]; [reflexivity|]. cbn. rewrite IH. reflexivity. Qed.

Lemma map_nth_lt {A B : Type} (f : A -> B) (l : list A) (k : nat) (d : A) (e : B) :
  (k < length l)%nat -> nth k (map f l) e = f (nth k l d).
Proof.
  intros Hk. rewrite (nth_indep _ e (f d)) by (rewrite length_map; exact Hk).
  apply map_nth.
Qed.

(** ** The plain basis *)

Section PlainBasis.
Context {T : Type} `{Num T} `{Pi T}.
Variable xfftn_fwd : list T -> list T.
Variable vandermonde_scalar_product : list T -> list T -> list T.
Local Open Scope num_scope.

(** C6: on a coefficient array with at least one entry, [apply_inverse_mass]
    returns the array whose entry [k] is the old one times [2/pi], halved
    for [k = 0], and halved (once more, if [k = 0] is the last) for the last
    [k] when the quadrature is Gauss-Lobatto; every other entry carries the
    factor [2/pi] only. *)
Theorem apply_inverse_mass_entries (self : Basis.t T) (array : list T) (d : T) :
  array <> [] ->
  exists r,
    Basis.apply_inverse_mass self array = Ok r
    /\ length r = length array
    /\ forall k, (k < length array)%nat ->
         nth k r d =
           let y := nth k array d * (#2 / num_pi) in
           let y := if (k =? 0)%nat then y / #2 else y in
           match SpectralBase.quad (Basis.super self) with
           | GL => if (S k =? length array)%nat then y / #2 else y
           | GC => y
           end.
Proof.
  intros Hne.
  assert (Hn : (0 < length array)%nat) by (destruct array; [congruence | simpl; lia]).
  unfold Basis.apply_inverse_mass, sl.
  set (m := map (fun a => a * (#2 / num_pi)) array).
  assert (Hm : length m = length array) by apply length_map.
  rewrite (@moditem_ok _ _ m 0%Z 0%nat d)
    by (try (apply index_nonneg); lia).
  cbn [bind].
  set (m1 := np.update m 0 (nth 0 m d / #2)).
  assert (Hm1 : length m1 = length array)
    by (unfold m1; rewrite update_length; lia).
  assert (Hnth1 : forall k, (k < length array)%nat ->
            nth k m1 d = let y := nth k array d * (#2 / num_pi) in
                         if (k =? 0)%nat then y / #2 else y).
  { intros k Hk. unfold m1. rewrite update_nth by lia. unfold m.
    destruct (Nat.eqb_spec k 0) as [->|_]; cbn zeta;
      rewrite (map_nth_lt _ _ d) by lia; reflexivity. }
  destruct (SpectralBase.quad (Basis.super self)).
  - exists m1. split; [reflexivity|]. split; [exact Hm1|]. exact Hnth1.
  - rewrite (@moditem_ok _ _ m1 (-1)%Z (length array - 1)%nat d).
    + eexists. split; [reflexivity|]. split.
      * rewrite update_length; lia.
      * intros k Hk. rewrite update_nth by lia. cbn zeta.
        destruct (Nat.eqb_spec k (length array - 1)) as [->|Hk'].
        -- replace (S (length array - 1) =? length array)%nat with true
             by (symmetry; apply Nat.eqb_eq; lia).
           rewrite Hnth1 by lia. reflexivity.
        -- replace (S k =? length array)%nat with false
             by (symmetry; apply Nat.eqb_neq; lia).
           apply Hnth1, Hk.
    + rewrite index_neg by lia. f_equal. lia.
    + lia.
Qed.

Lemma scalar_product_fast (self : Basis.t T) (f : list T) (b : buffers T) :
  SpectralBase.N (Basis.super self) = Z.of_nat (length (input_array b)) ->
  length f = length (input_array b) ->
  2 <= SpectralBase.N (Basis.super self) ->
  let N := SpectralBase.N (Basis.super self) in
  let c := match SpectralBase.quad (Basis.super self) with
           | GC => num_pi / #(2 * N)
           | GL => num_pi / #(2 * (N - 1))
           end in
  let out := map (fun y => y * c) (xfftn_fwd f) in
  Basis.scalar_product xfftn_fwd vandermonde_scalar_product self (Some f) None true b
  = Ok (out, Buffers f out).
Proof.
  intros HN Hf H2 N c out. subst N c out.
  unfold Basis.scalar_product.
  rewrite assign_same by exact Hf. cbn [bind].
  rewrite HN, Hf, Z.eqb_refl. cbn [assert bind].
  unfold pydiv. rewrite <- HN.
  destruct (SpectralBase.quad (Basis.super self)).
  - replace (2 * _ =? 0)%Z with false by (symmetry; apply Z.eqb_neq; lia).
    reflexivity.
  - replace (2 * _ =? 0)%Z with false by (symmetry; apply Z.eqb_neq; lia).
    reflexivity.
Qed.

Lemma scalar_product_fast_buffer (self : Basis.t T) (b : buffers T) :
  SpectralBase.N (Basis.super self) = Z.of_nat (length (input_array b)) ->
  2 <= SpectralBase.N (Basis.super self) ->
  exists c,
    Basis.scalar_product xfftn_fwd vandermonde_scalar_product self None None true b
    = Ok (map (fun y => y * c) (xfftn_fwd (input_array b)),
          Buffers (input_array b)
            (map (fun y => y * c) (xfftn_fwd (input_array b)))).
Proof.
  intros HN H2. unfold Basis.scalar_product. cbn [bind].
  rewrite HN, Z.eqb_refl. cbn [assert bind].
  unfold pydiv. rewrite <- HN.
  destruct (SpectralBase.quad (Basis.super self)).
  - replace (2 * _ =? 0)%Z with false by (symmetry; apply Z.eqb_neq; lia).
    eexists. reflexivity.
  - replace (2 * _ =? 0)%Z with false by (symmetry; apply Z.eqb_neq; lia).
    eexists. reflexivity.
Qed.

(** C2: on the fast path, for an input of the planned shape, [scalar_product]
    leaves in the output buffer, and returns, the provider's forward
    transform of the input with every entry multiplied by [pi/(2N)] for
    Gauss and by [pi/(2(N-1))] for Gauss-Lobatto. *)
Theorem scalar_product_fast_scaling (self : Basis.t T) (f : list T) (b : buffers T) :
  SpectralBase.N (Basis.super self) = Z.of_nat (length (input_array b)) ->
  length f = length (input_array b) ->
  2 <= SpectralBase.N (Basis.super self) ->
  Basis.scalar_product xfftn_fwd vandermonde_scalar_product self (Some f) None true b
  = match SpectralBase.quad (Basis.super self) with
    | GC =>
        let out := map (fun y => y * (num_pi / #(2 * SpectralBase.N (Basis.super self))))
                     (xfftn_fwd f) in
        Ok (out, Buffers f out)
    | GL =>
        let out := map (fun y => y * (num_pi / #(2 * (SpectralBase.N (Basis.super self) - 1))))
                     (xfftn_fwd f) in
        Ok (out, Buffers f out)
    end.
Proof.
  intros HN Hf H2. rewrite scalar_product_fast by assumption.
  destruct (SpectralBase.quad (Basis.super self)); reflexivity.
Qed.

End PlainBasis.

(** ** The Shen-Dirichlet basis *)

Section Dirichlet.
Context {T : Type} `{Num T}.
Local Open Scope num_scope.

(** C5: for a Vandermonde matrix [V] with [N >= 2] columns,
    [get_vandermonde_basis(V)] is the matrix of the same shape whose column
    [k] is column [k] of [V] minus column [k+2], for [k < N-2], whose column
    [N-2] is half the sum of columns 0 and 1 and whose column [N-1] is half
    their difference. *)
Theorem get_vandermonde_basis_columns (V : matrix T) (d : T) :
  wf_matrix V -> (2 <= ncols V)%nat ->
  exists P,
    ShenDirichletBasis.get_vandermonde_basis V = Ok P
    /\ ncols P = ncols V
    /\ length (rows P) = length (rows V)
    /\ forall i, (i < length (rows V))%nat ->
         let v := nth i (rows V) [] in
         let p := nth i (rows P) [] in
         length p = ncols V
         /\ (forall k, (k + 2 < ncols V)%nat ->
               nth k p d = nth k v d - nth (k + 2) v d)
         /\ nth (ncols V - 2) p d = (nth 0 v d + nth 1 v d) / #2
         /\ nth (ncols V - 1) p d = (nth 0 v d - nth 1 v d) / #2.
Proof.
  destruct V as [n rs]. unfold wf_matrix. cbn [ncols rows].
  intros Hwf Hn. rewrite Forall_forall in Hwf.
  set (s1 := Slice None (Some (-2)%Z)).
  set (s2 := Slice (Some 2%Z) None).
  set (z := repeat (#0) n).
  assert (Hz : length z = n) by apply repeat_length.
  pose (dif := fun r : list T => np.zip num_sub (np.getslice r s1) (np.getslice r s2)).
  pose (p1 := fun r : list T => firstn 0 z ++ dif r ++ skipn (0 + (n - 2)) z).
  pose (p2 := fun r : list T =>
                np.update (p1 r) (n - 2) ((nth 0 r d + nth 1 r d) / #2)).
  pose (p3 := fun r : list T =>
                np.update (p2 r) (n - 1) ((nth 0 r d - nth 1 r d) / #2)).
  assert (Hg1 : forall r, In r rs -> length (np.getslice r s1) = (n - 2)%nat).
  { intros r Hr. apply (@getslice_length _ r s1 0%nat);
      rewrite (Hwf r Hr); [apply indices_to_m2 | lia]. }
  assert (Hg2 : forall r, In r rs -> length (np.getslice r s2) = (n - 2)%nat).
  { intros r Hr. apply (@getslice_length _ r s2 2%nat);
      rewrite (Hwf r Hr); [apply indices_from2; lia | lia]. }
  assert (Hdif : forall r, In r rs -> length (dif r) = (n - 2)%nat).
  { intros r Hr. unfold dif. rewrite zip_length; rewrite Hg1 by exact Hr;
      [reflexivity | symmetry; apply Hg2, Hr]. }
  assert (Hp1 : forall r, In r rs -> length (p1 r) = n).
  { intros r Hr. unfold p1. rewrite splice_length; [lia | lia | apply Hdif, Hr]. }
  assert (Hp2 : forall r, In r rs -> length (p2 r) = n).
  { intros r Hr. unfold p2. rewrite update_length; rewrite Hp1 by exact Hr; lia. }
  assert (Hcol : forall j : nat, (j < n)%nat ->
            np2.getcol (Matrix n rs) (Z.of_nat j) = Ok (map (fun r => nth j r d) rs)).
  { intros j Hj. unfold np2.getcol. cbn [ncols rows].
    rewrite index_nonneg by lia. cbn [bind].
    apply mapM_ok. intros r Hr. unfold np.getitem.
    rewrite (Hwf r Hr), index_nonneg by lia. cbn [bind].
    rewrite Nat2Z.id, (nth_error_nth' r d) by (rewrite (Hwf r Hr); lia).
    reflexivity. }
  exists (Matrix n (map p3 rs)).
  split.
  - unfold ShenDirichletBasis.get_vandermonde_basis. cbn [ncols rows].
    fold s1 s2 z.
    (* V[:, :-2] - V[:, 2:] *)
    unfold np2.binop, np2.getcols. cbn [rows ncols].
    rewrite (zipM_map _ _ _ dif)
      by (intros r Hr; apply binop_same; rewrite Hg1, Hg2 by exact Hr; reflexivity).
    cbn [bind]. rewrite indices_to_m2, indices_from2 by lia. cbn [snd].
    rewrite Nat.eqb_refl. cbn [orb].
    replace (if (n - 2 =? 1)%nat then (n - 2)%nat else (n - 2)%nat) with (n - 2)%nat
      by (destruct (n - 2 =? 1)%nat; reflexivity).
    cbn [bind].
    (* P[:, :-2] = ... *)
    unfold np2.setcols. cbn [rows ncols]. rewrite indices_to_m2. cbn [snd].
    rewrite Nat.eqb_refl. cbn [orb].
    rewrite (zipM_map _ (fun _ : list T => z) dif p1).
    2:{ intros r Hr. apply setslice_ok; [rewrite Hz; apply indices_to_m2 | apply Hdif, Hr]. }
    cbn [bind].
    (* P[:, -2] = (V[:, 0] + V[:, 1])/2 *)
    pose proof (Hcol 0%nat ltac:(lia)) as Hc0.
    pose proof (Hcol 1%nat ltac:(lia)) as Hc1.
    change (Z.of_nat 0) with 0%Z in Hc0. change (Z.of_nat 1) with 1%Z in Hc1.
    rewrite !Hc0, !Hc1. cbn [bind].
    rewrite binop_same by (rewrite !length_map; reflexivity). cbn [bind].
    rewrite zip_map, map_map.
    unfold np2.setcol. cbn [rows ncols].
    rewrite (@index_neg n (-2)) by lia. cbn [bind].
    rewrite (zipM_map _ p1 _ p2).
    2:{ intros r Hr. unfold p2.
        rewrite (@setitem_ok _ (p1 r) (-2)%Z (n - 2)%nat); [reflexivity|].
        rewrite (Hp1 r Hr), index_neg by lia. f_equal. lia. }
    cbn [bind].
    (* P[:, -1] = (V[:, 0] - V[:, 1])/2 *)
    rewrite binop_same by (rewrite !length_map; reflexivity). cbn [bind].
    rewrite zip_map, map_map. cbn [rows ncols].
    rewrite (@index_neg n (-1)) by lia. cbn [bind].
    rewrite (zipM_map _ p2 _ p3).
    2:{ intros r Hr. unfold p3.
        rewrite (@setitem_ok _ (p2 r) (-1)%Z (n - 1)%nat); [reflexivity|].
        rewrite (Hp2 r Hr), index_neg by lia. f_equal. lia. }
    reflexivity.
  - cbn [ncols rows]. split; [reflexivity|]. split; [apply length_map|].
    intros i Hi.
    set (v := nth i rs []). set (p := nth i (map p3 rs) []).
    assert (Hv : In v rs) by (apply nth_In; exact Hi).
    assert (Ep : p = p3 v).
    { unfold p, v. rewrite (nth_indep _ [] (p3 [])) by (rewrite length_map; exact Hi).
      apply map_nth. }
    rewrite Ep. unfold p3.
    split; [rewrite update_length; rewrite Hp2 by exact Hv; lia|].
    split; [|split].
    + intros k Hk. rewrite update_nth by (rewrite Hp2 by exact Hv; lia).
      replace (k =? n - 1)%nat with false by (symmetry; apply Nat.eqb_neq; lia).
      unfold p2. rewrite update_nth by (rewrite Hp1 by exact Hv; lia).
      replace (k =? n - 2)%nat with false by (symmetry; apply Nat.eqb_neq; lia).
      unfold p1. rewrite (@splice_nth _ z 0 (n - 2)) by (try apply Hdif; try exact Hv; lia).
      replace (k <? 0)%nat with false by reflexivity.
      replace (k <? 0 + (n - 2))%nat with true by (symmetry; apply Nat.ltb_lt; lia).
      rewrite Nat.sub_0_r. unfold dif.
      rewrite zip_nth by (rewrite ?Hg1, ?Hg2 by exact Hv; lia).
      rewrite (@getslice_nth _ v s1 0%nat (n - 2)%nat), (@getslice_nth _ v s2 2%nat (n - 2)%nat);
        try lia; try (rewrite (Hwf v Hv)); try apply indices_to_m2; try (apply indices_from2; lia).
      f_equal. f_equal. lia.
    + rewrite update_nth by (rewrite Hp2 by exact Hv; lia).
      replace (n - 2 =? n - 1)%nat with false by (symmetry; apply Nat.eqb_neq; lia).
      unfold p2. rewrite update_nth by (rewrite Hp1 by exact Hv; lia).
      rewrite Nat.eqb_refl. reflexivity.
    + rewrite update_nth by (rewrite Hp2 by exact Hv; lia).
      rewrite Nat.eqb_refl. reflexivity.
Qed.

End Dirichlet.

(** ** Rounding in binary64 *)

(** The operations of [PrimFloat] are specified in [FloatAxioms] by those
    of [SpecFloat], which shift and round mantissas.  What follows bounds
    the error of one addition, subtraction or multiplication by [2^-52]
    of the exact result (and [2^-1074] where the result is subnormal), on
    the integers that [SFval] reads the numbers as. *)

Lemma pow2_pos k : 0 <= k -> 0 < 2 ^ k.
Proof. intros. apply Z.pow_pos_nonneg; lia. Qed.

Lemma pow2_add a b : 0 <= a -> 0 <= b -> 2 ^ (a + b) = 2 ^ a * 2 ^ b.
Proof. intros. apply Z.pow_add_r; assumption. Qed.

Lemma pow2_le a b : 0 <= a <= b -> 2 ^ a <= 2 ^ b.
Proof. intros. apply Z.pow_le_mono_r; lia. Qed.

Lemma pow2_lt_inv a b : 0 <= a -> 0 <= b -> 2 ^ a < 2 ^ b -> a < b.
Proof. intros Ha Hb H. apply (Z.pow_lt_mono_r_iff 2); lia. Qed.

Lemma pow2_le_inv a b : 0 <= a -> 0 <= b -> 2 ^ a <= 2 ^ b -> a <= b.
Proof. intros Ha Hb H. apply (Z.pow_le_mono_r_iff 2); lia. Qed.

(** *** Shifting a mantissa *)

Lemma digits2_pos_spec m :
  2 ^ (Zpos (digits2_pos m) - 1) <= Zpos m < 2 ^ Zpos (digits2_pos m).
Proof.
  induction m as [p IH|p IH|]; cbn [digits2_pos].
  - rewrite Pos2Z.inj_succ.
    replace (Z.succ (Zpos (digits2_pos p)) - 1) with (Z.succ (Zpos (digits2_pos p) - 1)) by lia.
    rewrite !Z.pow_succ_r by lia. lia.
  - rewrite Pos2Z.inj_succ.
    replace (Z.succ (Zpos (digits2_pos p)) - 1) with (Z.succ (Zpos (digits2_pos p) - 1)) by lia.
    rewrite !Z.pow_succ_r by lia. lia.
  - cbn. lia.
Qed.

Lemma shr_1_m mrs : 0 <= shr_m mrs -> shr_m (shr_1 mrs) = shr_m mrs / 2.
Proof.
  destruct mrs as [m r s]. cbn [shr_m]. intros Hm.
  destruct m as [|[p|p|]|p]; cbn [shr_1 shr_m]; try lia.
  - reflexivity.
  - apply Z.div_unique with (r := 1); lia.
  - apply Z.div_unique with (r := 0); lia.
  - reflexivity.
Qed.

Lemma iter_shr_m p : forall mrs,
  0 <= shr_m mrs ->
  shr_m (SpecFloat.iter_pos shr_1 p mrs) = shr_m mrs / 2 ^ Zpos p.
Proof.
  assert (Hnn : forall a b, 0 <= a -> 0 < b -> 0 <= a / b)
    by (intros; apply Z.div_pos; lia).
  induction p as [p IH|p IH|]; intros mrs Hm; cbn [SpecFloat.iter_pos].
  - pose proof (@pow2_pos (Zpos p) ltac:(lia)) as Hp.
    assert (H1 : 0 <= shr_m (shr_1 mrs)) by (rewrite shr_1_m by lia; apply Hnn; lia).
    assert (H2 : 0 <= shr_m (SpecFloat.iter_pos shr_1 p (shr_1 mrs)))
      by (rewrite IH by lia; apply Hnn; lia).
    rewrite IH, IH, shr_1_m by assumption.
    rewrite !Z.div_div by lia.
    f_equal.
    replace (Zpos p~1) with (1 + Zpos p + Zpos p) by lia.
    rewrite !pow2_add by lia. lia.
  - pose proof (@pow2_pos (Zpos p) ltac:(lia)) as Hp.
    assert (H2 : 0 <= shr_m (SpecFloat.iter_pos shr_1 p mrs))
      by (rewrite IH by lia; apply Hnn; lia).
    rewrite IH, IH by assumption.
    rewrite !Z.div_div by lia.
    f_equal.
    replace (Zpos p~0) with (Zpos p + Zpos p) by lia.
    rewrite !pow2_add by lia. lia.
  - rewrite shr_1_m by lia. reflexivity.
Qed.

Lemma round_nearest_even_cases q l :
  round_nearest_even q l = q \/ round_nearest_even q l = q + 1.
Proof.
  destruct l as [|[| |]]; cbn; auto. destruct (Z.even q); auto.
Qed.

Lemma fexp_eq k : fexp prec emax k = Z.max (k - 53) (-1074).
Proof. reflexivity. Qed.

Lemma shr_m_of_loc m l : shr_m (shr_record_of_loc m l) = m.
Proof. destruct l as [|[| |]]; reflexivity. Qed.

Lemma shr_fexp_spec m e l :
  0 <= m ->
  let n := fexp prec emax (Zdigits2 m + e) - e in
  (n <= 0 -> shr_fexp prec emax m e l = (shr_record_of_loc m l, e))
  /\ (0 < n -> shr_m (fst (shr_fexp prec emax m e l)) = m / 2 ^ n
               /\ snd (shr_fexp prec emax m e l) = e + n).
Proof.
  intros Hm n. unfold shr_fexp. fold n. unfold shr.
  destruct n as [|p|p]; split; intros Hn; try lia; try reflexivity.
  cbn [fst snd]. split; [|reflexivity].
  rewrite iter_shr_m by (rewrite shr_m_of_loc; exact Hm).
  rewrite shr_m_of_loc. reflexivity.
Qed.

Lemma div_pow2_bounds m n :
  0 <= n -> m / 2 ^ n * 2 ^ n <= m < (m / 2 ^ n + 1) * 2 ^ n.
Proof.
  intros Hn. pose proof (@pow2_pos n Hn) as Hp.
  pose proof (Z.mul_div_le m (2 ^ n) Hp).
  pose proof (Z.mul_succ_div_gt m (2 ^ n) Hp). lia.
Qed.

(** *** Rounding a mantissa to 53 bits *)

(** [binary_round_aux] shifts the mantissa to 53 bits, rounds it up or
    down by one unit, and shifts once more when the rounded mantissa has
    reached [2^53]: the second shift is exact.  Below [2^3000], that is
    [2^852] as a number, the result does not overflow. *)
Lemma binary_round_aux_spec s m e :
  -2148 <= e -> Zpos m * 2 ^ (e + 2148) <= 2 ^ 3000 ->
  let x := Zpos m * 2 ^ (e + 2148) in
  let z := binary_round_aux prec emax s (Zpos m) e loc_Exact in
  SFfinite z = true /\
  exists v, SFval z = cond_Zopp s v /\
     (v - x) * 2 ^ 52 <= x + 2 ^ 1126 /\ (x - v) * 2 ^ 52 <= x + 2 ^ 1126.
Proof.
  intros He Hx x z.
  pose proof (digits2_pos_spec m) as Hd. set (d := Zpos (digits2_pos m)) in *.
  assert (Hd0 : 1 <= d) by (unfold d; lia).
  pose proof (@pow2_pos (e + 2148) ltac:(lia)) as HP.
  pose proof (@pow2_pos (d - 1) ltac:(lia)) as HD.
  assert (Hde : d + e <= 853).
  { assert (H : 2 ^ (d - 1 + (e + 2148)) <= 2 ^ 3000).
    { rewrite pow2_add by lia. 
      apply Z.le_trans with (2 := Hx). apply Z.mul_le_mono_nonneg_r; lia. }
    apply pow2_le_inv in H; lia. }
  pose proof (@shr_fexp_spec (Zpos m) e loc_Exact ltac:(lia)) as [S1 S2].
  cbn [Zdigits2] in S1, S2. fold d in S1, S2. rewrite fexp_eq in S1, S2.
  subst z. unfold binary_round_aux.
  change (emax - prec) with 971.
  destruct (Z_le_gt_dec (Z.max (d + e - 53) (-1074) - e) 0) as [Hn|Hn].
  - rewrite (S1 Hn). cbn [shr_record_of_loc shr_m loc_of_shr_record round_nearest_even].
    rewrite (S1 Hn). cbn [shr_record_of_loc shr_m].
    replace (e <=? 971) with true by (symmetry; apply Z.leb_le; lia).
    split; [reflexivity|]. exists x. cbn [SFval]. split; [reflexivity|].
    assert (0 <= x) by (unfold x; lia).
    assert (0 < 2 ^ 1126) by (apply pow2_pos; lia).
    replace (x - x) with 0 by lia. lia.
  - destruct (S2 ltac:(lia)) as [Sm Se].
    destruct (shr_fexp prec emax (Zpos m) e loc_Exact) as [mrs' e'] eqn:E1.
    cbn [fst snd] in Sm, Se.
    set (n := Z.max (d + e - 53) (-1074) - e) in *.
    assert (En : n = Z.max (d + e - 53) (-1074) - e) by reflexivity.
    clearbody n.
    pose proof (@div_pow2_bounds (Zpos m) n ltac:(lia)) as Hdiv.
    pose proof (@pow2_pos n ltac:(lia)) as HQ.
    assert (Hm'0 : 0 <= Zpos m / 2 ^ n) by (apply Z.div_pos; lia).
    pose proof (round_nearest_even_cases (shr_m mrs') (loc_of_shr_record mrs')) as Hr.
    set (m1 := round_nearest_even (shr_m mrs') (loc_of_shr_record mrs')) in *.
    rewrite Sm in Hr. clearbody m1.
    set (P := 2 ^ (e + 2148)) in *.
    set (Q := 2 ^ n) in *.
    set (m' := Zpos m / Q) in *.
    assert (HeP : 2 ^ (e' + 2148) = Q * P).
    { rewrite Se. replace (e + n + 2148) with (n + (e + 2148)) by lia.
      apply pow2_add; lia. }
    assert (HU : Q * P * 2 ^ 52 <= x + 2 ^ 1126).
    { assert (0 <= x) by (unfold x; lia).
      assert (0 < 2 ^ 1126) by (apply pow2_pos; lia).
      rewrite <- HeP, <- pow2_add by lia.
      destruct (Z_le_gt_dec (-1074) (d + e - 53)) as [Hc|Hc].
      - replace (e' + 2148 + 52) with (d - 1 + (e + 2148)) by lia.
        rewrite pow2_add by lia. fold P.
        apply Z.le_trans with x; [|lia].
        unfold x. apply Z.mul_le_mono_nonneg_r; lia.
      - replace (e' + 2148 + 52) with 1126 by lia. lia. }
    (* the rounded mantissa is at most 2^53 *)
    assert (Hm1 : m1 <= 2 ^ 53).
    { assert (m' < 2 ^ 53); [|lia].
      apply Z.div_lt_upper_bound; [lia|].
      unfold Q. rewrite <- pow2_add by lia.
      apply Z.lt_le_trans with (2 ^ d); [lia | apply pow2_le; lia]. }
    assert (Hv : forall v, v = m1 * (Q * P) ->
               (v - x) * 2 ^ 52 <= x + 2 ^ 1126 /\ (x - v) * 2 ^ 52 <= x + 2 ^ 1126).
    { intros v ->.
      assert (A1 : m1 * Q - Zpos m <= Q) by lia.
      assert (A2 : Zpos m - m1 * Q <= Q) by lia.
      apply (Z.mul_le_mono_nonneg_r _ _ P) in A1; [|lia].
      apply (Z.mul_le_mono_nonneg_r _ _ P) in A2; [|lia].
      assert (B1 : m1 * (Q * P) - x <= Q * P) by (unfold x; fold P; lia).
      assert (B2 : x - m1 * (Q * P) <= Q * P) by (unfold x; fold P; lia).
      apply (Z.mul_le_mono_nonneg_r _ _ (2 ^ 52)) in B1; [|lia].
      apply (Z.mul_le_mono_nonneg_r _ _ (2 ^ 52)) in B2; [|lia].
      lia. }
    pose proof (@shr_fexp_spec m1 e' loc_Exact ltac:(lia)) as [T1 T2].
    rewrite fexp_eq in T1, T2.
    destruct m1 as [|p1|p1] eqn:Em1; try lia.
    + cbn [Zdigits2] in T1. rewrite T1 by lia. cbn [shr_record_of_loc shr_m].
      split; [reflexivity|]. exists 0. split; [destruct s; reflexivity|].
      apply Hv. lia.
    + cbn [Zdigits2] in T1, T2.
      pose proof (digits2_pos_spec p1) as Hd1.
      set (d1 := Zpos (digits2_pos p1)) in *.
      assert (Hd10 : 1 <= d1) by (unfold d1; lia).
      destruct (Z_le_gt_dec (Z.max (d1 + e' - 53) (-1074) - e') 0) as [Hn2|Hn2].
      * rewrite T1 by lia. cbn [shr_record_of_loc shr_m].
        replace (e' <=? 971) with true by (symmetry; apply Z.leb_le; lia).
        split; [reflexivity|]. exists (Zpos p1 * 2 ^ (e' + 2148)).
        split; [reflexivity|]. apply Hv. rewrite HeP. reflexivity.
      * destruct (T2 ltac:(lia)) as [Tm Te].
        destruct (shr_fexp prec emax (Zpos p1) e' loc_Exact) as [mrs2 e2] eqn:E2.
        cbn [fst snd] in Tm, Te.
        assert (Hd54 : 54 <= d1) by lia.
        assert (H53 : 2 ^ 53 <= Zpos p1).
        { apply Z.le_trans with (2 ^ (d1 - 1)); [apply pow2_le; lia | lia]. }
        assert (Hp1 : Zpos p1 = 2 ^ 53) by lia.
        assert (Ed1 : d1 = 54).
        { assert (H : 2 ^ (d1 - 1) < 2 ^ 54).
          { apply Z.le_lt_trans with (Zpos p1); [lia|]. rewrite Hp1.
            apply Z.pow_lt_mono_r; lia. }
          apply pow2_lt_inv in H; lia. }
        replace (Z.max (d1 + e' - 53) (-1074) - e') with 1 in Tm, Te by lia.
        rewrite Tm, Hp1. change (2 ^ 53 / 2 ^ 1) with (Zpos (2 ^ 52)).
        cbv iota.
        replace (e2 <=? 971) with true by (symmetry; apply Z.leb_le; lia).
        split; [reflexivity|]. exists (Zpos p1 * 2 ^ (e' + 2148)).
        split.
        -- cbn [SFval]. f_equal. rewrite Te, Hp1.
           replace (e' + 1 + 2148) with (1 + (e' + 2148)) by lia.
           rewrite pow2_add by lia.
           change (Zpos (2 ^ 52)) with (2 ^ 52). 
           change (2 ^ 53) with (2 ^ 52 * 2 ^ 1). lia.
        -- apply Hv. rewrite HeP. reflexivity.
Qed.

Lemma iter_xO m d : Zpos (Pos.iter xO m d) = Zpos m * 2 ^ Zpos d.
Proof.
  induction d as [|d IH] using Pos.peano_ind.
  - cbn [Pos.iter]. change (2 ^ 1) with 2. lia.
  - rewrite Pos.iter_succ, Pos2Z.inj_succ, Z.pow_succ_r by lia. lia.
Qed.

Lemma shl_align_spec m e e' :
  e' <= e ->
  snd (shl_align m e e') = e'
  /\ Zpos (fst (shl_align m e e')) = Zpos m * 2 ^ (e - e').
Proof.
  intros H. unfold shl_align.
  destruct (e' - e) as [|p|p] eqn:E; cbn [fst snd]; try lia.
  - replace (e - e') with 0 by lia. change (2 ^ 0) with 1. lia.
  - rewrite iter_xO. split; [reflexivity|]. do 2 f_equal. lia.
Qed.

Lemma shl_align_above m e e' : e <= e' -> shl_align m e e' = (m, e).
Proof.
  intros H. unfold shl_align.
  destruct (e' - e) as [|p|p] eqn:E; try reflexivity. lia.
Qed.

Lemma binary_round_spec s m e :
  -2148 <= e -> Zpos m * 2 ^ (e + 2148) <= 2 ^ 3000 ->
  let x := Zpos m * 2 ^ (e + 2148) in
  let z := binary_round prec emax s m e in
  SFfinite z = true /\
  exists v, SFval z = cond_Zopp s v /\
     (v - x) * 2 ^ 52 <= x + 2 ^ 1126 /\ (x - v) * 2 ^ 52 <= x + 2 ^ 1126.
Proof.
  intros He Hx x z. subst z. unfold binary_round. rewrite fexp_eq.
  set (e' := Z.max (Zpos (digits2_pos m) + e - 53) (-1074)).
  destruct (Z_le_gt_dec e' e) as [H|H].
  - destruct (@shl_align_spec m e e' H) as [Hs Hm].
    destruct (shl_align m e e') as [mz ez]. cbn [fst snd] in Hs, Hm. subst ez.
    assert (E : Zpos mz * 2 ^ (e' + 2148) = x).
    { unfold x. rewrite Hm, <- Z.mul_assoc, <- pow2_add by lia.
      do 2 f_equal. lia. }
    rewrite <- E. apply binary_round_aux_spec; [lia | rewrite E; exact Hx].
  - rewrite shl_align_above by lia. apply binary_round_aux_spec; assumption.
Qed.

Lemma binary_normalize_spec mz e M :
  -2148 <= e -> -M <= mz * 2 ^ (e + 2148) <= M -> M <= 2 ^ 3000 ->
  let z := binary_normalize prec emax mz e false in
  SFfinite z = true
  /\ (SFval z - mz * 2 ^ (e + 2148)) * 2 ^ 52 <= M + 2 ^ 1126
  /\ (mz * 2 ^ (e + 2148) - SFval z) * 2 ^ 52 <= M + 2 ^ 1126.
Proof.
  intros He HM HM' z. subst z.
  assert (0 < 2 ^ 1126) by (apply pow2_pos; lia).
  pose proof (@pow2_pos (e + 2148) ltac:(lia)) as HP.
  destruct mz as [|p|p]; cbn [binary_normalize].
  - cbn [SFval SFfinite]. split; [reflexivity|]. lia.
  - destruct (@binary_round_spec false p e He ltac:(lia)) as (Hf & v & Hv & H1 & H2).
    split; [exact Hf|]. rewrite Hv. cbn [cond_Zopp]. lia.
  - assert (Hx : Zpos p * 2 ^ (e + 2148) <= 2 ^ 3000) by lia.
    destruct (@binary_round_spec true p e He Hx) as (Hf & v & Hv & H1 & H2).
    split; [exact Hf|]. rewrite Hv. cbn [cond_Zopp]. lia.
Qed.

(** *** The operations on [spec_float] *)

Lemma valid_finite s m e :
  valid_binary (S754_finite s m e) = true -> -1074 <= e <= 971.
Proof.
  cbn [SpecFloat.valid_binary]. unfold SpecFloat.bounded, SpecFloat.canonical_mantissa.
  rewrite fexp_eq. change (emax - prec) with 971.
  intros H. apply andb_prop in H. destruct H as [H1 H2].
  apply Z.eqb_eq in H1. apply Z.leb_le in H2. lia.
Qed.

Lemma aligned_value s m e ez :
  -2148 <= ez <= e ->
  cond_Zopp s (Zpos (fst (shl_align m e ez))) * 2 ^ (ez + 2148)
  = SFval (S754_finite s m e).
Proof.
  intros H. destruct (@shl_align_spec m e ez ltac:(lia)) as [_ Hm].
  rewrite Hm. cbn [SFval].
  replace (e + 2148) with (e - ez + (ez + 2148)) by lia.
  rewrite (@pow2_add (e - ez) (ez + 2148)) by lia.
  destruct s; cbn [cond_Zopp]; lia.
Qed.

Lemma SFadd_spec x y M :
  valid_binary x = true -> valid_binary y = true ->
  SFfinite x = true -> SFfinite y = true ->
  -M <= SFval x + SFval y <= M -> M <= 2 ^ 3000 ->
  let z := SFadd prec emax x y in
  SFfinite z = true
  /\ (SFval z - (SFval x + SFval y)) * 2 ^ 52 <= M + 2 ^ 1126
  /\ (SFval x + SFval y - SFval z) * 2 ^ 52 <= M + 2 ^ 1126.
Proof.
  intros Vx Vy Fx Fy HM HM' z. subst z.
  assert (0 < 2 ^ 1126) by (apply pow2_pos; lia).
  destruct x as [sx|sx| |sx mx ex], y as [sy|sy| |sy my ey]; try discriminate;
    cbn [SFadd].
  - cbn [SFval] in *. destruct sx, sy; cbn [SFval SFfinite]; (split; [reflexivity|lia]).
  - split; [reflexivity|]. cbn [SFval] in *. lia.
  - split; [reflexivity|]. cbn [SFval] in *. lia.
  - pose proof (@valid_finite _ _ _ Vx). pose proof (@valid_finite _ _ _ Vy).
    set (ez := Z.min ex ey).
    assert (E : (cond_Zopp sx (Zpos (fst (shl_align mx ex ez)))
                 + cond_Zopp sy (Zpos (fst (shl_align my ey ez)))) * 2 ^ (ez + 2148)
                = SFval (S754_finite sx mx ex) + SFval (S754_finite sy my ey)).
    { rewrite Z.mul_add_distr_r, !aligned_value by lia. reflexivity. }
    rewrite <- E in *. apply binary_normalize_spec; [lia | exact HM | exact HM'].
Qed.

Lemma SFsub_spec x y M :
  valid_binary x = true -> valid_binary y = true ->
  SFfinite x = true -> SFfinite y = true ->
  -M <= SFval x - SFval y <= M -> M <= 2 ^ 3000 ->
  let z := SFsub prec emax x y in
  SFfinite z = true
  /\ (SFval z - (SFval x - SFval y)) * 2 ^ 52 <= M + 2 ^ 1126
  /\ (SFval x - SFval y - SFval z) * 2 ^ 52 <= M + 2 ^ 1126.
Proof.
  intros Vx Vy Fx Fy HM HM' z. subst z.
  assert (0 < 2 ^ 1126) by (apply pow2_pos; lia).
  destruct x as [sx|sx| |sx mx ex], y as [sy|sy| |sy my ey]; try discriminate;
    cbn [SFsub].
  - cbn [SFval] in *. destruct sx, sy; cbn [SFval SFfinite]; (split; [reflexivity|lia]).
  - split; [reflexivity|]. cbn [SFval] in *.
    destruct sy; cbn [negb cond_Zopp] in *; lia.
  - split; [reflexivity|]. cbn [SFval] in *. lia.
  - pose proof (@valid_finite _ _ _ Vx). pose proof (@valid_finite _ _ _ Vy).
    set (ez := Z.min ex ey).
    assert (E : (cond_Zopp sx (Zpos (fst (shl_align mx ex ez)))
                 - cond_Zopp sy (Zpos (fst (shl_align my ey ez)))) * 2 ^ (ez + 2148)
                = SFval (S754_finite sx mx ex) - SFval (S754_finite sy my ey)).
    { rewrite Z.mul_sub_distr_r, !aligned_value by lia. reflexivity. }
    rewrite <- E in *. apply binary_normalize_spec; [lia | exact HM | exact HM'].
Qed.

Lemma SFmul_spec x y P M :
  valid_binary x = true -> valid_binary y = true ->
  SFfinite x = true -> SFfinite y = true ->
  P * 2 ^ 2148 = SFval x * SFval y ->
  -M <= P <= M -> M <= 2 ^ 3000 ->
  let z := SFmul prec emax x y in
  SFfinite z = true
  /\ (SFval z - P) * 2 ^ 52 <= M + 2 ^ 1126
  /\ (P - SFval z) * 2 ^ 52 <= M + 2 ^ 1126.
Proof.
  intros Vx Vy Fx Fy HP HM HM' z. subst z.
  assert (0 < 2 ^ 1126) by (apply pow2_pos; lia).
  assert (HS : 0 < 2 ^ 2148) by (apply pow2_pos; lia).
  destruct x as [sx|sx| |sx mx ex], y as [sy|sy| |sy my ey]; try discriminate;
    cbn [SFmul].
  1-3: assert (P = 0) by (cbn [SFval] in HP; lia);
       subst P; cbn [SFval SFfinite]; (split; [reflexivity|lia]).
  pose proof (@valid_finite _ _ _ Vx). pose proof (@valid_finite _ _ _ Vy).
  set (X := Zpos (mx * my) * 2 ^ (ex + ey + 2148)).
  assert (EP : P = cond_Zopp (xorb sx sy) X).
  { apply (Z.mul_reg_r _ _ (2 ^ 2148)); [lia|]. rewrite HP. cbn [SFval].
    unfold X. rewrite Pos2Z.inj_mul.
    replace (2 ^ (ex + ey + 2148) * 2 ^ 2148) with (2 ^ (ex + 2148) * 2 ^ (ey + 2148)).
    2:{ rewrite <- !pow2_add by lia. f_equal. lia. }
    assert (G : cond_Zopp (xorb sx sy) (Zpos mx * Zpos my * 2 ^ (ex + ey + 2148)) * 2 ^ 2148
                = cond_Zopp (xorb sx sy)
                    (Zpos mx * 2 ^ (ex + 2148) * (Zpos my * 2 ^ (ey + 2148)))).
    { replace (Zpos mx * 2 ^ (ex + 2148) * (Zpos my * 2 ^ (ey + 2148)))
        with (Zpos mx * Zpos my * 2 ^ (ex + ey + 2148) * 2 ^ 2148).
      - destruct (xorb sx sy); cbn [cond_Zopp]; lia.
      - rewrite <- !Z.mul_assoc. f_equal.
        rewrite (Z.mul_comm (2 ^ (ex + 2148))), <- !Z.mul_assoc. f_equal.
        rewrite <- !pow2_add by lia. f_equal. lia. }
    rewrite G. destruct sx, sy; cbn [xorb cond_Zopp]; lia. }
  assert (HX : 0 < X).
  { unfold X. pose proof (@pow2_pos (ex + ey + 2148) ltac:(lia)). lia. }
  assert (HX' : X <= 2 ^ 3000).
  { rewrite EP in HM. destruct (xorb sx sy); cbn [cond_Zopp] in HM; lia. }
  destruct (@binary_round_aux_spec (xorb sx sy) (mx * my) (ex + ey) ltac:(lia) HX')
    as (Hf & v & Hv & B1 & B2).
  fold X in B1, B2.
  split; [exact Hf|]. rewrite Hv, EP.
  rewrite EP in HM. destruct (xorb sx sy); cbn [cond_Zopp] in *; lia.
Qed.

(** *** Comparison *)

Lemma valid_canonical s m e :
  valid_binary (S754_finite s m e) = true ->
  Z.max (Zpos (digits2_pos m) + e - 53) (-1074) = e.
Proof.
  cbn [SpecFloat.valid_binary]. unfold SpecFloat.bounded, SpecFloat.canonical_mantissa.
  rewrite fexp_eq. intros H. apply andb_prop in H. destruct H as [H1 _].
  apply Z.eqb_eq in H1. exact H1.
Qed.

Lemma lt_of_exponent s1 m1 e1 s2 m2 e2 :
  valid_binary (S754_finite s1 m1 e1) = true ->
  valid_binary (S754_finite s2 m2 e2) = true ->
  e1 < e2 ->
  Zpos m1 * 2 ^ (e1 + 2148) < Zpos m2 * 2 ^ (e2 + 2148).
Proof.
  intros V1 V2 He.
  pose proof (@valid_canonical _ _ _ V1) as C1. pose proof (@valid_canonical _ _ _ V2) as C2.
  pose proof (digits2_pos_spec m1) as D1. pose proof (digits2_pos_spec m2) as D2.
  set (d1 := Zpos (digits2_pos m1)) in *. set (d2 := Zpos (digits2_pos m2)) in *.
  assert (Hd1 : 1 <= d1 <= 53) by (unfold d1; lia).
  assert (Hd2 : d2 = 53) by lia.
  assert (A1 : Zpos m1 < 2 ^ 53).
  { apply Z.lt_le_trans with (2 ^ d1); [lia | apply pow2_le; lia]. }
  assert (A2 : 2 ^ 52 <= Zpos m2) by (rewrite Hd2 in D2; exact (proj1 D2)).
  pose proof (@pow2_pos (e1 + 2148) ltac:(lia)) as HP.
  replace (e2 + 2148) with (e2 - e1 - 1 + (1 + (e1 + 2148))) by lia.
  rewrite (@pow2_add (e2 - e1 - 1)), (@pow2_add 1) by lia.
  pose proof (@pow2_pos (e2 - e1 - 1) ltac:(lia)) as HQ.
  set (P := 2 ^ (e1 + 2148)) in *. set (Q := 2 ^ (e2 - e1 - 1)) in *.
  change (2 ^ 1) with 2. change (2 ^ 53) with (2 ^ 52 * 2) in A1.
  assert (B1 : Zpos m1 * P < 2 ^ 52 * 2 * P) by (apply Z.mul_lt_mono_pos_r; lia).
  assert (B2 : 2 ^ 52 * (2 * P) <= Zpos m2 * (2 * P)) by (apply Z.mul_le_mono_nonneg_r; lia).
  assert (B3 : Zpos m2 * (2 * P) * 1 <= Zpos m2 * (2 * P) * Q)
    by (apply Z.mul_le_mono_nonneg_l; lia).
  lia.
Qed.

Lemma SFcompare_pos m1 e1 m2 e2 :
  valid_binary (S754_finite false m1 e1) = true ->
  valid_binary (S754_finite false m2 e2) = true ->
  SFcompare (S754_finite false m1 e1) (S754_finite false m2 e2)
  = Some (Zpos m1 * 2 ^ (e1 + 2148) ?= Zpos m2 * 2 ^ (e2 + 2148)).
Proof.
  intros V1 V2. cbn [SFcompare]. f_equal. symmetry.
  destruct (Z.compare_spec e1 e2) as [E|E|E].
  - subst e2. pose proof (@valid_finite _ _ _ V1) as H1.
    pose proof (@pow2_pos (e1 + 2148) ltac:(lia)) as HP.
    change (Pos.compare_cont Eq m1 m2) with (Zpos m1 ?= Zpos m2).
    destruct (Z.compare_spec (Zpos m1) (Zpos m2)) as [C|C|C].
    + apply Z.compare_eq_iff. rewrite C. reflexivity.
    + apply Z.compare_lt_iff. apply Z.mul_lt_mono_pos_r; lia.
    + apply Z.compare_gt_iff. apply Z.mul_lt_mono_pos_r; lia.
  - apply Z.compare_lt_iff. apply (@lt_of_exponent _ _ _ _ _ _ V1 V2 E).
  - apply Z.compare_gt_iff. apply (@lt_of_exponent _ _ _ _ _ _ V2 V1 E).
Qed.

(** [|x| <= b] on floats, for a positive finite [b], is the comparison of
    the values, and excludes infinities and NaN. *)
Lemma within_iff b mb eb x :
  Prim2SF b = S754_finite false mb eb ->
  within b x = true <->
  finite x = true /\ - fval b <= fval x <= fval b.
Proof.
  intros Hb. unfold within, finite, fval.
  rewrite leb_spec, abs_spec, Hb.
  pose proof (Prim2SF_valid b) as Vb. rewrite Hb in Vb.
  pose proof (Prim2SF_valid x) as Vx.
  pose proof (@valid_finite _ _ _ Vb) as Hb'.
  pose proof (@pow2_pos (eb + 2148) ltac:(lia)) as HP.
  cbn [SFval cond_Zopp].
  destruct (Prim2SF x) as [s|s| |s m e]; cbn [SFabs SFfinite SFval].
  - unfold SFleb; cbn [SFcompare].
    split; [intros _; split; [reflexivity | lia] | reflexivity].
  - unfold SFleb; cbn [SFcompare]. split; [discriminate | intros [? _]; discriminate].
  - unfold SFleb; cbn [SFcompare]. split; [discriminate | intros [? _]; discriminate].
  - unfold SFleb. rewrite SFcompare_pos by assumption.
    pose proof (@valid_finite _ _ _ Vx) as Hx'.
    pose proof (@pow2_pos (e + 2148) ltac:(lia)) as HQ.
    destruct (Z.compare_spec (Zpos m * 2 ^ (e + 2148)) (Zpos mb * 2 ^ (eb + 2148)))
      as [C|C|C]; destruct s; cbn [cond_Zopp];
      (split; [intros H; first [discriminate | split; [reflexivity | lia]]
              | intros [_ H]; first [reflexivity | exfalso; lia]]).
Qed.

(** *** The operations of [PrimFloat] *)

Lemma add_float x y M :
  finite x = true -> finite y = true ->
  - M <= fval x + fval y <= M -> M <= 2 ^ 3000 ->
  finite (x + y) = true
  /\ (fval (x + y) - (fval x + fval y)) * 2 ^ 52 <= M + 2 ^ 1126
  /\ (fval x + fval y - fval (x + y)) * 2 ^ 52 <= M + 2 ^ 1126.
Proof.
  unfold finite, fval. rewrite add_spec. intros.
  apply SFadd_spec; auto using Prim2SF_valid.
Qed.

Lemma sub_float x y M :
  finite x = true -> finite y = true ->
  - M <= fval x - fval y <= M -> M <= 2 ^ 3000 ->
  finite (x - y) = true
  /\ (fval (x - y) - (fval x - fval y)) * 2 ^ 52 <= M + 2 ^ 1126
  /\ (fval x - fval y - fval (x - y)) * 2 ^ 52 <= M + 2 ^ 1126.
Proof.
  unfold finite, fval. rewrite sub_spec. intros.
  apply SFsub_spec; auto using Prim2SF_valid.
Qed.

Lemma mul_float x y P M :
  finite x = true -> finite y = true ->
  P * 2 ^ 2148 = fval x * fval y ->
  - M <= P <= M -> M <= 2 ^ 3000 ->
  finite (x * y) = true
  /\ (fval (x * y) - P) * 2 ^ 52 <= M + 2 ^ 1126
  /\ (P - fval (x * y)) * 2 ^ 52 <= M + 2 ^ 1126.
Proof.
  unfold finite, fval. rewrite mul_spec. intros.
  apply SFmul_spec; auto using Prim2SF_valid.
Qed.

(** *** Accumulated error *)

Lemma round_err_bound a A : a * 2 ^ 52 <= A + 2 ^ 1126 -> a <= round_err A.
Proof.
  intros H. unfold round_err.
  apply Z.div_le_lower_bound; [apply pow2_pos; lia | lia].
Qed.

Lemma near_add x y rx ry Ex Ey Mx My E M :
  near x rx Ex Mx -> near y ry Ey My ->
  (Mx + My + Ex + Ey <=? 2 ^ 3000)
  && (Ex + Ey + round_err (Mx + My + Ex + Ey) <=? E)
  && (Mx + My <=? M) = true ->
  near (x + y) (rx + ry) E M.
Proof.
  intros (Fx & Bx & Rx) (Fy & By & Ry) H.
  apply andb_prop in H; destruct H as [H HM].
  apply andb_prop in H; destruct H as [H0 HE].
  apply Z.leb_le in H0, HE, HM.
  destruct (@add_float x y (Mx + My + Ex + Ey) Fx Fy ltac:(lia) H0) as (Fz & B1 & B2).
  apply round_err_bound in B1, B2.
  split; [exact Fz|]. split; lia.
Qed.

Lemma near_sub x y rx ry Ex Ey Mx My E M :
  near x rx Ex Mx -> near y ry Ey My ->
  (Mx + My + Ex + Ey <=? 2 ^ 3000)
  && (Ex + Ey + round_err (Mx + My + Ex + Ey) <=? E)
  && (Mx + My <=? M) = true ->
  near (x - y) (rx - ry) E M.
Proof.
  intros (Fx & Bx & Rx) (Fy & By & Ry) H.
  apply andb_prop in H; destruct H as [H HM].
  apply andb_prop in H; destruct H as [H0 HE].
  apply Z.leb_le in H0, HE, HM.
  destruct (@sub_float x y (Mx + My + Ex + Ey) Fx Fy ltac:(lia) H0) as (Fz & B1 & B2).
  apply round_err_bound in B1, B2.
  split; [exact Fz|]. split; lia.
Qed.

Lemma scale_bound u k B : - B <= u <= B -> - (Z.abs k * B) <= u * k <= Z.abs k * B.
Proof. intros H. destruct (Z.abs_spec k) as [[? ->]|[? ->]]; nia. Qed.

Lemma near_mul x k kz rx Ex Mx E M :
  near x rx Ex Mx -> finite k = true -> fval k = kz * 2 ^ 2148 ->
  (Z.abs kz * (Mx + Ex) <=? 2 ^ 3000)
  && (Z.abs kz * Ex + round_err (Z.abs kz * (Mx + Ex)) <=? E)
  && (Z.abs kz * Mx <=? M) = true ->
  near (x * k) (rx * kz) E M.
Proof.
  intros (Fx & Bx & Rx) Fk Hk H.
  apply andb_prop in H; destruct H as [H HM].
  apply andb_prop in H; destruct H as [H0 HE].
  apply Z.leb_le in H0, HE, HM.
  assert (HP : fval x * kz * 2 ^ 2148 = fval x * fval k) by (rewrite Hk; ring).
  assert (Hx : - (Mx + Ex) <= fval x <= Mx + Ex) by lia.
  pose proof (@scale_bound _ kz _ Hx) as HB.
  destruct (@mul_float x k _ _ Fx Fk HP HB H0) as (Fz & B1 & B2).
  apply round_err_bound in B1, B2.
  pose proof (@scale_bound _ kz _ Bx) as HB1.
  pose proof (@scale_bound _ kz _ Rx) as HB2.
  split; [exact Fz|]. split; lia.
Qed.

Lemma near_const k kz :
  finite k = true -> fval k = kz -> near k kz 0 (Z.abs kz).
Proof. intros Fk Hk. split; [exact Fk|]. rewrite Hk. lia. Qed.

Lemma near_entry b mb eb c M :
  Prim2SF b = S754_finite false mb eb ->
  (Zpos mb * 2 ^ (eb + 2148) <=? M) = true ->
  within b c = true -> near c (fval c) 0 M.
Proof.
  intros Hb HM H. apply Z.leb_le in HM.
  apply (@within_iff b mb eb c Hb) in H. destruct H as [Fc Bc].
  assert (Eb : fval b = Zpos mb * 2 ^ (eb + 2148))
    by (unfold fval; rewrite Hb; reflexivity).
  split; [exact Fc|]. split; lia.
Qed.

Lemma near_within tol mt et y r E M :
  Prim2SF tol = S754_finite false mt et ->
  near y r E M -> r = 0 ->
  (E <=? Zpos mt * 2 ^ (et + 2148)) = true ->
  within tol y = true.
Proof.
  intros Ht (Fy & By & _) -> HE. apply Z.leb_le in HE.
  apply (@within_iff tol mt et y Ht). split; [exact Fy|].
  assert (Et : fval tol = Zpos mt * 2 ^ (et + 2148))
    by (unfold fval; rewrite Ht; reflexivity).
  lia.
Qed.

(** [approx t] adds [near t r E M] to the context, for the float
    expression [t] built by [+], [-] and multiplication by constants from
    expressions that have such a hypothesis; [r] follows the shape of
    [t], and [E] and [M] are computed. *)
Ltac approx t :=
  lazymatch goal with
  | _ : near t _ _ _ |- _ => idtac
  | _ =>
    lazymatch t with
    | PrimFloat.add ?a ?b =>
        approx a; approx b;
        lazymatch goal with
        | Ha : near a ?ra ?Ea ?Ma |- _ =>
          lazymatch goal with
          | Hb : near b ?rb ?Eb ?Mb |- _ =>
            let E := eval vm_compute in (Ea + Eb + round_err (Ma + Mb + Ea + Eb)) in
            let M := eval vm_compute in (Ma + Mb) in
            assert (near (a + b) (ra + rb) E M)
              by (apply (@near_add a b ra rb Ea Eb Ma Mb E M Ha Hb); vm_compute; reflexivity)
          end
        end
    | PrimFloat.sub ?a ?b =>
        approx a; approx b;
        lazymatch goal with
        | Ha : near a ?ra ?Ea ?Ma |- _ =>
          lazymatch goal with
          | Hb : near b ?rb ?Eb ?Mb |- _ =>
            let E := eval vm_compute in (Ea + Eb + round_err (Ma + Mb + Ea + Eb)) in
            let M := eval vm_compute in (Ma + Mb) in
            assert (near (a - b) (ra - rb) E M)
              by (apply (@near_sub a b ra rb Ea Eb Ma Mb E M Ha Hb); vm_compute; reflexivity)
          end
        end
    | PrimFloat.mul ?a ?k =>
        approx a;
        lazymatch goal with
        | Ha : near a ?ra ?Ea ?Ma |- _ =>
            let kz := eval vm_compute in (fval k / 2 ^ 2148) in
            let E := eval vm_compute in
                       (Z.abs kz * Ea + round_err (Z.abs kz * (Ma + Ea))) in
            let M := eval vm_compute in (Z.abs kz * Ma) in
            assert (near (a * k) (ra * kz) E M)
              by (apply (@near_mul a k kz ra Ea Ma E M Ha); vm_compute; reflexivity)
        end
    | _ =>
        let kz := eval vm_compute in (fval t) in
        let M := eval vm_compute in (Z.abs kz) in
        assert (near t kz 0 M) by (apply near_const; vm_compute; reflexivity)
    end
  end.

(** [within b c = true], for a variable [c], becomes [near c (fval c) 0 M]
    with [M] the value of [b]. *)
Ltac entry_bounds b :=
  lazymatch eval vm_compute in (Prim2SF b) with
  | S754_finite false ?mb ?eb =>
      let M := eval vm_compute in (Zpos mb * 2 ^ (eb + 2148)) in
      repeat match goal with
             | H : within b ?c = true |- _ =>
                 is_var c; apply (@near_entry b mb eb c M) in H;
                 [ | vm_compute; reflexivity | vm_compute; reflexivity ]
             end
  end.

(** [within tol y = true] from the bound that [approx] computes for [y],
    when the exact value of [y] is zero. *)
Ltac close_within tol :=
  lazymatch goal with
  | |- within tol ?y = true =>
      approx y;
      lazymatch eval vm_compute in (Prim2SF tol) with
      | S754_finite false ?mt ?et =>
          lazymatch goal with
          | H : near y ?r ?E ?M |- _ =>
              apply (@near_within tol mt et y r E M);
              [ vm_compute; reflexivity | exact H | lia | vm_compute; reflexivity ]
          end
      end
  end.

(** ** Evaluation of a Shen-Dirichlet expansion at the boundary *)

(** In binary64 the two Clenshaw sums of [eval] round differently, and
    their difference is the rounding error, which grows with the
    coefficients: here it is 2. *)
Example eval_binary64_large_coefficients (self : ShenDirichletBasis.t float) :
  ShenDirichletBasis.eval self [1; -1]%float [1e16; 1; 0; 0; 0; 0]%float
  = Ok [-2; 2]%float.
Proof. vm_compute. reflexivity. Qed.

Example eval_binary64_small_coefficients (self : ShenDirichletBasis.t float) :
  ShenDirichletBasis.eval self [1; -1]%float [3; 1; 2; 5; 0; 0]%float
  = Ok [0; 0]%float.
Proof. vm_compute. reflexivity. Qed.

(** For the binary64 numbers next to 0.1, 0.2, 0.3 and 0.7 the difference
    is one unit of the last place of 1. *)
Example eval_binary64_rounded (self : ShenDirichletBasis.t float) :
  ShenDirichletBasis.eval self [1; -1]%float
    [0x1.999999999999ap-4; 0x1.999999999999ap-3; 0x1.3333333333333p-2;
     0x1.6666666666666p-1; 0; 0]%float
  = Ok [0x1p-52; -0x1p-52]%float.
Proof. vm_compute. reflexivity. Qed.

(** C8, as stated, fails in binary64: for [N = 6], [bc = (0, 0)] and the
    coefficients [1e16, 1, 0, 0, 0, 0], whose last two entries are zero,
    [eval] at [x = 1] and [x = -1] is not within [1e-10] of zero. *)
Lemma eval_boundary_binary64_counterexample :
  ~ (forall (self : ShenDirichletBasis.t float) (fk : list float),
       SpectralBase.N (ShenDirichletBasis.super self) = 6 ->
       ShenDirichletBasis.bc self = (0, 0)%float ->
       length fk = 6%nat ->
       nth 4 fk 0%float = 0%float -> nth 5 fk 0%float = 0%float ->
       exists y,
         ShenDirichletBasis.eval self [1; -1]%float fk = Ok y
         /\ forallb (within 0x1.b7cdfd9d7bdbbp-34%float) y = true).
Proof.
  intros C.
  destruct (ShenDirichletBasis.__init__ 6 "GC" (0, 0)%float false (-1, 1)%float false 0%nat)
    as [[self h]|e] eqn:E; [|vm_compute in E; discriminate].
  assert (HN : SpectralBase.N (ShenDirichletBasis.super self) = 6)
    by (vm_compute in E; inv E; reflexivity).
  assert (Hbc : ShenDirichletBasis.bc self = (0, 0)%float)
    by (vm_compute in E; inv E; reflexivity).
  destruct (C self [1e16; 1; 0; 0; 0; 0]%float HN Hbc eq_refl eq_refl eq_refl)
    as (y & Hy & Htol).
  rewrite eval_binary64_large_coefficients in Hy. inv Hy.
  vm_compute in Htol. discriminate.
Qed.

(** C8, amended: in binary64, for [N = 6], [bc = (0, 0)] and every
    coefficient vector whose entries are at most 500 in magnitude and
    whose entries [N-2] and [N-1] are zero, [eval] at [x = 1] and at
    [x = -1] is within [1e-10] of zero. *)
Theorem eval_boundary_binary64 (self : ShenDirichletBasis.t float) (fk : list float) :
  SpectralBase.N (ShenDirichletBasis.super self) = 6 ->
  ShenDirichletBasis.bc self = (0, 0)%float ->
  length fk = 6%nat ->
  forallb (within 500) fk = true ->
  nth 4 fk 0%float = 0%float -> nth 5 fk 0%float = 0%float ->
  exists y,
    ShenDirichletBasis.eval self [1; -1]%float fk = Ok y
    /\ forallb (within 0x1.b7cdfd9d7bdbbp-34%float) y = true.
Proof.
  intros _ _ Hlen Hb H4 H5.
  do 7 (destruct fk as [|? fk]; try discriminate).
  cbn [nth] in H4, H5. subst.
  cbn [forallb] in Hb.
  repeat (apply andb_prop in Hb; destruct Hb as [? Hb]). clear Hb.
  entry_bounds 500%float.
  match goal with
  | |- exists y, ?t = Ok y /\ _ =>
      let v := eval vm_compute in t in
      assert (Ev : t = v) by (vm_compute; reflexivity); rewrite Ev
  end.
  eexists. split; [reflexivity|].
  cbn [forallb]. apply andb_true_intro. split; [|apply andb_true_intro; split; [|reflexivity]].
  - close_within 0x1.b7cdfd9d7bdbbp-34%float.
  - close_within 0x1.b7cdfd9d7bdbbp-34%float.
Qed.

Lemma eval_boundary_binary64_witness :
  exists y,
    ShenDirichletBasis.eval
      (ShenDirichletBasis.Make (SpectralBase.__init__ 6 GC (-1, 1)%float)
         (Basis.Make (SpectralBase.__init__ 6 GC (-1, 1)%float) DCT2 DCT3)
         false [1%float] (0, 0)%float)
      [1; -1]%float
      [0x1.999999999999ap-4; 0x1.999999999999ap-3; 0x1.3333333333333p-2;
       0x1.6666666666666p-1; 0; 0]%float = Ok y
    /\ forallb (within 0x1.b7cdfd9d7bdbbp-34%float) y = true.
Proof. apply eval_boundary_binary64; reflexivity. Defined.

(** ** The projection of a constant on the Gauss grid *)

Section GaussOnes.
Local Open Scope R_scope.

Lemma sigma_ext (f g : nat -> R) (n : nat) :
  (forall j, (j < n)%nat -> f j = g j) -> sigma f n = sigma g n.
Proof.
  induction n as [|n IH]; intros E; [reflexivity|].
  cbn [sigma]. rewrite IH by (intros j Hj; apply E; lia).
  rewrite E by lia. reflexivity.
Qed.

(** [2 sin t (cos t + cos 3t + ... + cos (2n-1)t) = sin 2nt] *)
Lemma sum_cos_odd (t : R) (n : nat) :
  2 * sin t * sigma (fun j => cos ((2 * INR j + 1) * t)) n = sin (2 * INR n * t).
Proof.
  induction n as [|n IH].
  - cbn [sigma INR]. change (@num_of_Z R Num_R 0) with 0.
    replace (2 * 0 * t) with 0 by ring. rewrite sin_0. ring.
  - cbn [sigma]. change (@num_add R Num_R) with Rplus.
    rewrite Rmult_plus_distr_l, IH, S_INR.
    replace (2 * (INR n + 1) * t) with ((2 * INR n + 1) * t + t) by ring.
    replace (2 * INR n * t) with ((2 * INR n + 1) * t - t) by ring.
    rewrite sin_plus, sin_minus. ring.
Qed.

(** The cosines of the transform of type 2 over a full grid cancel in every
    mode but the first. *)
Lemma dct2_ones_mode (n k : nat) :
  (0 < k < n)%nat ->
  sigma (fun j => nth j (repeat 1 n) (IZR 0)
                  * cos (PI * (IZR (Z.of_nat j) + / 2) * IZR (Z.of_nat k)
                         / IZR (Z.of_nat n))) n = 0.
Proof.
  intros [Hk Hkn].
  assert (Hn : 0 < INR n) by (apply lt_0_INR; lia).
  assert (Hk0 : 0 < INR k) by (apply lt_0_INR; lia).
  assert (Hkn' : INR k < INR n) by (apply lt_INR; exact Hkn).
  pose proof PI_RGT_0 as Hpi.
  set (t := PI * INR k / (2 * INR n)).
  rewrite (sigma_ext _ (fun j => cos ((2 * INR j + 1) * t))).
  2:{ intros j Hj. rewrite nth_repeat_lt by exact Hj.
      rewrite <- !INR_IZR_INZ, Rmult_1_l. f_equal. unfold t. field. lra. }
  assert (Ht : 0 < t < PI).
  { unfold t. split.
    - apply Rdiv_lt_0_compat; nra.
    - apply Rmult_lt_reg_r with (2 * INR n); [lra|].
      unfold Rdiv. rewrite Rmult_assoc, Rinv_l by lra. nra. }
  assert (Hs : 0 < sin t) by (apply sin_gt_0; lra).
  pose proof (sum_cos_odd t n) as E.
  replace (2 * INR n * t) with (IZR (Z.of_nat k) * PI) in E
    by (rewrite <- INR_IZR_INZ; unfold t; field; lra).
  rewrite (sin_eq_0_1 _ (ex_intro _ (Z.of_nat k) eq_refl)) in E.
  apply Rmult_integral in E. destruct E as [E|E]; [lra | exact E].
Qed.

Lemma dct2_ones_first (n : nat) :
  sigma (fun j => nth j (repeat 1 n) (IZR 0)
                  * cos (PI * (IZR (Z.of_nat j) + / 2) * IZR (Z.of_nat 0)
                         / IZR (Z.of_nat n))) n = INR n.
Proof.
  rewrite (sigma_ext _ (fun _ => 1)).
  - induction n as [|n IH]; [reflexivity|].
    cbn [sigma]. rewrite IH, S_INR. reflexivity.
  - intros j Hj. rewrite nth_repeat_lt by exact Hj.
    cbn [Z.of_nat]. unfold Rdiv. rewrite Rmult_0_r, Rmult_0_l, cos_0. ring.
Qed.

End GaussOnes.

Section GaussOnesScalarProduct.
Variable vandermonde_scalar_product : list R -> list R -> list R.
Local Open Scope R_scope.

Lemma dct2_ones_nth (k : nat) :
  (k < 8)%nat ->
  nth k (fftw.dct DCT2 (repeat 1 8)) 0 = if (k =? 0)%nat then 16 else 0.
Proof.
  intros Hk. unfold fftw.dct. rewrite repeat_length.
  rewrite (map_nth_lt _ _ 0%nat) by (rewrite length_seq; exact Hk).
  rewrite seq_nth by exact Hk. cbn [Nat.add].
  cbn [num_mul num_add num_div num_of_Z num_half num_pi num_cos Num_R].
  unfold num_pi, num_cos, Cos_R, Pi_R.
  destruct (Nat.eqb_spec k 0) as [->|Hne].
  - rewrite (dct2_ones_first 8). cbn [INR]. ring.
  - rewrite (dct2_ones_mode (n:=8) (k:=k)) by lia. ring.
Qed.

Lemma scalar_product_ones (self : Basis.t R) (b : buffers R) :
  SpectralBase.N (Basis.super self) = 8%Z ->
  SpectralBase.quad (Basis.super self) = GC ->
  length (input_array b) = 8%nat ->
  exists out,
    Basis.scalar_product (fftw.dct DCT2) vandermonde_scalar_product self
      (Some (repeat 1 8)) None true b = Ok (out, Buffers (repeat 1 8) out)
    /\ length out = 8%nat
    /\ nth 0 out 0 = PI
    /\ forall k, (1 <= k < 8)%nat -> nth k out 0 = 0.
Proof.
  intros HN Hq Hlen.
  rewrite scalar_product_fast by (rewrite ?HN, ?Hlen; cbn; lia).
  rewrite HN, Hq. cbv zeta. eexists. split; [reflexivity|].
  assert (Hd : length (fftw.dct DCT2 (repeat 1 8)) = 8%nat)
    by (unfold fftw.dct; rewrite length_map, length_seq; apply repeat_length).
  split; [rewrite length_map; exact Hd|].
  split.
  - rewrite (map_nth_lt _ _ 0%R) by (rewrite Hd; lia). rewrite dct2_ones_nth by lia.
    cbn [Nat.eqb num_mul num_div num_of_Z num_pi Num_R Z.mul Pos.mul].
    unfold num_pi, Pi_R. field.
  - intros k Hk. rewrite (map_nth_lt _ _ 0%R) by (rewrite Hd; lia).
    rewrite dct2_ones_nth by lia.
    replace (k =? 0)%nat with false by (symmetry; apply Nat.eqb_neq; lia).
    cbn [num_mul Num_R]. ring.
Qed.

Lemma gauss_weights_sum (self : SpectralBase.t R) :
  SpectralBase.quad self = GC ->
  exists pts w,
    ChebyshevBase.points_and_weights self 8 false = Ok (pts, w)
    /\ length w = 8%nat
    /\ np_sum w = PI.
Proof.
  intros Hq. unfold ChebyshevBase.points_and_weights. rewrite Hq.
  unfold n_cheb.chebgauss. cbn [Z.leb Z.compare bind Z.to_nat].
  do 2 eexists. split; [reflexivity|]. split; [apply repeat_length|].
  vm_compute. field.
Qed.

(** C9, amended: for [N = 8], Gauss quadrature, the plain basis and the
    input [ones(8)], [scalar_product] yields zero in every mode but mode 0,
    whose value is the sum of the quadrature weights, which is [pi] (the
    raw transform gives [2N] there, and is scaled by [pi/(2N)]). *)
Theorem scalar_product_ones_gauss (self : Basis.t R) (b : buffers R) :
  SpectralBase.N (Basis.super self) = 8%Z ->
  SpectralBase.quad (Basis.super self) = GC ->
  length (input_array b) = 8%nat ->
  exists out b' pts w,
    Basis.scalar_product (fftw.dct DCT2) vandermonde_scalar_product self
      (Some (repeat 1 8)) None true b = Ok (out, b')
    /\ ChebyshevBase.points_and_weights (Basis.super self) 8 false = Ok (pts, w)
    /\ length out = 8%nat
    /\ nth 0 out 0 = np_sum w
    /\ np_sum w = PI
    /\ forall k, (1 <= k < 8)%nat -> nth k out 0 = 0.
Proof.
  intros HN Hq Hlen.
  destruct (scalar_product_ones self b HN Hq Hlen) as (out & E & Hl & H0 & Hk).
  destruct (gauss_weights_sum (Basis.super self) Hq) as (pts & w & Ew & _ & Hw).
  exists out, (Buffers (repeat 1 8) out), pts, w.
  repeat split; try assumption. congruence.
Qed.

End GaussOnesScalarProduct.

(** C9, as stated, fails: mode 0 is [pi], not [pi] times the sum of the
    weights over [2N], which is [pi^2/16]. *)
Lemma scalar_product_ones_gauss_counterexample :
  ~ (forall (vsp : list R -> list R -> list R) (self : Basis.t R) (b : buffers R),
       SpectralBase.N (Basis.super self) = 8%Z ->
       SpectralBase.quad (Basis.super self) = GC ->
       length (input_array b) = 8%nat ->
       exists out b' pts w,
         Basis.scalar_product (fftw.dct DCT2) vsp self
           (Some (repeat 1%R 8)) None true b = Ok (out, b')
         /\ ChebyshevBase.points_and_weights (Basis.super self) 8 false = Ok (pts, w)
         /\ nth 0 out 0%R = (PI * np_sum w / (2 * 8))%R
         /\ forall k, (1 <= k < 8)%nat -> nth k out 0%R = 0%R).
Proof.
  intros C.
  set (self := Basis.Make (SpectralBase.__init__ 8 GC (-1, 1)%R) DCT2 DCT3).
  set (b := Buffers (repeat 0%R 8) (repeat 0%R 8)).
  destruct (C (fun _ v => v) self b eq_refl eq_refl eq_refl)
    as (out & b' & pts & w & E & Ew & H0 & _).
  destruct (scalar_product_ones (fun _ v => v) self b eq_refl eq_refl eq_refl)
    as (out' & E' & _ & H0' & _).
  destruct (gauss_weights_sum (Basis.super self) eq_refl) as (pts' & w' & Ew' & _ & Hw).
  rewrite E' in E. inv E. rewrite Ew' in Ew. inv Ew.
  rewrite H0', Hw in H0.
  pose proof PI_RGT_0. pose proof PI_4. nra.
Qed.

Lemma scalar_product_ones_gauss_witness :
  exists out b' pts w,
    Basis.scalar_product (fftw.dct DCT2) (fun _ v => v)
      (Basis.Make (SpectralBase.__init__ 8 GC (-1, 1)%R) DCT2 DCT3)
      (Some (repeat 1%R 8)) None true (Buffers (repeat 0%R 8) (repeat 0%R 8))
    = Ok (out, b')
    /\ ChebyshevBase.points_and_weights
         (SpectralBase.__init__ 8 GC (-1, 1)%R) 8 false = Ok (pts, w)
    /\ length out = 8%nat
    /\ nth 0 out 0%R = np_sum w
    /\ np_sum w = PI
    /\ forall k, (1 <= k < 8)%nat -> nth k out 0%R = 0%R.
Proof.
  apply (scalar_product_ones_gauss (fun _ v => v)
           (Basis.Make (SpectralBase.__init__ 8 GC (-1, 1)%R) DCT2 DCT3)
           (Buffers (repeat 0%R 8) (repeat 0%R 8))); reflexivity.
Defined.

(** ** The scalar products of the Shen-Neumann and Shen-biharmonic bases *)

Section ShenScalarProducts.
Context {T : Type} `{Num T} `{Pi T}.
Variable xfftn_fwd : list T -> list T.
Variable vandermonde_scalar_product : list T -> list T -> list T.
Local Open Scope num_scope.

(** The transforms keep the shape of the planned buffers. *)
Hypothesis xfftn_fwd_length : forall u, length (xfftn_fwd u) = length u.
Hypothesis vandermonde_scalar_product_length :
  forall u v, length (vandermonde_scalar_product u v) = length v.

Lemma input_assigned (b : buffers T) (input : option (list T)) :
  match input with
  | Some f => length f = length (input_array b)
  | None => True
  end ->
  exists U,
    match input with
    | Some f => np.assign (input_array b) f
    | None => Ok (input_array b)
    end = Ok U
    /\ length U = length (input_array b).
Proof.
  destruct input as [f|]; intros Hf.
  - exists f. split; [apply assign_same, Hf | exact Hf].
  - exists (input_array b). split; reflexivity.
Qed.

Lemma neumann_factor_length (self : ShenNeumannBasis.t T) (v : list T) (n : nat) :
  SpectralBase.N (ShenNeumannBasis.super self) = Z.of_nat n ->
  length v = n -> (3 <= n)%nat ->
  length (ShenNeumannBasis._factor self) = 0%nat
  \/ length (ShenNeumannBasis._factor self) = (n - 2)%nat ->
  let self' := ShenNeumannBasis.set_factor_array self v in
  length (ShenNeumannBasis._factor self') = (n - 2)%nat
  /\ ShenNeumannBasis.mean self' = ShenNeumannBasis.mean self.
Proof.
  intros HN Hv Hn Hf. unfold ShenNeumannBasis.set_factor_array.
  destruct (Nat.eqb_spec (length (ShenNeumannBasis._factor self)) (length v)).
  - lia.
  - cbn. split; [|reflexivity].
    unfold wavenumbers. rewrite !length_map, length_seq, HN. lia.
Qed.

(** The last steps of the Neumann scalar product: [fk[0] = mean*pi] and
    [fk[-2:] = 0]. *)
Lemma neumann_slots (fk : list T) (m d : T) :
  (3 <= length fk)%nat ->
  exists fk1,
    np.setitem fk 0 m = Ok fk1
    /\ let r := np.fill fk1 (Slice (Some (-2)%Z) None) (#0) in
       length r = length fk
       /\ nth 0 r d = m
       /\ nth (length fk - 2) r d = #0
       /\ nth (length fk - 1) r d = #0.
Proof.
  intros Hn. exists (np.update fk 0 m).
  split; [apply setitem_ok, index_nonneg; lia|].
  assert (Hu : length (np.update fk 0 m) = length fk) by (apply update_length; lia).
  assert (Hi : np.indices (length (np.update fk 0 m)) (Slice (Some (-2)%Z) None)
               = (length fk - 2, 2)%nat)
    by (rewrite Hu; apply indices_last2; lia).
  cbv zeta. split; [|split; [|split]].
  - rewrite (fill_length _ _ Hi) by lia. exact Hu.
  - rewrite (fill_nth _ _ _ _ Hi) by lia.
    replace (length fk - 2 <=? 0)%nat with false by (symmetry; apply Nat.leb_gt; lia).
    cbn [andb]. rewrite update_nth by lia. reflexivity.
  - rewrite (fill_nth _ _ _ _ Hi) by lia.
    rewrite Nat.leb_refl.
    replace (length fk - 2 <? length fk - 2 + 2)%nat with true
      by (symmetry; apply Nat.ltb_lt; lia).
    reflexivity.
  - rewrite (fill_nth _ _ _ _ Hi) by lia.
    replace (length fk - 2 <=? length fk - 1)%nat with true
      by (symmetry; apply Nat.leb_le; lia).
    replace (length fk - 1 <? length fk - 2 + 2)%nat with true
      by (symmetry; apply Nat.ltb_lt; lia).
    reflexivity.
Qed.

Lemma neumann_scalar_product_slots (self : ShenNeumannBasis.t T)
  (input : option (list T)) (fast_transform : bool) (b : buffers T) (d : T) :
  let n := length (input_array b) in
  SpectralBase.N (ShenNeumannBasis.super self) = Z.of_nat n ->
  SpectralBase.N (Basis.super (ShenNeumannBasis.CT self)) = Z.of_nat n ->
  length (output_array b) = n ->
  (3 <= n)%nat ->
  length (ShenNeumannBasis._factor self) = 0%nat
  \/ length (ShenNeumannBasis._factor self) = (n - 2)%nat ->
  match input with Some f => length f = n | None => True end ->
  exists fk self' b',
    ShenNeumannBasis.scalar_product xfftn_fwd vandermonde_scalar_product
      self input None fast_transform b = Ok (fk, self', b')
    /\ output_array b' = fk
    /\ length fk = n
    /\ nth 0 fk d = ShenNeumannBasis.mean self * num_pi
    /\ nth (n - 2) fk d = #0
    /\ nth (n - 1) fk d = #0.
Proof.
  intros n HN HCT HV Hn3 Hfac Hin.
  destruct (input_assigned b input Hin) as (U & EU & HU). fold n in HU.
  unfold ShenNeumannBasis.scalar_product. rewrite EU. cbn [bind].
  destruct fast_transform.
  - destruct (scalar_product_fast_buffer xfftn_fwd vandermonde_scalar_product
                (ShenNeumannBasis.CT self) (Buffers U (output_array b)))
      as (c & Ec); [cbn [input_array]; rewrite HCT, HU; reflexivity | lia |].
    rewrite Ec. cbn [bind input_array].
    set (fk0 := map (fun y => y * c) (xfftn_fwd U)).
    assert (Hk0 : length fk0 = n)
      by (unfold fk0; rewrite length_map, xfftn_fwd_length; exact HU).
    destruct (neumann_factor_length self fk0 HN Hk0 Hn3 Hfac) as [Hfl Hmean].
    set (self1 := ShenNeumannBasis.set_factor_array self fk0) in *.
    unfold sl.
    assert (Hi2 : np.indices (length fk0) (Slice (Some 2%Z) None) = (2, n - 2)%nat)
      by (rewrite Hk0; apply indices_from2; lia).
    assert (Hi0 : np.indices (length fk0) (Slice (Some 0%Z) (Some (-2)%Z)) = (0, n - 2)%nat)
      by (rewrite Hk0; apply indices_0_m2).
    assert (Hg : length (np.getslice fk0 (Slice (Some 2%Z) None)) = (n - 2)%nat)
      by (apply (getslice_length _ Hi2); lia).
    rewrite binop_same by lia. cbn [bind].
    rewrite (modslice_ok _ _ _ Hi0) by (rewrite ?zip_length; lia).
    cbn [bind].
    match goal with
    | |- context [np.setitem ?l 0 _] => set (fk1 := l)
    end.
    assert (H1 : length fk1 = n).
    { unfold fk1. rewrite splice_length; try lia.
      rewrite zip_length; rewrite (getslice_length _ Hi0) by lia;
        [reflexivity | rewrite zip_length; lia]. }
    destruct (neumann_slots fk1 (ShenNeumannBasis.mean self1 * num_pi) d)
      as (fk2 & E2 & Hr); [lia|].
    rewrite E2. cbn [bind]. rewrite H1 in Hr. cbv zeta in Hr.
    destruct Hr as (Hl & Hr0 & Hr2 & Hr1).
    eexists _, _, _. split; [reflexivity|]. cbn [output_array].
    rewrite <- Hmean. auto.
  - set (fk1 := vandermonde_scalar_product U (output_array b)).
    assert (H1 : length fk1 = n)
      by (unfold fk1; rewrite vandermonde_scalar_product_length; exact HV).
    destruct (neumann_slots fk1 (ShenNeumannBasis.mean self * num_pi) d)
      as (fk2 & E2 & Hr); [lia|].
    cbn [bind]. unfold sl. rewrite E2. cbn [bind]. rewrite H1 in Hr. cbv zeta in Hr.
    destruct Hr as (Hl & Hr0 & Hr2 & Hr1).
    eexists _, _, _. split; [reflexivity|]. cbn [output_array]. auto.
Qed.

Lemma biharmonic_factor_lengths (self : ShenBiharmonicBasis.t T) (v : list T) (n : nat) :
  SpectralBase.N (ShenBiharmonicBasis.super self) = Z.of_nat n ->
  length v = n -> (4 <= n)%nat ->
  length (ShenBiharmonicBasis._factor2 self) = length (ShenBiharmonicBasis._factor1 self) ->
  let self' := ShenBiharmonicBasis.set_factor_arrays self v in
  length (ShenBiharmonicBasis._factor1 self') = (n - 4)%nat
  /\ length (ShenBiharmonicBasis._factor2 self') = (n - 4)%nat
  /\ ShenBiharmonicBasis.slice_ self' = Slice (Some 0%Z) (Some (Z.of_nat n - 4)%Z).
Proof.
  intros HN Hv Hn Hf. unfold ShenBiharmonicBasis.set_factor_arrays.
  assert (Hs : ShenBiharmonicBasis.slice_ self = Slice (Some 0%Z) (Some (Z.of_nat n - 4)%Z))
    by (unfold ShenBiharmonicBasis.slice_; rewrite HN; reflexivity).
  assert (Hg : length (np.getslice v (ShenBiharmonicBasis.slice_ self)) = (n - 4)%nat).
  { rewrite Hs. apply (@getslice_length _ v _ 0%nat); [|lia].
    rewrite Hv. apply indices_0_to, Hn. }
  rewrite Hg.
  destruct (Nat.eqb_spec (length (ShenBiharmonicBasis._factor1 self)) (n - 4)).
  - cbv zeta. repeat split; [assumption | lia | exact Hs].
  - cbv zeta. unfold ShenBiharmonicBasis.slice_. cbn. rewrite HN.
    unfold wavenumbers. rewrite !length_map, !length_seq.
    repeat split; lia.
Qed.

Lemma biharmonic_scalar_product_slots (self : ShenBiharmonicBasis.t T)
  (input : option (list T)) (fast_transform : bool) (b : buffers T) (d : T) :
  let n := length (input_array b) in
  SpectralBase.N (ShenBiharmonicBasis.super self) = Z.of_nat n ->
  SpectralBase.N (Basis.super (ShenBiharmonicBasis.CT self)) = Z.of_nat n ->
  length (output_array b) = n ->
  (4 <= n)%nat ->
  length (ShenBiharmonicBasis._factor2 self) = length (ShenBiharmonicBasis._factor1 self) ->
  match input with Some f => length f = n | None => True end ->
  exists out self' b',
    ShenBiharmonicBasis.scalar_product xfftn_fwd vandermonde_scalar_product
      self input None fast_transform b = Ok (out, self', b')
    /\ output_array b' = out
    /\ length out = n
    /\ forall k, (n - 4 <= k < n)%nat -> nth k out d = #0.
Proof.
  intros n HN HCT HV Hn4 Hfac Hin.
  destruct (input_assigned b input Hin) as (U & EU & HU). fold n in HU.
  assert (Hfin : forall out0 : list T, length out0 = n ->
            let r := np.fill out0 (sl (Slice (Some (-4)%Z) None)) (#0) in
            length r = n /\ forall k, (n - 4 <= k < n)%nat -> nth k r d = #0).
  { intros out0 Hl. unfold sl.
    assert (Hi : np.indices (length out0) (Slice (Some (-4)%Z) None) = (n - 4, 4)%nat)
      by (rewrite Hl; apply indices_last4; lia).
    cbv zeta. split.
    - rewrite (fill_length _ _ Hi) by lia. exact Hl.
    - intros k Hk. rewrite (fill_nth _ _ _ _ Hi) by lia.
      replace (n - 4 <=? k)%nat with true by (symmetry; apply Nat.leb_le; lia).
      replace (k <? n - 4 + 4)%nat with true by (symmetry; apply Nat.ltb_lt; lia).
      reflexivity. }
  unfold ShenBiharmonicBasis.scalar_product. rewrite EU. cbn [bind].
  destruct fast_transform.
  - destruct (scalar_product_fast_buffer xfftn_fwd vandermonde_scalar_product
                (ShenBiharmonicBasis.CT self) (Buffers U (output_array b)))
      as (c & Ec); [cbn [input_array]; rewrite HCT, HU; reflexivity | lia |].
    rewrite Ec. cbn [bind input_array].
    set (out0 := map (fun y => y * c) (xfftn_fwd U)).
    assert (Hk0 : length out0 = n)
      by (unfold out0; rewrite length_map, xfftn_fwd_length; exact HU).
    rewrite assign_same by (unfold work; rewrite repeat_length; reflexivity).
    cbn [bind].
    destruct (biharmonic_factor_lengths self out0 HN Hk0 Hn4 Hfac) as (Hf1 & Hf2 & Hs).
    set (self1 := ShenBiharmonicBasis.set_factor_arrays self out0) in *.
    unfold sl. rewrite Hs.
    assert (Hi22 : np.indices (length out0) (Slice (Some 2%Z) (Some (-2)%Z)) = (2, n - 4)%nat)
      by (rewrite Hk0; apply indices_2_m2; lia).
    assert (Hi4 : np.indices (length out0) (Slice (Some 4%Z) None) = (4, n - 4)%nat)
      by (rewrite Hk0; apply indices_from4; lia).
    assert (Hi0 : np.indices (length out0) (Slice (Some 0%Z) (Some (Z.of_nat n - 4)%Z))
                  = (0, n - 4)%nat)
      by (rewrite Hk0; apply indices_0_to; lia).
    rewrite binop_same by (rewrite (getslice_length _ Hi22); lia). cbn [bind].
    rewrite (modslice_ok _ _ _ Hi0)
      by (rewrite ?zip_length; rewrite ?(getslice_length _ Hi22); lia).
    cbn [bind].
    match goal with
    | |- context [np.modslice _ ?l _ _] => set (out1 := l)
    end.
    assert (H1 : length out1 = n).
    { unfold out1. rewrite splice_length; try lia.
      rewrite zip_length; rewrite (getslice_length _ Hi0) by lia;
        [reflexivity | rewrite zip_length; rewrite ?(getslice_length _ Hi22); lia]. }
    assert (Hi0' : np.indices (length out1) (Slice (Some 0%Z) (Some (Z.of_nat n - 4)%Z))
                   = (0, n - 4)%nat)
      by (rewrite H1; apply indices_0_to; lia).
    rewrite binop_same by (rewrite (getslice_length _ Hi4); lia). cbn [bind].
    rewrite (modslice_ok _ _ _ Hi0')
      by (rewrite ?zip_length; rewrite ?(getslice_length _ Hi4); lia).
    cbn [bind].
    match goal with
    | |- context [np.fill ?l _ _] => set (out2 := l)
    end.
    assert (H2 : length out2 = n).
    { unfold out2. rewrite splice_length; try lia.
      rewrite zip_length; rewrite (getslice_length _ Hi0') by lia;
        [reflexivity | rewrite zip_length; rewrite ?(getslice_length _ Hi4); lia]. }
    destruct (Hfin out2 H2) as [Hl Hz].
    eexists _, _, _. split; [reflexivity|]. cbn [output_array]. auto.
  - cbn [bind].
    destruct (Hfin (vandermonde_scalar_product U (output_array b))) as [Hl Hz];
      [rewrite vandermonde_scalar_product_length; exact HV|].
    eexists _, _, _. split; [reflexivity|]. cbn [output_array]. auto.
Qed.

(** C7: on planned buffers of length [N], where [N >= 3], the Shen-Neumann
    [scalar_product] returns the output buffer with [mean*pi] in slot 0 and
    zero in its last two slots; where [N >= 4], the Shen-biharmonic
    [scalar_product] returns it with zero in its last four slots.  Both
    hold on the fast and on the slow path, with or without an input. *)
Theorem shen_scalar_product_slots :
  (forall (self : ShenNeumannBasis.t T) input fast_transform (b : buffers T) d,
      let n := length (input_array b) in
      SpectralBase.N (ShenNeumannBasis.super self) = Z.of_nat n ->
      SpectralBase.N (Basis.super (ShenNeumannBasis.CT self)) = Z.of_nat n ->
      length (output_array b) = n ->
      (3 <= n)%nat ->
      length (ShenNeumannBasis._factor self) = 0%nat
      \/ length (ShenNeumannBasis._factor self) = (n - 2)%nat ->
      match input with Some f => length f = n | None => True end ->
      exists fk self' b',
        ShenNeumannBasis.scalar_product xfftn_fwd vandermonde_scalar_product
          self input None fast_transform b = Ok (fk, self', b')
        /\ output_array b' = fk
        /\ length fk = n
        /\ nth 0 fk d = ShenNeumannBasis.mean self * num_pi
        /\ nth (n - 2) fk d = #0
        /\ nth (n - 1) fk d = #0)
  /\ (forall (self : ShenBiharmonicBasis.t T) input fast_transform (b : buffers T) d,
        let n := length (input_array b) in
        SpectralBase.N (ShenBiharmonicBasis.super self) = Z.of_nat n ->
        SpectralBase.N (Basis.super (ShenBiharmonicBasis.CT self)) = Z.of_nat n ->
        length (output_array b) = n ->
        (4 <= n)%nat ->
        length (ShenBiharmonicBasis._factor2 self)
        = length (ShenBiharmonicBasis._factor1 self) ->
        match input with Some f => length f = n | None => True end ->
        exists out self' b',
          ShenBiharmonicBasis.scalar_product xfftn_fwd vandermonde_scalar_product
            self input None fast_transform b = Ok (out, self', b')
          /\ output_array b' = out
          /\ length out = n
          /\ forall k, (n - 4 <= k < n)%nat -> nth k out d = #0).
Proof.
  split.
  - exact neumann_scalar_product_slots.
  - exact biharmonic_scalar_product_slots.
Qed.

End ShenScalarProducts.

(** Below the three modes that the theorem asks for, the two slots that
    [fk[-2:] = 0] clears include slot 0: with [N = 2] the coefficient
    [mean*pi] is overwritten. *)
Example neumann_two_modes :
  exists self' b',
    ShenNeumannBasis.scalar_product (fun u => u) (fun _ v => v)
      (ShenNeumannBasis.Make (SpectralBase.__init__ 2 GC (-1, 1)%float) 1%float
         (Basis.Make (SpectralBase.__init__ 2 GC (-1, 1)%float) DCT2 DCT3) [])
      (Some [1; 2]%float) None true (Buffers [0; 0]%float [0; 0]%float)
    = Ok ([0; 0]%float, self', b').
Proof. do 2 eexists. vm_compute. reflexivity. Qed.

(** ** The [scaled] argument of the Shen-Dirichlet basis *)

Section Construction.
Context {T : Type} `{Num T}.

Lemma shen_dirichlet_plan_scaled (self self' : ShenDirichletBasis.t T)
  shape axis dt opts h h' :
  ShenDirichletBasis.plan self shape axis dt opts h = Ok (self', h') ->
  ShenDirichletBasis._scaled self' = ShenDirichletBasis._scaled self.
Proof.
  unfold ShenDirichletBasis.plan, abind, ret.
  intros E. repeat break_match_hyp E; try discriminate.
  inv E. reflexivity.
Qed.

(** C10: [is_scaled()] is [False] on every Shen-Dirichlet basis; the
    constructor keeps its [scaled] argument in [_scaled], [True] included,
    and [is_scaled] does not read it. *)
Theorem is_scaled_always_false :
  (forall self : ShenDirichletBasis.t T, ShenDirichletBasis.is_scaled self = false)
  /\ (forall N quad bc plan_ domain scaled h self h',
        ShenDirichletBasis.__init__ N quad bc plan_ domain scaled h = Ok (self, h') ->
        ShenDirichletBasis._scaled self = scaled
        /\ ShenDirichletBasis.is_scaled self = false).
Proof.
  split; [reflexivity|].
  intros N quad bc plan_ domain scaled h self h'.
  unfold ShenDirichletBasis.__init__, abind, ret.
  intros E. split; [|reflexivity].
  destruct (lift _ h) as [[s h1]|]; [|discriminate].
  destruct (Basis.__init__ _ _ _ _ h1) as [[c h2]|]; [|discriminate].
  destruct plan_.
  - apply shen_dirichlet_plan_scaled in E. exact E.
  - inv E. reflexivity.
Qed.

End Construction.

(** A basis built with [scaled=True], planned, still answers [False]. *)
Lemma is_scaled_always_false_witness :
  exists self h',
    ShenDirichletBasis.__init__ 8 "GC" (0, 0)%float true (-1, 1)%float true 0%nat
    = Ok (self, h')
    /\ ShenDirichletBasis._scaled self = true
    /\ ShenDirichletBasis.is_scaled self = false.
Proof.
  destruct (ShenDirichletBasis.__init__ 8 "GC" (0, 0)%float true (-1, 1)%float true 0%nat)
    as [[self h']|e] eqn:E; [|vm_compute in E; discriminate].
  exists self, h'. split; [reflexivity|].
  exact (proj2 is_scaled_always_false 8 "GC"%string (0, 0)%float true (-1, 1)%float
           true 0%nat self h' E).
Defined.

(** ** What the constructors check *)

Section Configuration.
Context {T : Type} `{Num T} `{Pi T} `{Cos T}.
Local Open Scope num_scope.






End Configuration.



(** ** Planning *)

Lemma tuple_eqb_refl (l : list Z) : tuple_eqb l l = true.
Proof.
  induction l as [|x l IH]; [reflexivity|].
  cbn. rewrite Z.eqb_refl, IH. reflexivity.
Qed.

Section Planning.
Context {T : Type} `{Num T}.

Lemma empty_aligned_shape dims dt h (U : ndarray) h' :
  empty_aligned (ShapeTuple dims) dt h = Ok (U, h') -> arr_shape U = dims.
Proof.
  unfold empty_aligned, abind, fresh, ret, raise.
  destruct (forallb _ dims); [|discriminate].
  intros E. inv E. reflexivity.
Qed.

(** After [plan] with a tuple for [shape], the guard of [plan] holds. *)
Lemma plan_tuple_bound (fwd bck : dct_type) (self self' : SpectralBase.t T)
  dims axis dt opts h h' :
  ChebyshevBase.plan fwd bck self (ShapeTuple dims) axis dt opts h = Ok (self', h') ->
  exists a,
    first_axis axis = Ok a
    /\ already_planned self' (ShapeTuple dims) a = true.
Proof.
  unfold ChebyshevBase.plan, abind, lift.
  destruct (first_axis axis) as [a|e]; [|discriminate].
  intros E. exists a. split; [reflexivity|].
  destruct (already_planned self (ShapeTuple dims) a) eqn:G.
  - unfold ret in E. inv E. exact G.
  - unfold new_func_wrap, fresh, abind, ret in E.
    repeat break_match_hyp E; try discriminate;
      repeat match goal with
             | X : Ok _ = Ok _ |- _ => inv X
             | X : (_, _) = (_, _) |- _ => inv X
             end;
      unfold already_planned; cbn;
      match goal with
      | X : (if dtype_eqb _ _ then _ else _) _ = _ |- _ =>
          destruct (dtype_eqb dt float64);
            [inv X | repeat break_match_hyp X; try discriminate; inv X]
      end;
      match goal with
      | X : empty_aligned _ _ _ = Ok (?U, _) |- context [arr_shape ?U] =>
          rewrite (empty_aligned_shape _ _ _ X)
      end;
      rewrite tuple_eqb_refl, Z.eqb_refl; reflexivity.
Qed.

(** With an int for [shape] the guard of [plan] never holds, whatever was
    planned before. *)
Lemma plan_int_shape_not_recognised (self : SpectralBase.t T) (n a : Z) :
  already_planned self (ShapeInt n) a = false.
Proof.
  unfold already_planned. destruct (SpectralBase.forward self); reflexivity.
Qed.

(** A fresh [plan] binds the three transforms of the basis to one pair of
    arrays, the input and the output array of [xfftn_fwd]; [xfftn_bck] runs
    from the second to the first.  This is the pair that the transforms of
    a planned basis take as their [buffers]. *)
Lemma plan_binds_buffers (fwd bck : dct_type) (self self' : SpectralBase.t T)
  shape axis a dt opts h h' :
  first_axis axis = Ok a ->
  already_planned self shape a = false ->
  ChebyshevBase.plan fwd bck self shape axis dt opts h = Ok (self', h') ->
  exists f b i1 i2 i3,
    SpectralBase.xfftn_fwd self' = Some f
    /\ SpectralBase.xfftn_bck self' = Some b
    /\ transform_input b = transform_output f
    /\ transform_output b = transform_input f
    /\ SpectralBase.forward self'
       = func_wrap i1 (SpectralBase.forward self) (Some f)
           (transform_input f) (transform_output f)
    /\ SpectralBase.backward self'
       = func_wrap i2 (SpectralBase.backward self) (Some b)
           (transform_output f) (transform_input f)
    /\ SpectralBase.scalar_product self'
       = func_wrap i3 (SpectralBase.scalar_product self) (Some f)
           (transform_input f) (transform_output f).
Proof.
  intros Ha G. unfold ChebyshevBase.plan, abind, lift. rewrite Ha, G.
  unfold new_func_wrap, fresh, abind, ret. intros E.
  repeat break_match_hyp E; try discriminate.
  inv E.
  match goal with
  | X : (if dtype_eqb _ _ then _ else _) _ = _ |- _ =>
      destruct (dtype_eqb dt float64);
        [inv X | repeat break_match_hyp X; try discriminate; inv X]
  end;
    repeat match goal with
           | |- context [update_arrays ?t _ _] =>
               is_var t; destruct t; cbn [update_arrays]
           end;
    do 5 eexists; cbn; repeat split; reflexivity.
Qed.

(** A Shen basis that plans is bound to the buffers of its [CT]. *)
Lemma shen_plan_shares_buffers (self self' : SpectralBase.t T) (CT CT' : Basis.t T)
  shape axis a dt opts h h' :
  first_axis axis = Ok a ->
  already_planned self shape a = false ->
  shen_plan self CT shape axis dt opts h = Ok (self', CT', h') ->
  exists f i,
    SpectralBase.xfftn_fwd (Basis.super CT') = Some f
    /\ SpectralBase.xfftn_fwd self' = Some f
    /\ SpectralBase.scalar_product self'
       = func_wrap i (SpectralBase.scalar_product self) (Some f)
           (transform_input f) (transform_output f).
Proof.
  intros Ha G. unfold shen_plan, abind, lift. rewrite Ha, G.
  unfold new_func_wrap, fresh, abind, ret. intros E.
  repeat break_match_hyp E; try discriminate.
  inv E.
  destruct (SpectralBase.xfftn_fwd (Basis.super CT')) as [f|] eqn:F; [|discriminate].
  match goal with X : Ok (f, _) = Ok _ |- _ => inv X end.
  do 2 eexists. cbn. repeat split; reflexivity.
Qed.

(** With a tuple for [shape], a second [plan] with the arguments of the
    first is a no-op: the basis and the allocation counter are as they
    were.  This is the guard that the code marks "Already planned". *)
Lemma plan_tuple_idempotent (self self' : Basis.t T) dims axis dt opts h h' :
  Basis.plan self (ShapeTuple dims) axis dt opts h = Ok (self', h') ->
  Basis.plan self' (ShapeTuple dims) axis dt opts h' = Ok (self', h').
Proof.
  unfold Basis.plan, abind, ret. intros E.
  destruct (ChebyshevBase.plan _ _ _ _ _ _ _ h) as [[s h1]|e] eqn:P; [|discriminate].
  inv E. cbn [Basis.super Basis._xfftn_fwd Basis._xfftn_bck].
  destruct (plan_tuple_bound _ _ _ _ _ _ _ _ P) as (a & Ha & G).
  unfold ChebyshevBase.plan, abind, lift, ret. rewrite Ha, G. reflexivity.
Qed.

End Planning.

(** C4 fails where [shape] is an int, which is how the constructors call
    [plan]: [Basis(8, 'GC', plan=True)] has called [plan(8, 0, float, {})],
    and the same call again allocates new buffers (0 and 1 become 8 and 9)
    and new callables, since the tuple [forward.input_array.shape] never
    equals the int. *)
Theorem plan_int_shape_reallocates :
  exists b1 h1 b2 h2 w1 x1 u1 v1 w2 x2 u2 v2,
    Basis.__init__ (T:=float) 8 "GC" true (-1, 1)%float 0%nat = Ok (b1, h1)
    /\ Basis.plan b1 (ShapeInt 8) (AxisInt 0) float64 [] h1 = Ok (b2, h2)
    /\ SpectralBase.forward (Basis.super b1) = func_wrap w1 (Method m_forward) x1 u1 v1
    /\ SpectralBase.forward (Basis.super b2)
       = func_wrap w2 (SpectralBase.forward (Basis.super b1)) x2 u2 v2
    /\ (arr_id u1, arr_id v1) = (0, 1)%nat
    /\ (arr_id u2, arr_id v2) = (8, 9)%nat
    /\ w1 <> w2
    /\ h1 <> h2.
Proof.
  do 12 eexists.
  split; [vm_compute; reflexivity|].
  split; [vm_compute; reflexivity|].
  split; [cbn; reflexivity|].
  split; [cbn; reflexivity|].
  split; [reflexivity|].
  split; [reflexivity|].
  split; discriminate.
Qed.

(** The same happens inside [ShenDirichletBasis(8, 'GC', plan=True)]: the
    constructor plans [CT] when it builds it, and plans it again, with the
    same arguments, through its own [plan]: the buffers that the basis ends
    up bound to are those of the second planning of [CT]. *)
Example dirichlet_constructor_plans_twice :
  exists b h i f x u v,
    ShenDirichletBasis.__init__ (T:=float) 8 "GC" (0, 0)%float true (-1, 1)%float false 0%nat
    = Ok (b, h)
    /\ SpectralBase.forward (Basis.super (ShenDirichletBasis.CT b)) = func_wrap i f x u v
    /\ f <> Method m_forward
    /\ (arr_id u, arr_id v) = (8, 9)%nat.
Proof.
  do 7 eexists.
  split; [vm_compute; reflexivity|].
  split; [cbn; reflexivity|].
  split; [discriminate | reflexivity].
Qed.

(** With the tuple [(8,)] the second call changes nothing. *)
Example plan_tuple_shape_once :
  exists b h,
    (b <~ Basis.__init__ (T:=float) 8 "GC" false (-1, 1)%float ;;
     Basis.plan b (ShapeTuple [8]) (AxisInt 0) float64 []) 0%nat = Ok (b, h)
    /\ Basis.plan b (ShapeTuple [8]) (AxisInt 0) float64 [] h = Ok (b, h).
Proof.
  match goal with
  | |- exists b h, ?m = _ /\ _ => destruct m as [[b h]|e] eqn:E; [|vm_compute in E; discriminate]
  end.
  exists b, h. split; [reflexivity|].
  unfold abind in E.
  destruct (Basis.__init__ _ _ _ _ _) as [[b0 h0]|]; [|discriminate].
  apply plan_tuple_idempotent in E. exact E.
Qed.

(** ** The theorems at concrete bases *)

Lemma apply_inverse_mass_entries_witness :
  exists r,
    Basis.apply_inverse_mass
      (Basis.Make (SpectralBase.__init__ 3 GL (-1, 1)%float) DCT1 DCT1)
      [1; 2; 3]%float = Ok r
    /\ length r = 3%nat
    /\ forall k, (k < 3)%nat ->
         nth k r 0%float =
           let y := (nth k [1; 2; 3]%float 0%float * (#2 / num_pi))%num in
           let y := if (k =? 0)%nat then (y / #2)%num else y in
           if (S k =? 3)%nat then (y / #2)%num else y.
Proof.
  apply (apply_inverse_mass_entries
           (Basis.Make (SpectralBase.__init__ 3 GL (-1, 1)%float) DCT1 DCT1)
           (array:=[1; 2; 3]%float) 0%float).
  discriminate.
Defined.

Lemma scalar_product_fast_scaling_witness :
  Basis.scalar_product (fftw.dct DCT2) (fun _ v => v)
    (Basis.Make (SpectralBase.__init__ 4 GC (-1, 1)%R) DCT2 DCT3)
    (Some [1; 2; 3; 4]%R) None true (Buffers [0; 0; 0; 0]%R [0; 0; 0; 0]%R)
  = let out := map (fun y => (y * (PI / 8))%R) (fftw.dct DCT2 [1; 2; 3; 4]%R) in
    Ok (out, Buffers [1; 2; 3; 4]%R out).
Proof.
  refine (scalar_product_fast_scaling (fftw.dct DCT2) (fun _ v => v)
            (Basis.Make (SpectralBase.__init__ 4 GC (-1, 1)%R) DCT2 DCT3)
            [1; 2; 3; 4]%R (Buffers [0; 0; 0; 0]%R [0; 0; 0; 0]%R) _ _ _).
  - reflexivity.
  - reflexivity.
  - cbn. lia.
Defined.

Lemma get_vandermonde_basis_columns_witness :
  exists P,
    ShenDirichletBasis.get_vandermonde_basis
      (Matrix 4 [[1; 2; 7; 17]; [1; -1; 1; -1]]%float) = Ok P
    /\ rows P = [[-6; -15; 1.5; -0.5]; [0; 0; 0; 1]]%float.
Proof.
  destruct (get_vandermonde_basis_columns
              (V:=Matrix 4 [[1; 2; 7; 17]; [1; -1; 1; -1]]%float) 0%float)
    as (P & E & _).
  - repeat constructor.
  - cbn. lia.
  - exists P. split; [exact E|].
    vm_compute in E. inv E. reflexivity.
Defined.

Lemma dct_length (t : dct_type) (u : list R) : length (fftw.dct t u) = length u.
Proof. unfold fftw.dct. rewrite length_map, length_seq. reflexivity. Qed.

Lemma shen_scalar_product_slots_witness :
  (exists fk self' b',
      ShenNeumannBasis.scalar_product (fftw.dct DCT2) (fun _ v => v)
        (ShenNeumannBasis.Make (SpectralBase.__init__ 4 GC (-1, 1)%R) 2%R
           (Basis.Make (SpectralBase.__init__ 4 GC (-1, 1)%R) DCT2 DCT3) [])
        None None true (Buffers [1; 2; 3; 4]%R [0; 0; 0; 0]%R) = Ok (fk, self', b')
      /\ nth 0 fk 0%R = (2 * PI)%R /\ nth 2 fk 0%R = 0%R /\ nth 3 fk 0%R = 0%R)
  /\ (exists out self' b',
        ShenBiharmonicBasis.scalar_product (fftw.dct DCT2) (fun _ v => v)
          (ShenBiharmonicBasis.Make (SpectralBase.__init__ 6 GC (-1, 1)%R)
             (Basis.Make (SpectralBase.__init__ 6 GC (-1, 1)%R) DCT2 DCT3) [] [])
          None None true (Buffers [1; 2; 3; 4; 5; 6]%R [0; 0; 0; 0; 0; 0]%R)
        = Ok (out, self', b')
        /\ forall k, (2 <= k < 6)%nat -> nth k out 0%R = 0%R).
Proof.
  pose proof (@shen_scalar_product_slots R _ _ (fftw.dct DCT2) (fun _ v => v)
                (dct_length DCT2) (fun _ _ => eq_refl)) as [Hn Hb].
  split.
  - destruct (Hn (ShenNeumannBasis.Make (SpectralBase.__init__ 4 GC (-1, 1)%R) 2%R
                    (Basis.Make (SpectralBase.__init__ 4 GC (-1, 1)%R) DCT2 DCT3) [])
                None true (Buffers [1; 2; 3; 4]%R [0; 0; 0; 0]%R) 0%R)
      as (fk & s & b & E & _ & _ & H0 & H2 & H3);
      try reflexivity; [cbn; lia | left; reflexivity |].
    exists fk, s, b. auto.
  - destruct (Hb (ShenBiharmonicBasis.Make (SpectralBase.__init__ 6 GC (-1, 1)%R)
                    (Basis.Make (SpectralBase.__init__ 6 GC (-1, 1)%R) DCT2 DCT3) [] [])
                None true (Buffers [1; 2; 3; 4; 5; 6]%R [0; 0; 0; 0; 0; 0]%R) 0%R)
      as (out & s & b & E & _ & _ & Hz);
      try reflexivity; [cbn; lia |].
    exists out, s, b. auto.
Defined.

(** * Further properties *)

(** ** Planning, once more *)

Section PlanningGuard.
Context {T : Type} `{Num T}.

(** The guard of [plan] looks at the shape and the axis only: after [plan]
    with a tuple for [shape], a later [plan] with that shape and axis is a
    no-op whatever [dtype] and [options] it is given.  A basis planned for
    real data is not planned anew for complex data. *)
Theorem plan_guard_ignores_dtype (self self' : Basis.t T) dims axis dt opts h h' :
  Basis.plan self (ShapeTuple dims) axis dt opts h = Ok (self', h') ->
  forall dt' opts' h'',
    Basis.plan self' (ShapeTuple dims) axis dt' opts' h'' = Ok (self', h'').
Proof.
  unfold Basis.plan, abind, ret. intros E dt' opts' h''.
  destruct (ChebyshevBase.plan _ _ _ _ _ _ _ h) as [[s h1]|e] eqn:P; [|discriminate].
  inv E. cbn [Basis.super Basis._xfftn_fwd Basis._xfftn_bck].
  destruct (plan_tuple_bound _ _ _ _ _ _ _ _ P) as (a & Ha & G).
  unfold ChebyshevBase.plan, abind, lift, ret. rewrite Ha, G. reflexivity.
Qed.

Lemma init_wraps_provider N (quad : quadrature) (domain : T * T) :
  wraps_provider (SpectralBase.__init__ N quad domain).
Proof. exact I. Qed.

Lemma plan_wraps_provider (fwd bck : dct_type) (self self' : SpectralBase.t T)
  shape axis dt opts h h' :
  wraps_provider self ->
  ChebyshevBase.plan fwd bck self shape axis dt opts h = Ok (self', h') ->
  wraps_provider self'.
Proof.
  intros W E.
  destruct (first_axis axis) as [a|e] eqn:Ha;
    [|unfold ChebyshevBase.plan, abind, lift in E; rewrite Ha in E; discriminate].
  destruct (already_planned self shape a) eqn:G.
  - unfold ChebyshevBase.plan, abind, lift, ret in E. rewrite Ha, G in E.
    inv E. exact W.
  - edestruct (@plan_binds_buffers T)
      as (f & b & i1 & i2 & i3 & Hf & _ & _ & _ & Hfw & _);
      [exact Ha | exact G | exact E |].
    unfold wraps_provider. rewrite Hfw, Hf. split; [reflexivity|].
    exists f. split; reflexivity.
Qed.

Lemma basis_init_wraps_provider N quad plan_ (domain : T * T) h (b : Basis.t T) h' :
  Basis.__init__ N quad plan_ domain h = Ok (b, h') ->
  wraps_provider (Basis.super b).
Proof.
  unfold Basis.__init__, abind, lift, ChebyshevBase.__init__, bind, assert.
  destruct (String.eqb quad "GC" || String.eqb quad "GL"); [|discriminate].
  destruct plan_.
  - unfold Basis.plan, abind, ret. intros E.
    destruct (ChebyshevBase.plan _ _ _ _ _ _ _ h) as [[s h1]|] eqn:P; [|discriminate].
    inv E. eapply plan_wraps_provider; [|eassumption].
    destruct (String.eqb quad "GC"); exact I.
  - unfold ret. intros E. inv E. destruct (String.eqb quad "GC"); exact I.
Qed.

Lemma basis_plan_wraps_provider (b b' : Basis.t T) shape axis dt opts h h' :
  wraps_provider (Basis.super b) ->
  Basis.plan b shape axis dt opts h = Ok (b', h') ->
  wraps_provider (Basis.super b').
Proof.
  unfold Basis.plan, abind, ret. intros W E.
  destruct (ChebyshevBase.plan _ _ _ _ _ _ _ h) as [[s h1]|] eqn:P; [|discriminate].
  inv E. eapply plan_wraps_provider; eassumption.
Qed.

(** The [plan] of a Shen basis whose [CT] is as [plan] leaves it: with a
    tuple for [shape], a later [plan] with that shape and axis changes
    neither the basis, nor its [CT], nor the allocation counter. *)
Lemma shen_plan_tuple_idempotent (self self' : SpectralBase.t T) (CT CT' : Basis.t T)
  dims axis dt opts h h' :
  wraps_provider (Basis.super CT) ->
  shen_plan self CT (ShapeTuple dims) axis dt opts h = Ok (self', CT', h') ->
  wraps_provider (Basis.super CT')
  /\ forall dt' opts' h'',
       shen_plan self' CT' (ShapeTuple dims) axis dt' opts' h''
       = Ok (self', CT', h'').
Proof.
  intros W E.
  destruct (first_axis axis) as [a|e] eqn:Ha;
    [|unfold shen_plan, abind, lift in E; rewrite Ha in E; discriminate].
  destruct (already_planned self (ShapeTuple dims) a) eqn:G.
  - unfold shen_plan, abind, lift, ret in E. rewrite Ha, G in E. inv E.
    split; [exact W|]. intros dt' opts' h''.
    unfold shen_plan, abind, lift, ret. rewrite Ha, G. reflexivity.
  - assert (E' := E).
    unfold shen_plan, abind, lift in E'. rewrite Ha, G in E'.
    destruct (Basis.plan CT (ShapeTuple dims) (AxisInt a) dt opts h)
      as [[c h1]|e] eqn:P; [|discriminate].
    assert (W' : wraps_provider (Basis.super c))
      by (eapply basis_plan_wraps_provider; eassumption).
    edestruct (@shen_plan_shares_buffers T) as (f & i & Hc & Hs & Hsp);
      [exact Ha | exact G | exact E |].
    assert (c = CT').
    { unfold new_func_wrap, fresh, abind, ret in E'.
      repeat break_match_hyp E'; try discriminate. inv E'. reflexivity. }
    subst c. split; [exact W'|]. intros dt' opts' h''.
    assert (G' : already_planned self' (ShapeTuple dims) a = true).
    { unfold Basis.plan, abind, ret in P.
      destruct (ChebyshevBase.plan _ _ _ _ _ _ _ h) as [[s h2]|e] eqn:P'; [|discriminate].
      inv P. cbn [Basis.super] in *.
      destruct (plan_tuple_bound _ _ _ _ _ _ _ _ P') as (a' & Ha' & G').
      cbn in Ha'. inv Ha'.
      unfold new_func_wrap, fresh, abind, ret in E'.
      rewrite Hc in E'. cbn in E'. inv E'.
      unfold already_planned in *. cbn.
      unfold wraps_provider in W'.
      destruct (SpectralBase.forward s) as [m|j g x inp out]; [discriminate|].
      destruct W' as (Hx & f' & Hf' & Hinp). rewrite Hx, Hc in Hf'. inv Hf'.
      exact G'. }
    unfold shen_plan, abind, lift, ret. rewrite Ha, G'. reflexivity.
Qed.

(** The same for the three Shen bases as their constructors build them. *)
Theorem shen_plan_idempotent :
  (forall N quad bc plan_ (domain : T * T) scaled h0 b0 h dims axis dt opts b h',
      ShenDirichletBasis.__init__ N quad bc plan_ domain scaled h0 = Ok (b0, h) ->
      ShenDirichletBasis.plan b0 (ShapeTuple dims) axis dt opts h = Ok (b, h') ->
      forall dt' opts' h'',
        ShenDirichletBasis.plan b (ShapeTuple dims) axis dt' opts' h'' = Ok (b, h''))
  /\ (forall N quad mean plan_ (domain : T * T) h0 b0 h dims axis dt opts b h',
        ShenNeumannBasis.__init__ N quad mean plan_ domain h0 = Ok (b0, h) ->
        ShenNeumannBasis.plan b0 (ShapeTuple dims) axis dt opts h = Ok (b, h') ->
        forall dt' opts' h'',
          ShenNeumannBasis.plan b (ShapeTuple dims) axis dt' opts' h'' = Ok (b, h''))
  /\ (forall N quad plan_ h0 (b0 : ShenBiharmonicBasis.t T) h dims axis dt opts b h',
        ShenBiharmonicBasis.__init__ N quad plan_ h0 = Ok (b0, h) ->
        ShenBiharmonicBasis.plan b0 (ShapeTuple dims) axis dt opts h = Ok (b, h') ->
        forall dt' opts' h'',
          ShenBiharmonicBasis.plan b (ShapeTuple dims) axis dt' opts' h'' = Ok (b, h'')).
Proof.
  assert (Hct : forall (s : SpectralBase.t T) (c : Basis.t T) shape axis dt opts h s' c' h',
             wraps_provider (Basis.super c) ->
             shen_plan s c shape axis dt opts h = Ok (s', c', h') ->
             wraps_provider (Basis.super c')).
  { intros s c shape axis dt opts h s' c' h' W E.
    unfold shen_plan, abind, lift, new_func_wrap, fresh, ret in E.
    repeat break_match_hyp E; try discriminate; inv E;
      try assumption; eapply basis_plan_wraps_provider; eassumption. }
  split; [|split].
  - intros N quad bc plan_ domain scaled h0 b0 h dims axis dt opts b h' I P dt' opts' h''.
    assert (W : wraps_provider (Basis.super (ShenDirichletBasis.CT b0))).
    { unfold ShenDirichletBasis.__init__, abind, ret in I.
      destruct (lift _ h0) as [[s h1]|]; [|discriminate].
      destruct (Basis.__init__ N quad plan_ _ h1) as [[c h2]|] eqn:Ic; [|discriminate].
      apply basis_init_wraps_provider in Ic.
      destruct plan_.
      - unfold ShenDirichletBasis.plan, abind, ret in I.
        cbn [ShenDirichletBasis.super ShenDirichletBasis.CT] in I.
        destruct (shen_plan _ _ _ _ _ _ _) as [[[s' c'] h3]|] eqn:Q; [|discriminate].
        inv I. cbn. eapply Hct; eassumption.
      - inv I. exact Ic. }
    unfold ShenDirichletBasis.plan, abind, ret in *.
    destruct (shen_plan _ _ _ _ _ _ h) as [[[s' c'] h3]|] eqn:Q; [|discriminate].
    inv P. cbn. edestruct shen_plan_tuple_idempotent as [_ R]; [exact W | exact Q |].
    rewrite R. reflexivity.
  - intros N quad mean plan_ domain h0 b0 h dims axis dt opts b h' I P dt' opts' h''.
    assert (W : wraps_provider (Basis.super (ShenNeumannBasis.CT b0))).
    { unfold ShenNeumannBasis.__init__, abind, ret in I.
      destruct (lift _ h0) as [[s h1]|]; [|discriminate].
      destruct (Basis.__init__ N quad false _ h1) as [[c h2]|] eqn:Ic; [|discriminate].
      apply basis_init_wraps_provider in Ic.
      destruct plan_.
      - unfold ShenNeumannBasis.plan, abind, ret in I.
        cbn [ShenNeumannBasis.super ShenNeumannBasis.CT] in I.
        destruct (shen_plan _ _ _ _ _ _ _) as [[[s' c'] h3]|] eqn:Q; [|discriminate].
        inv I. cbn. eapply Hct; eassumption.
      - inv I. exact Ic. }
    unfold ShenNeumannBasis.plan, abind, ret in *.
    destruct (shen_plan _ _ _ _ _ _ h) as [[[s' c'] h3]|] eqn:Q; [|discriminate].
    inv P. cbn. edestruct shen_plan_tuple_idempotent as [_ R]; [exact W | exact Q |].
    rewrite R. reflexivity.
  - intros N quad plan_ h0 b0 h dims axis dt opts b h' I P dt' opts' h''.
    assert (W : wraps_provider (Basis.super (ShenBiharmonicBasis.CT b0))).
    { unfold ShenBiharmonicBasis.__init__, abind, ret in I.
      destruct (lift _ h0) as [[s h1]|]; [|discriminate].
      destruct (Basis.__init__ N quad false _ h1) as [[c h2]|] eqn:Ic; [|discriminate].
      apply basis_init_wraps_provider in Ic.
      destruct plan_.
      - unfold ShenBiharmonicBasis.plan, abind, ret in I.
        cbn [ShenBiharmonicBasis.super ShenBiharmonicBasis.CT] in I.
        destruct (shen_plan _ _ _ _ _ _ _) as [[[s' c'] h3]|] eqn:Q; [|discriminate].
        inv I. cbn. eapply Hct; eassumption.
      - inv I. exact Ic. }
    unfold ShenBiharmonicBasis.plan, abind, ret in *.
    destruct (shen_plan _ _ _ _ _ _ h) as [[[s' c'] h3]|] eqn:Q; [|discriminate].
    inv P. cbn. edestruct shen_plan_tuple_idempotent as [_ R]; [exact W | exact Q |].
    rewrite R. reflexivity.
Qed.

End PlanningGuard.

(** ** The recombinations of the fast scalar products *)

Section Recombination.
Context {T : Type} `{Num T} `{Pi T}.
Variable xfftn_fwd : list T -> list T.
Variable vandermonde_scalar_product : list T -> list T -> list T.
Local Open Scope num_scope.

Hypothesis xfftn_fwd_length : forall u, length (xfftn_fwd u) = length u.

(** The factor that the plain scalar product scales the transform by. *)
Let scale (self : Basis.t T) : T :=
  match SpectralBase.quad (Basis.super self) with
  | GC => num_pi / #(2 * SpectralBase.N (Basis.super self))
  | GL => num_pi / #(2 * (SpectralBase.N (Basis.super self) - 1))
  end.

Lemma plain_scalar_product_buffer (self : Basis.t T) (U V : list T) :
  SpectralBase.N (Basis.super self) = Z.of_nat (length U) ->
  (2 <= length U)%nat ->
  Basis.scalar_product xfftn_fwd vandermonde_scalar_product self None None true
    (Buffers U V)
  = Ok (map (fun y => y * scale self) (xfftn_fwd U),
        Buffers U (map (fun y => y * scale self) (xfftn_fwd U))).
Proof.
  intros HN H2. unfold Basis.scalar_product, scale. cbn [bind input_array].
  rewrite HN, Z.eqb_refl. cbn [assert bind]. unfold pydiv.
  destruct (SpectralBase.quad (Basis.super self)).
  - replace (2 * _ =? 0)%Z with false by (symmetry; apply Z.eqb_neq; lia).
    reflexivity.
  - replace (2 * _ =? 0)%Z with false by (symmetry; apply Z.eqb_neq; lia).
    reflexivity.
Qed.

(** The Shen-Dirichlet scalar product on its fast path: with [p] the plain
    scalar product of the input, entry [k < N-2] of the result is
    [p[k] - p[k+2]], entry [N-2] is [0.5*(p[0] + p[1])] and entry [N-1] is
    [0.5*(p[0] - p[1])]; the recombination of [get_vandermonde_basis], in
    coefficient space. *)
Theorem dirichlet_scalar_product_entries (self : ShenDirichletBasis.t T)
  (input : option (list T)) (b : buffers T) (d : T) :
  let n := length (input_array b) in
  SpectralBase.N (Basis.super (ShenDirichletBasis.CT self)) = Z.of_nat n ->
  (2 <= n)%nat ->
  match input with Some f => length f = n | None => True end ->
  exists p out b1 b2,
    Basis.scalar_product xfftn_fwd vandermonde_scalar_product
      (ShenDirichletBasis.CT self) input None true b = Ok (p, b1)
    /\ ShenDirichletBasis.scalar_product xfftn_fwd vandermonde_scalar_product
         self input None true b = Ok (out, b2)
    /\ output_array b2 = out
    /\ length out = n
    /\ (forall k, (k + 2 < n)%nat -> nth k out d = nth k p d - nth (k + 2) p d)
    /\ nth (n - 2) out d = num_half * (nth 0 p d + nth 1 p d)
    /\ nth (n - 1) out d = num_half * (nth 0 p d - nth 1 p d).
Proof.
  intros n HCT Hn Hin.
  assert (HU : exists U,
             match input with
             | Some f => np.assign (input_array b) f
             | None => Ok (input_array b)
             end = Ok U /\ length U = n).
  { destruct input as [f|].
    - exists f. split; [apply assign_same, Hin | exact Hin].
    - exists (input_array b). split; reflexivity. }
  destruct HU as (U & EU & HU).
  set (p := map (fun y => y * scale (ShenDirichletBasis.CT self)) (xfftn_fwd U)).
  assert (Hp : length p = n)
    by (unfold p; rewrite length_map, xfftn_fwd_length; exact HU).
  assert (Eplain : Basis.scalar_product xfftn_fwd vandermonde_scalar_product
                     (ShenDirichletBasis.CT self) input None true b
                   = Ok (p, Buffers U p)).
  { pose proof (plain_scalar_product_buffer (ShenDirichletBasis.CT self) U
                  (output_array b)) as E.
    rewrite HU in E. specialize (E HCT Hn).
    unfold Basis.scalar_product in *. rewrite EU. cbn [bind input_array] in *.
    exact E. }
  exists p.
  unfold ShenDirichletBasis.scalar_product. rewrite EU. cbn [bind].
  rewrite plain_scalar_product_buffer by (rewrite ?HU; assumption).
  fold p. cbn [bind]. unfold sl, np.getitem.
  rewrite Hp, !index_nonneg by lia. cbn [bind Z.to_nat Pos.to_nat Pos.iter_op Nat.add].
  rewrite (nth_error_nth' p d) by lia. cbn [bind].
  rewrite (nth_error_nth' p d) by lia. cbn [bind].
  assert (Hi0 : np.indices (length p) (Slice (Some 0%Z) (Some (-2)%Z)) = (0, n - 2)%nat)
    by (rewrite Hp; apply indices_0_m2).
  assert (Hi2 : np.indices (length p) (Slice (Some 2%Z) None) = (2, n - 2)%nat)
    by (rewrite Hp; apply indices_from2; lia).
  assert (Hg0 : length (np.getslice p (Slice (Some 0%Z) (Some (-2)%Z))) = (n - 2)%nat)
    by (apply (getslice_length _ Hi0); lia).
  assert (Hg2 : length (np.getslice p (Slice (Some 2%Z) None)) = (n - 2)%nat)
    by (apply (getslice_length _ Hi2); lia).
  rewrite (modslice_ok _ _ _ Hi0) by lia. cbn [bind].
  match goal with
  | |- context [np.setitem ?l (-2) _] => set (q1 := l)
  end.
  assert (Hq1 : length q1 = n).
  { unfold q1. rewrite splice_length; try lia. rewrite zip_length; lia. }
  rewrite (@setitem_ok _ q1 (-2)%Z (n - 2)%nat)
    by (rewrite Hq1, index_neg by lia; f_equal; lia).
  cbn [bind].
  match goal with
  | |- context [np.setitem ?l (-1) _] => set (q2 := l)
  end.
  assert (Hq2 : length q2 = n) by (unfold q2; rewrite update_length; lia).
  rewrite (@setitem_ok _ q2 (-1)%Z (n - 1)%nat)
    by (rewrite Hq2, index_neg by lia; f_equal; lia).
  cbn [bind].
  eexists _, _, _. split; [exact Eplain|]. split; [reflexivity|].
  cbn [output_array]. split; [reflexivity|].
  split; [rewrite update_length; lia|].
  split; [|split].
  - intros k Hk. rewrite update_nth by lia.
    replace (k =? n - 1)%nat with false by (symmetry; apply Nat.eqb_neq; lia).
    unfold q2. rewrite update_nth by lia.
    replace (k =? n - 2)%nat with false by (symmetry; apply Nat.eqb_neq; lia).
    unfold q1. rewrite (@splice_nth _ p 0 (n - 2)) by (rewrite ?zip_length; lia).
    replace (k <? 0)%nat with false by reflexivity.
    replace (k <? 0 + (n - 2))%nat with true by (symmetry; apply Nat.ltb_lt; lia).
    rewrite Nat.sub_0_r, zip_nth by lia.
    rewrite (getslice_nth _ d Hi0), (getslice_nth _ d Hi2) by lia.
    f_equal. f_equal. lia.
  - rewrite update_nth by lia.
    replace (n - 2 =? n - 1)%nat with false by (symmetry; apply Nat.eqb_neq; lia).
    unfold q2. rewrite update_nth by lia. rewrite Nat.eqb_refl. reflexivity.
  - rewrite update_nth by lia. rewrite Nat.eqb_refl. reflexivity.
Qed.

Lemma wavenumbers_nth (N rows' : Z) (k : nat) (d : T) :
  (k < Z.to_nat (N - rows'))%nat ->
  nth k (wavenumbers N rows') d = #(Z.of_nat k).
Proof.
  intros Hk. unfold wavenumbers.
  rewrite (map_nth_lt _ _ 0%nat) by (rewrite length_seq; exact Hk).
  rewrite seq_nth by exact Hk. reflexivity.
Qed.

Lemma wavenumbers_length (N rows' : Z) :
  length (wavenumbers (T:=T) N rows') = Z.to_nat (N - rows').
Proof. unfold wavenumbers. rewrite length_map, length_seq. reflexivity. Qed.

(** The Shen-Neumann scalar product on its fast path: with [p] the plain
    scalar product of the input, entry [k] of the result, for
    [1 <= k < N-2], is [p[k] - (k/(k+2))**2 * p[k+2]]; entry 0 is [mean*pi]
    and the last two entries are zero. *)
Theorem neumann_scalar_product_entries (self : ShenNeumannBasis.t T)
  (input : option (list T)) (b : buffers T) (d : T) :
  let n := length (input_array b) in
  SpectralBase.N (ShenNeumannBasis.super self) = Z.of_nat n ->
  SpectralBase.N (Basis.super (ShenNeumannBasis.CT self)) = Z.of_nat n ->
  (3 <= n)%nat ->
  length (ShenNeumannBasis._factor self) <> n ->
  match input with Some f => length f = n | None => True end ->
  exists p out self' b1 b2,
    Basis.scalar_product xfftn_fwd vandermonde_scalar_product
      (ShenNeumannBasis.CT self) input None true b = Ok (p, b1)
    /\ ShenNeumannBasis.scalar_product xfftn_fwd vandermonde_scalar_product
         self input None true b = Ok (out, self', b2)
    /\ length out = n
    /\ nth 0 out d = ShenNeumannBasis.mean self * num_pi
    /\ (forall k, (1 <= k)%nat -> (k + 2 < n)%nat ->
          nth k out d =
            nth k p d
            - (let q := #(Z.of_nat k) / (#(Z.of_nat k) + #2) in q * q)
              * nth (k + 2) p d)
    /\ nth (n - 2) out d = #0
    /\ nth (n - 1) out d = #0.
Proof.
  intros n HN HCT Hn Hfac Hin.
  assert (HU : exists U,
             match input with
             | Some f => np.assign (input_array b) f
             | None => Ok (input_array b)
             end = Ok U /\ length U = n).
  { destruct input as [f|].
    - exists f. split; [apply assign_same, Hin | exact Hin].
    - exists (input_array b). split; reflexivity. }
  destruct HU as (U & EU & HU).
  set (p := map (fun y => y * scale (ShenNeumannBasis.CT self)) (xfftn_fwd U)).
  assert (Hp : length p = n)
    by (unfold p; rewrite length_map, xfftn_fwd_length; exact HU).
  assert (Eplain : Basis.scalar_product xfftn_fwd vandermonde_scalar_product
                     (ShenNeumannBasis.CT self) input None true b
                   = Ok (p, Buffers U p)).
  { pose proof (plain_scalar_product_buffer (ShenNeumannBasis.CT self) U
                  (output_array b)) as E.
    rewrite HU in E. specialize (E HCT ltac:(lia)).
    unfold Basis.scalar_product in *. rewrite EU. cbn [bind input_array] in *.
    exact E. }
  exists p.
  unfold ShenNeumannBasis.scalar_product. rewrite EU. cbn [bind].
  rewrite plain_scalar_product_buffer by (rewrite ?HU; try assumption; lia).
  fold p. cbn [bind]. unfold sl.
  unfold ShenNeumannBasis.set_factor_array.
  replace (length (ShenNeumannBasis._factor self) =? length p)%nat with false
    by (symmetry; apply Nat.eqb_neq; rewrite Hp; exact Hfac).
  cbn [ShenNeumannBasis._factor ShenNeumannBasis.mean].
  set (fac := map (fun k : T => let q := k / (k + #2) in q * q)
                (wavenumbers (SpectralBase.N (ShenNeumannBasis.super self)) 2)).
  assert (Hfl : length fac = (n - 2)%nat)
    by (unfold fac; rewrite length_map, wavenumbers_length, HN; lia).
  assert (Hi0 : np.indices (length p) (Slice (Some 0%Z) (Some (-2)%Z)) = (0, n - 2)%nat)
    by (rewrite Hp; apply indices_0_m2).
  assert (Hi2 : np.indices (length p) (Slice (Some 2%Z) None) = (2, n - 2)%nat)
    by (rewrite Hp; apply indices_from2; lia).
  assert (Hg0 : length (np.getslice p (Slice (Some 0%Z) (Some (-2)%Z))) = (n - 2)%nat)
    by (apply (getslice_length _ Hi0); lia).
  assert (Hg2 : length (np.getslice p (Slice (Some 2%Z) None)) = (n - 2)%nat)
    by (apply (getslice_length _ Hi2); lia).
  assert (Hzm : length (np.zip num_mul fac (np.getslice p (Slice (Some 2%Z) None)))
                = (n - 2)%nat) by (rewrite zip_length; lia).
  assert (Hzs : length (np.zip num_sub (np.getslice p (Slice (Some 0%Z) (Some (-2)%Z)))
                          (np.zip num_mul fac (np.getslice p (Slice (Some 2%Z) None))))
                = (n - 2)%nat) by (rewrite zip_length; lia).
  rewrite binop_same by lia. cbn [bind].
  rewrite (modslice_ok _ _ _ Hi0) by lia.
  cbn [bind].
  match goal with
  | |- context [np.setitem ?l 0 _] => set (fk1 := l)
  end.
  assert (H1 : length fk1 = n).
  { unfold fk1. rewrite splice_length; lia. }
  cbn [ShenNeumannBasis.mean].
  destruct (neumann_slots fk1 (ShenNeumannBasis.mean self * num_pi) d)
    as (fk2 & E2 & Hr); [lia|].
  rewrite E2. cbn [bind]. rewrite H1 in Hr. cbv zeta in Hr.
  destruct Hr as (Hl & Hr0 & Hr2 & Hr1).
  eexists _, _, _, _. split; [exact Eplain|]. split; [reflexivity|].
  split; [exact Hl|]. split; [exact Hr0|]. split; [|split; assumption].
  intros k Hk1 Hk2.
  assert (Efk2 : fk2 = np.update fk1 0 (ShenNeumannBasis.mean self * num_pi)).
  { rewrite (@setitem_ok _ fk1 0%Z 0%nat) in E2 by (apply index_nonneg; lia).
    inv E2. reflexivity. }
  assert (H2 : length fk2 = n) by (rewrite Efk2, update_length; lia).
  assert (Hil : np.indices (length fk2) (Slice (Some (-2)%Z) None) = (n - 2, 2)%nat)
    by (rewrite H2; apply indices_last2; lia).
  rewrite (fill_nth _ _ _ _ Hil) by lia.
  replace (k <? n - 2 + 2)%nat with true by (symmetry; apply Nat.ltb_lt; lia).
  replace (n - 2 <=? k)%nat with false by (symmetry; apply Nat.leb_gt; lia).
  cbn [andb]. rewrite Efk2, update_nth by lia.
  replace (k =? 0)%nat with false by (symmetry; apply Nat.eqb_neq; lia).
  unfold fk1. rewrite (@splice_nth _ p 0 (n - 2)) by lia.
  replace (k <? 0)%nat with false by reflexivity.
  replace (k <? 0 + (n - 2))%nat with true by (symmetry; apply Nat.ltb_lt; lia).
  rewrite Nat.sub_0_r, zip_nth by lia.
  rewrite zip_nth by lia.
  rewrite (getslice_nth _ d Hi0), (getslice_nth _ d Hi2) by lia.
  unfold fac. rewrite (map_nth_lt _ _ d) by (rewrite wavenumbers_length, HN; lia).
  rewrite wavenumbers_nth by (rewrite HN; lia).
  replace (2 + k)%nat with (k + 2)%nat by lia. reflexivity.
Qed.

(** The Shen-biharmonic scalar product on its fast path: with [p] the plain
    scalar product of the input, entry [k < N-4] of the result is
    [p[k] + (-2(k+2)/(k+3)) * p[k+2] + ((k+1)/(k+3)) * p[k+4]], and the last
    four entries are zero.  The factor arrays are those of the constructor,
    or those an earlier call has set; the call leaves them set. *)
Theorem biharmonic_scalar_product_entries (self : ShenBiharmonicBasis.t T)
  (input : option (list T)) (b : buffers T) (d : T) :
  let n := length (input_array b) in
  let F1 := map (fun k : T => #(-2) * (k + #2) / (k + #3)) (wavenumbers (Z.of_nat n) 4) in
  let F2 := map (fun k : T => (k + #1) / (k + #3)) (wavenumbers (Z.of_nat n) 4) in
  SpectralBase.N (ShenBiharmonicBasis.super self) = Z.of_nat n ->
  SpectralBase.N (Basis.super (ShenBiharmonicBasis.CT self)) = Z.of_nat n ->
  (4 <= n)%nat ->
  length (ShenBiharmonicBasis._factor1 self) <> (n - 4)%nat
  \/ (ShenBiharmonicBasis._factor1 self = F1 /\ ShenBiharmonicBasis._factor2 self = F2) ->
  match input with Some f => length f = n | None => True end ->
  exists p out self' b1 b2,
    Basis.scalar_product xfftn_fwd vandermonde_scalar_product
      (ShenBiharmonicBasis.CT self) input None true b = Ok (p, b1)
    /\ ShenBiharmonicBasis.scalar_product xfftn_fwd vandermonde_scalar_product
         self input None true b = Ok (out, self', b2)
    /\ ShenBiharmonicBasis._factor1 self' = F1
    /\ ShenBiharmonicBasis._factor2 self' = F2
    /\ length out = n
    /\ (forall k, (k + 4 < n)%nat ->
          nth k out d =
            nth k p d
            + #(-2) * (#(Z.of_nat k) + #2) / (#(Z.of_nat k) + #3) * nth (k + 2) p d
            + (#(Z.of_nat k) + #1) / (#(Z.of_nat k) + #3) * nth (k + 4) p d)
    /\ (forall k, (n - 4 <= k < n)%nat -> nth k out d = #0).
Proof.
  intros n F1 F2 HN HCT Hn Hfac Hin.
  assert (HU : exists U,
             match input with
             | Some f => np.assign (input_array b) f
             | None => Ok (input_array b)
             end = Ok U /\ length U = n).
  { destruct input as [f|].
    - exists f. split; [apply assign_same, Hin | exact Hin].
    - exists (input_array b). split; reflexivity. }
  destruct HU as (U & EU & HU).
  set (p := map (fun y => y * scale (ShenBiharmonicBasis.CT self)) (xfftn_fwd U)).
  assert (Hp : length p = n)
    by (unfold p; rewrite length_map, xfftn_fwd_length; exact HU).
  assert (Eplain : Basis.scalar_product xfftn_fwd vandermonde_scalar_product
                     (ShenBiharmonicBasis.CT self) input None true b
                   = Ok (p, Buffers U p)).
  { pose proof (plain_scalar_product_buffer (ShenBiharmonicBasis.CT self) U
                  (output_array b)) as E.
    rewrite HU in E. specialize (E HCT ltac:(lia)).
    unfold Basis.scalar_product in *. rewrite EU. cbn [bind input_array] in *.
    exact E. }
  exists p.
  unfold ShenBiharmonicBasis.scalar_product. rewrite EU. cbn [bind].
  rewrite plain_scalar_product_buffer by (rewrite ?HU; try assumption; lia).
  fold p. cbn [bind].
  rewrite assign_same by (unfold work; rewrite repeat_length; reflexivity).
  cbn [bind]. unfold sl.
  assert (Hi0 : np.indices (length p) (Slice (Some 0%Z) (Some (Z.of_nat n - 4)%Z))
                = (0, n - 4)%nat) by (rewrite Hp; apply indices_0_to; lia).
  assert (Hi22 : np.indices (length p) (Slice (Some 2%Z) (Some (-2)%Z)) = (2, n - 4)%nat)
    by (rewrite Hp; apply indices_2_m2; lia).
  assert (Hi4 : np.indices (length p) (Slice (Some 4%Z) None) = (4, n - 4)%nat)
    by (rewrite Hp; apply indices_from4; lia).
  assert (Hg0 : length (np.getslice p (Slice (Some 0%Z) (Some (Z.of_nat n - 4)%Z)))
                = (n - 4)%nat) by (apply (getslice_length _ Hi0); lia).
  assert (Hg22 : length (np.getslice p (Slice (Some 2%Z) (Some (-2)%Z))) = (n - 4)%nat)
    by (apply (getslice_length _ Hi22); lia).
  assert (Hg4 : length (np.getslice p (Slice (Some 4%Z) None)) = (n - 4)%nat)
    by (apply (getslice_length _ Hi4); lia).
  assert (HF1 : length F1 = (n - 4)%nat)
    by (unfold F1; rewrite length_map, wavenumbers_length; lia).
  assert (HF2 : length F2 = (n - 4)%nat)
    by (unfold F2; rewrite length_map, wavenumbers_length; lia).
  set (self1 := ShenBiharmonicBasis.set_factor_arrays self p).
  assert (Hs1 : ShenBiharmonicBasis._factor1 self1 = F1
                /\ ShenBiharmonicBasis._factor2 self1 = F2
                /\ ShenBiharmonicBasis.slice_ self1
                   = Slice (Some 0%Z) (Some (Z.of_nat n - 4)%Z)).
  { unfold self1, ShenBiharmonicBasis.set_factor_arrays, ShenBiharmonicBasis.slice_.
    rewrite HN, Hg0.
    destruct (Nat.eqb_spec (length (ShenBiharmonicBasis._factor1 self)) (n - 4)) as [e|ne].
    - destruct Hfac as [Hne | [E1 E2]]; [contradiction|].
      rewrite HN. auto.
    - cbn. rewrite HN. auto. }
  destruct Hs1 as (E1 & E2 & Es). rewrite Es, E1, E2.
  rewrite binop_same by lia. cbn [bind].
  assert (Hz1 : length (np.zip num_mul F1 (np.getslice p (Slice (Some 2%Z) (Some (-2)%Z))))
                = (n - 4)%nat) by (rewrite zip_length; lia).
  rewrite (modslice_ok _ _ _ Hi0) by lia. cbn [bind].
  match goal with
  | |- context [np.modslice _ ?l _ _] => set (out1 := l)
  end.
  assert (Hzo : length (np.zip num_add
                          (np.getslice p (Slice (Some 0%Z) (Some (Z.of_nat n - 4)%Z)))
                          (np.zip num_mul F1
                             (np.getslice p (Slice (Some 2%Z) (Some (-2)%Z)))))
                = (n - 4)%nat) by (rewrite zip_length; lia).
  assert (H1 : length out1 = n) by (unfold out1; rewrite splice_length; lia).
  assert (Hi0' : np.indices (length out1) (Slice (Some 0%Z) (Some (Z.of_nat n - 4)%Z))
                 = (0, n - 4)%nat) by (rewrite H1; apply indices_0_to; lia).
  assert (Hg0' : length (np.getslice out1 (Slice (Some 0%Z) (Some (Z.of_nat n - 4)%Z)))
                 = (n - 4)%nat) by (apply (getslice_length _ Hi0'); lia).
  rewrite binop_same by lia. cbn [bind].
  assert (Hz2 : length (np.zip num_mul F2 (np.getslice p (Slice (Some 4%Z) None)))
                = (n - 4)%nat) by (rewrite zip_length; lia).
  rewrite (modslice_ok _ _ _ Hi0') by lia. cbn [bind].
  match goal with
  | |- context [np.fill ?l _ _] => set (out2 := l)
  end.
  assert (H2 : length out2 = n).
  { unfold out2. rewrite splice_length; try lia. rewrite zip_length; lia. }
  assert (Hil : np.indices (length out2) (Slice (Some (-4)%Z) None) = (n - 4, 4)%nat)
    by (rewrite H2; apply indices_last4; lia).
  eexists _, _, _, _. split; [exact Eplain|]. split; [reflexivity|].
  split; [exact E1|]. split; [exact E2|].
  split; [rewrite (fill_length _ _ Hil) by lia; exact H2|].
  split.
  - intros k Hk. rewrite (fill_nth _ _ _ _ Hil) by lia.
    replace (n - 4 <=? k)%nat with false by (symmetry; apply Nat.leb_gt; lia).
    cbn [andb]. unfold out2.
    rewrite (@splice_nth _ out1 0 (n - 4)) by (rewrite ?zip_length; lia).
    replace (k <? 0)%nat with false by reflexivity.
    replace (k <? 0 + (n - 4))%nat with true by (symmetry; apply Nat.ltb_lt; lia).
    rewrite Nat.sub_0_r, zip_nth by lia.
    rewrite (getslice_nth _ d Hi0') by lia. cbn [Nat.add].
    unfold out1. rewrite (@splice_nth _ p 0 (n - 4)) by lia.
    replace (k <? 0)%nat with false by reflexivity.
    replace (k <? 0 + (n - 4))%nat with true by (symmetry; apply Nat.ltb_lt; lia).
    rewrite Nat.sub_0_r, zip_nth by lia.
    rewrite !zip_nth by lia.
    rewrite (getslice_nth _ d Hi0), (getslice_nth _ d Hi22), (getslice_nth _ d Hi4) by lia.
    unfold F1, F2.
    rewrite !(map_nth_lt _ _ d) by (rewrite wavenumbers_length; lia).
    rewrite !wavenumbers_nth by lia.
    replace (2 + k)%nat with (k + 2)%nat by lia.
    replace (4 + k)%nat with (k + 4)%nat by lia. reflexivity.
  - intros k Hk. rewrite (fill_nth _ _ _ _ Hil) by lia.
    replace (n - 4 <=? k)%nat with true by (symmetry; apply Nat.leb_le; lia).
    replace (k <? n - 4 + 4)%nat with true by (symmetry; apply Nat.ltb_lt; lia).
    reflexivity.
Qed.

End Recombination.

(** ** The Shen-Neumann and Shen-biharmonic Vandermonde bases *)

Section MatrixRows.
Context {T X : Type}.

Lemma binop_rows (f : T -> T -> T) (l : list X) (g h : X -> list T) (c : nat) :
  (forall x, In x l -> length (g x) = length (h x)) ->
  np2.binop f (Matrix c (map g l)) (Matrix c (map h l))
  = Ok (Matrix c (map (fun x => np.zip f (g x) (h x)) l)).
Proof.
  intros Hl. unfold np2.binop. cbn [rows ncols].
  rewrite (zipM_map _ _ _ (fun x => np.zip f (g x) (h x)))
    by (intros x Hx; apply binop_same, Hl, Hx).
  cbn [bind]. rewrite Nat.eqb_refl. cbn [orb].
  destruct (c =? 1)%nat; reflexivity.
Qed.

Lemma setcols_rows (l : list X) (z m : X -> list T) (c lo len : nat) (s : slice) :
  np.indices c s = (lo, len) ->
  (forall x, In x l -> length (z x) = c /\ length (m x) = len) ->
  np2.setcols (Matrix c (map z l)) s (Matrix len (map m l))
  = Ok (Matrix c (map (fun x => firstn lo (z x) ++ m x ++ skipn (lo + len) (z x)) l)).
Proof.
  intros Hi Hl. unfold np2.setcols. cbn [rows ncols]. rewrite Hi. cbn [snd].
  rewrite Nat.eqb_refl. cbn [orb].
  rewrite (zipM_map _ _ _ (fun x => firstn lo (z x) ++ m x ++ skipn (lo + len) (z x))).
  - reflexivity.
  - intros x Hx. destruct (Hl x Hx) as [Hz Hm].
    apply setslice_ok; [rewrite Hz; exact Hi | exact Hm].
Qed.

End MatrixRows.

Section ShenVandermonde.
Context {T : Type} `{Num T}.
Local Open Scope num_scope.

(** [ShenNeumannBasis.get_vandermonde_basis(V)] asserts that [V] has [N]
    columns; for such a [V], with at least two columns, column [k < N-2] of
    the result is column [k] of [V] minus [(k/(k+2))**2] times column [k+2],
    and the last two columns are zero. *)
Theorem neumann_vandermonde_basis_columns (self : ShenNeumannBasis.t T)
  (V : matrix T) (d : T) :
  (SpectralBase.N (ShenNeumannBasis.super self) <> Z.of_nat (ncols V) ->
   ShenNeumannBasis.get_vandermonde_basis self V = Raise AssertionError)
  /\ (SpectralBase.N (ShenNeumannBasis.super self) = Z.of_nat (ncols V) ->
      wf_matrix V -> (2 <= ncols V)%nat ->
      exists P,
        ShenNeumannBasis.get_vandermonde_basis self V = Ok P
        /\ ncols P = ncols V
        /\ length (rows P) = length (rows V)
        /\ forall i, (i < length (rows V))%nat ->
             let v := nth i (rows V) [] in
             let p := nth i (rows P) [] in
             length p = ncols V
             /\ (forall k, (k + 2 < ncols V)%nat ->
                   nth k p d =
                     nth k v d
                     - (let q := #(Z.of_nat k) / (#(Z.of_nat k) + #2) in q * q)
                       * nth (k + 2) v d)
             /\ nth (ncols V - 2) p d = #0
             /\ nth (ncols V - 1) p d = #0).
Proof.
  split.
  - intros HN. unfold ShenNeumannBasis.get_vandermonde_basis.
    apply Z.eqb_neq in HN. rewrite HN. reflexivity.
  - destruct V as [n rs]. unfold wf_matrix. cbn [ncols rows].
    intros HN Hwf Hn. rewrite Forall_forall in Hwf.
    set (s1 := Slice None (Some (-2)%Z)).
    set (s2 := Slice (Some 2%Z) None).
    set (z := repeat (#0) n).
    assert (Hz : length z = n) by apply repeat_length.
    set (ks := map (fun j => #(Z.of_nat j)) (seq 0 (Z.to_nat (SpectralBase.N
                 (ShenNeumannBasis.super self))))).
    assert (Hks : length ks = n) by (unfold ks; rewrite length_map, length_seq, HN; lia).
    set (fac := map (fun k : T => let q := k / (k + #2) in q * q) (np.getslice ks s1)).
    assert (Hik : np.indices (length ks) s1 = (0, n - 2)%nat)
      by (rewrite Hks; apply indices_to_m2).
    assert (Hfac : length fac = (n - 2)%nat)
      by (unfold fac; rewrite length_map; apply (getslice_length _ Hik); lia).
    assert (Hfn : forall k, (k + 2 < n)%nat ->
              nth k fac d = let q := #(Z.of_nat k) / (#(Z.of_nat k) + #2) in q * q).
    { intros k Hk. unfold fac.
      rewrite (map_nth_lt _ _ d) by (rewrite (getslice_length _ Hik); lia).
      rewrite (getslice_nth _ d Hik) by lia. cbn [Nat.add]. unfold ks.
      rewrite (map_nth_lt _ _ 0%nat) by (rewrite length_seq, HN; lia).
      rewrite seq_nth by (rewrite HN; lia). reflexivity. }
    assert (Hg1 : forall r, In r rs -> length (np.getslice r s1) = (n - 2)%nat).
    { intros r Hr. apply (@getslice_length _ r s1 0%nat);
        rewrite (Hwf r Hr); [apply indices_to_m2 | lia]. }
    assert (Hg2 : forall r, In r rs -> length (np.getslice r s2) = (n - 2)%nat).
    { intros r Hr. apply (@getslice_length _ r s2 2%nat);
        rewrite (Hwf r Hr); [apply indices_from2; lia | lia]. }
    pose (fv := fun r : list T => np.zip num_mul fac (np.getslice r s2)).
    pose (dif := fun r : list T => np.zip num_sub (np.getslice r s1) (fv r)).
    pose (p1 := fun r : list T => firstn 0 z ++ dif r ++ skipn (0 + (n - 2)) z).
    assert (Hfv : forall r, In r rs -> length (fv r) = (n - 2)%nat).
    { intros r Hr. unfold fv. rewrite zip_length; rewrite ?Hg2 by exact Hr; lia. }
    assert (Hdif : forall r, In r rs -> length (dif r) = (n - 2)%nat).
    { intros r Hr. unfold dif.
      rewrite zip_length; rewrite Hg1 by exact Hr; [reflexivity|].
      symmetry. apply Hfv, Hr. }
    exists (Matrix n (map p1 rs)). split.
    + unfold ShenNeumannBasis.get_vandermonde_basis. cbn [ncols rows].
      rewrite HN, Z.eqb_refl. cbn [assert bind]. rewrite <- HN.
      fold ks s1 s2 z fac.
      unfold np2.tile, np2.getcols. cbn [rows ncols].
      rewrite Hfac, indices_from2, indices_to_m2 by lia. cbn [snd].
      rewrite (@binop_rows T (list T) num_mul rs (fun _ => fac) (fun r => np.getslice r s2) (n - 2))
        by (intros r Hr; rewrite Hg2 by exact Hr; exact Hfac).
      cbn [bind]. fold fv.
      rewrite (@binop_rows T (list T) num_sub rs (fun r => np.getslice r s1) fv (n - 2))
        by (intros r Hr; rewrite Hg1, Hfv by exact Hr; reflexivity).
      cbn [bind]. fold dif.
      rewrite (@setcols_rows _ _ rs (fun _ => z) dif n 0 (n - 2) s1);
        [reflexivity | apply indices_to_m2 |].
      intros r Hr. split; [exact Hz | apply Hdif, Hr].
    + cbn [ncols rows]. split; [reflexivity|]. split; [apply length_map|].
      intros i Hi.
      set (v := nth i rs []). set (p := nth i (map p1 rs) []).
      assert (Hv : In v rs) by (apply nth_In; exact Hi).
      assert (Ep : p = p1 v).
      { unfold p, v. rewrite (nth_indep _ [] (p1 [])) by (rewrite length_map; exact Hi).
        apply map_nth. }
      rewrite Ep. unfold p1.
      split; [rewrite splice_length; try lia; apply Hdif, Hv|].
      split; [|split].
      * intros k Hk.
        rewrite (@splice_nth _ z 0 (n - 2)) by (try apply Hdif; try exact Hv; lia).
        replace (k <? 0)%nat with false by reflexivity.
        replace (k <? 0 + (n - 2))%nat with true by (symmetry; apply Nat.ltb_lt; lia).
        rewrite Nat.sub_0_r. unfold dif.
        rewrite zip_nth by (rewrite ?Hg1, ?Hfv by exact Hv; lia).
        unfold fv. rewrite zip_nth by (rewrite ?Hg2 by exact Hv; lia).
        rewrite Hfn by lia.
        rewrite (@getslice_nth _ v s1 0%nat (n - 2)%nat),
          (@getslice_nth _ v s2 2%nat (n - 2)%nat);
          try lia; try (rewrite (Hwf v Hv)); try apply indices_to_m2;
          try (apply indices_from2; lia).
        cbn [Nat.add]. replace (S (S k)) with (k + 2)%nat by lia. reflexivity.
      * rewrite (@splice_nth _ z 0 (n - 2)) by (try apply Hdif; try exact Hv; lia).
        replace (n - 2 <? 0)%nat with false by reflexivity.
        replace (n - 2 <? 0 + (n - 2))%nat with false by (symmetry; apply Nat.ltb_ge; lia).
        unfold z. apply nth_repeat_lt. lia.
      * rewrite (@splice_nth _ z 0 (n - 2)) by (try apply Hdif; try exact Hv; lia).
        replace (n - 1 <? 0)%nat with false by reflexivity.
        replace (n - 1 <? 0 + (n - 2))%nat with false by (symmetry; apply Nat.ltb_ge; lia).
        unfold z. apply nth_repeat_lt. lia.
Qed.

(** [ShenBiharmonicBasis.get_vandermonde_basis(V)], for a [V] with at
    least four columns: column [k < N-4] of the result is column [k] of [V]
    minus [2(k+2)/(k+3)] times column [k+2] plus [(k+1)/(k+3)] times column
    [k+4], and the last four columns are zero. *)
Theorem biharmonic_vandermonde_basis_columns (self : ShenBiharmonicBasis.t T)
  (V : matrix T) (d : T) :
  wf_matrix V -> (4 <= ncols V)%nat ->
  exists P,
    ShenBiharmonicBasis.get_vandermonde_basis self V = Ok P
    /\ ncols P = ncols V
    /\ length (rows P) = length (rows V)
    /\ forall i, (i < length (rows V))%nat ->
         let v := nth i (rows V) [] in
         let p := nth i (rows P) [] in
         length p = ncols V
         /\ (forall k, (k + 4 < ncols V)%nat ->
               nth k p d =
                 nth k v d
                 - #2 * (#(Z.of_nat k) + #2) / (#(Z.of_nat k) + #3) * nth (k + 2) v d
                 + (#(Z.of_nat k) + #1) / (#(Z.of_nat k) + #3) * nth (k + 4) v d)
         /\ (forall k, (ncols V - 4 <= k < ncols V)%nat -> nth k p d = #0).
Proof.
  destruct V as [n rs]. unfold wf_matrix. cbn [ncols rows].
  intros Hwf Hn. rewrite Forall_forall in Hwf.
  set (s0 := Slice None (Some (-4)%Z)).
  set (s2 := Slice (Some 2%Z) (Some (-2)%Z)).
  set (s4 := Slice (Some 4%Z) None).
  set (z := repeat (#0) n).
  assert (Hz : length z = n) by apply repeat_length.
  set (ks := np.getslice (map (fun j => #(Z.of_nat j)) (seq 0 n)) s0).
  assert (Hi0 : forall m, np.indices m s0 = (0, m - 4)%nat).
  { intros m. unfold np.indices, np.bound. cbn. f_equal. lia. }
  assert (Hks : length ks = (n - 4)%nat).
  { unfold ks. rewrite (getslice_length _ (Hi0 _)); rewrite length_map, length_seq; lia. }
  assert (Hkn : forall k, (k + 4 < n)%nat -> nth k ks d = #(Z.of_nat k)).
  { intros k Hk. unfold ks.
    rewrite (getslice_nth _ d (Hi0 _)) by (rewrite length_map, length_seq; lia).
    cbn [Nat.add]. rewrite (map_nth_lt _ _ 0%nat) by (rewrite length_seq; lia).
    rewrite seq_nth by lia. reflexivity. }
  set (f1 := map (fun k : T => #2 * (k + #2) / (k + #3)) ks).
  set (f2 := map (fun k : T => (k + #1) / (k + #3)) ks).
  assert (Hf1 : length f1 = (n - 4)%nat) by (unfold f1; rewrite length_map; exact Hks).
  assert (Hf2 : length f2 = (n - 4)%nat) by (unfold f2; rewrite length_map; exact Hks).
  assert (Hg0 : forall r, In r rs -> length (np.getslice r s0) = (n - 4)%nat).
  { intros r Hr. rewrite (getslice_length _ (Hi0 _)); rewrite (Hwf r Hr); lia. }
  assert (Hg2 : forall r, In r rs -> length (np.getslice r s2) = (n - 4)%nat).
  { intros r Hr. apply (@getslice_length _ r s2 2%nat);
      rewrite (Hwf r Hr); [apply indices_2_m2; lia | lia]. }
  assert (Hg4 : forall r, In r rs -> length (np.getslice r s4) = (n - 4)%nat).
  { intros r Hr. apply (@getslice_length _ r s4 4%nat);
      rewrite (Hwf r Hr); [apply indices_from4; lia | lia]. }
  pose (a := fun r : list T => np.zip num_mul f1 (np.getslice r s2)).
  pose (d1 := fun r : list T => np.zip num_sub (np.getslice r s0) (a r)).
  pose (bb := fun r : list T => np.zip num_mul f2 (np.getslice r s4)).
  pose (d2 := fun r : list T => np.zip num_add (d1 r) (bb r)).
  pose (p1 := fun r : list T => firstn 0 z ++ d2 r ++ skipn (0 + (n - 4)) z).
  assert (Ha : forall r, In r rs -> length (a r) = (n - 4)%nat).
  { intros r Hr. unfold a. rewrite zip_length; rewrite ?Hg2 by exact Hr; lia. }
  assert (Hd1 : forall r, In r rs -> length (d1 r) = (n - 4)%nat).
  { intros r Hr. unfold d1. rewrite zip_length; rewrite Hg0 by exact Hr;
      [reflexivity | symmetry; apply Ha, Hr]. }
  assert (Hb : forall r, In r rs -> length (bb r) = (n - 4)%nat).
  { intros r Hr. unfold bb. rewrite zip_length; rewrite ?Hg4 by exact Hr; lia. }
  assert (Hd2 : forall r, In r rs -> length (d2 r) = (n - 4)%nat).
  { intros r Hr. unfold d2. rewrite zip_length; rewrite Hd1 by exact Hr;
      [reflexivity | symmetry; apply Hb, Hr]. }
  exists (Matrix n (map p1 rs)). split.
  - unfold ShenBiharmonicBasis.get_vandermonde_basis. cbn [ncols rows].
    fold s0 s2 s4 z ks f1 f2.
    unfold np2.tile, np2.getcols. cbn [rows ncols].
    rewrite Hf1, Hf2, Hi0, indices_2_m2, indices_from4 by lia. cbn [snd].
    rewrite (@binop_rows T (list T) num_mul rs (fun _ => f1)
               (fun r => np.getslice r s2) (n - 4))
      by (intros r Hr; rewrite Hg2 by exact Hr; exact Hf1).
    cbn [bind]. fold a.
    rewrite (@binop_rows T (list T) num_sub rs (fun r => np.getslice r s0) a (n - 4))
      by (intros r Hr; rewrite Hg0, Ha by exact Hr; reflexivity).
    cbn [bind]. fold d1.
    rewrite (@binop_rows T (list T) num_mul rs (fun _ => f2)
               (fun r => np.getslice r s4) (n - 4))
      by (intros r Hr; rewrite Hg4 by exact Hr; exact Hf2).
    cbn [bind]. fold bb.
    rewrite (@binop_rows T (list T) num_add rs d1 bb (n - 4))
      by (intros r Hr; rewrite Hd1, Hb by exact Hr; reflexivity).
    cbn [bind]. fold d2.
    rewrite (@setcols_rows _ _ rs (fun _ => z) d2 n 0 (n - 4) s0);
      [reflexivity | apply Hi0 |].
    intros r Hr. split; [exact Hz | apply Hd2, Hr].
  - cbn [ncols rows]. split; [reflexivity|]. split; [apply length_map|].
    intros i Hi.
    set (v := nth i rs []). set (p := nth i (map p1 rs) []).
    assert (Hv : In v rs) by (apply nth_In; exact Hi).
    assert (Ep : p = p1 v).
    { unfold p, v. rewrite (nth_indep _ [] (p1 [])) by (rewrite length_map; exact Hi).
      apply map_nth. }
    rewrite Ep. unfold p1.
    split; [rewrite splice_length; try lia; apply Hd2, Hv|].
    split.
    + intros k Hk.
      rewrite (@splice_nth _ z 0 (n - 4)) by (try apply Hd2; try exact Hv; lia).
      replace (k <? 0)%nat with false by reflexivity.
      replace (k <? 0 + (n - 4))%nat with true by (symmetry; apply Nat.ltb_lt; lia).
      rewrite Nat.sub_0_r. unfold d2.
      rewrite zip_nth by (rewrite ?Hd1, ?Hb by exact Hv; lia).
      unfold d1. rewrite zip_nth by (rewrite ?Hg0, ?Ha by exact Hv; lia).
      unfold a, bb. rewrite !zip_nth by (rewrite ?Hg2, ?Hg4 by exact Hv; lia).
      unfold f1, f2. rewrite !(map_nth_lt _ _ d) by lia. rewrite Hkn by lia.
      rewrite (getslice_nth _ d (Hi0 _)) by (rewrite (Hwf v Hv); lia).
      rewrite (@getslice_nth _ v s2 2%nat (n - 4)%nat),
        (@getslice_nth _ v s4 4%nat (n - 4)%nat);
        try lia; try (rewrite (Hwf v Hv));
        try (apply indices_2_m2; lia); try (apply indices_from4; lia).
      cbn [Nat.add].
      replace (S (S k)) with (k + 2)%nat by lia.
      replace (S (S (k + 2))) with (k + 4)%nat by lia. reflexivity.
    + intros k Hk.
      rewrite (@splice_nth _ z 0 (n - 4)) by (try apply Hd2; try exact Hv; lia).
      replace (k <? 0)%nat with false by reflexivity.
      replace (k <? 0 + (n - 4))%nat with false by (symmetry; apply Nat.ltb_ge; lia).
      unfold z. apply nth_repeat_lt. lia.
Qed.

End ShenVandermonde.

(** ** Quadrature points and weights *)

Lemma np_sum_app {T : Type} `{Num T} (l : list T) (x : T) :
  np_sum (l ++ [x]) = (np_sum l + x)%num.
Proof. unfold np_sum. rewrite fold_left_app. reflexivity. Qed.

(** The sum of an array is the sum of its entries in order, whatever the
    arithmetic. *)
Lemma np_sum_sigma {T : Type} `{Num T} (l : list T) (d : T) :
  np_sum l = sigma (fun k => nth k l d) (length l).
Proof.
  induction l as [|x l IH] using rev_ind; [reflexivity|].
  rewrite np_sum_app, length_app, Nat.add_comm. cbn [length Nat.add sigma].
  rewrite app_nth2 by lia. rewrite Nat.sub_diag. cbn [nth].
  rewrite IH. f_equal.
  clear IH. generalize (Nat.le_refl (length l)).
  generalize (length l) at 1 3 4 as m.
  induction m as [|m IHm]; intros Hm; [reflexivity|].
  cbn [sigma]. rewrite IHm by lia. rewrite app_nth1 by lia. reflexivity.
Qed.

Section Quadrature.
Local Open Scope R_scope.

Lemma sigma_const (c : R) (n : nat) : sigma (fun _ => c) n = INR n * c.
Proof.
  induction n as [|n IH]; [cbn; ring|].
  cbn [sigma]. change (@num_add R Num_R) with Rplus. rewrite IH, S_INR. ring.
Qed.

Lemma sigma_ends (c : R) (f : nat -> R) (m : nat) :
  f 0%nat = c / 2 -> f (S m) = c / 2 ->
  (forall k, (1 <= k <= m)%nat -> f k = c) ->
  sigma f (S (S m)) = INR (S m) * c.
Proof.
  intros H0 Hl Hk.
  assert (E : forall j, (j <= m)%nat -> sigma f (S j) = c / 2 + INR j * c).
  { induction j as [|j IH]; intros Hj.
    - cbn [sigma]. change (@num_add R Num_R) with Rplus.
      change (@num_of_Z R Num_R 0) with 0. rewrite H0. cbn [INR]. ring.
    - cbn [sigma] in *. change (@num_add R Num_R) with Rplus in *.
      rewrite IH by lia. rewrite Hk by lia. rewrite S_INR. ring. }
  cbn [sigma] in *. change (@num_add R Num_R) with Rplus in *.
  rewrite E by lia. rewrite Hl, S_INR. field.
Qed.

Lemma points_and_weights_total (self : SpectralBase.t R) (N : Z) (scaled : bool) :
  (SpectralBase.quad self = GC /\ 1 <= N)%Z
  \/ (SpectralBase.quad self = GL /\ 2 <= N)%Z ->
  exists pts w,
    ChebyshevBase.points_and_weights self N scaled = Ok (pts, w)
    /\ length pts = Z.to_nat N
    /\ length w = Z.to_nat N
    /\ np_sum w = PI.
Proof.
  intros [[Hq HN] | [Hq HN]]; unfold ChebyshevBase.points_and_weights; rewrite Hq.
  - unfold n_cheb.chebgauss.
    replace (N <=? 0)%Z with false by (symmetry; apply Z.leb_gt; lia).
    cbn [bind].
    assert (Hs : np_sum (repeat (#1 * (num_pi / #N))%num (Z.to_nat N)) = PI).
    { rewrite (np_sum_sigma _ 0), repeat_length.
      rewrite (sigma_ext _ (fun _ => 1 * (PI / IZR N)))
        by (intros j Hj; apply nth_repeat_lt; exact Hj).
      rewrite sigma_const, INR_IZR_INZ, Z2Nat.id by lia.
      field. apply not_0_IZR. lia. }
    destruct scaled; [destruct (SpectralBase.domain self) as [a b]|];
      do 2 eexists; (split; [reflexivity|]);
      rewrite ?length_map, ?length_seq, ?repeat_length; auto.
  - unfold n_cheb.chebpts2.
    replace (N <? 2)%Z with false by (symmetry; apply Z.ltb_ge; lia).
    cbn [bind].
    remember (Z.to_nat N) as n eqn:En.
    set (c := (num_pi / #(N - 1))%num).
    assert (Hn : (2 <= n)%nat) by lia.
    assert (Hr : length (repeat c n) = n) by apply repeat_length.
    rewrite (@moditem_ok _ _ (repeat c n) 0%Z 0%nat 0)
      by (rewrite ?Hr; try (apply index_nonneg); lia).
    cbn [bind].
    set (w1 := np.update (repeat c n) 0 (nth 0 (repeat c n) 0 / #2)%num).
    assert (H1 : length w1 = n) by (unfold w1; rewrite update_length; lia).
    rewrite (@moditem_ok _ _ w1 (-1)%Z (n - 1)%nat 0)
      by (rewrite ?H1; try (rewrite index_neg by lia; f_equal); lia).
    cbn [bind].
    set (w2 := np.update w1 (n - 1) (nth (n - 1) w1 0 / #2)%num).
    assert (H2 : length w2 = n) by (unfold w2; rewrite update_length; lia).
    assert (Hs : np_sum w2 = PI).
    { rewrite (np_sum_sigma _ 0), H2.
      destruct n as [|[|m]]; try lia.
      rewrite (@sigma_ends c).
      - rewrite S_INR, INR_IZR_INZ. unfold c.
        change (@num_div R Num_R) with Rdiv. change (@num_of_Z R Num_R) with IZR.
        change (@num_pi R Pi_R) with PI.
        replace (IZR (Z.of_nat m) + 1) with (IZR (N - 1)).
        + field. apply not_0_IZR. lia.
        + rewrite <- plus_IZR. f_equal. lia.
      - unfold w2. rewrite update_nth by lia. cbn [Nat.sub Nat.eqb].
        unfold w1. rewrite update_nth by lia. cbn [Nat.eqb].
        rewrite nth_repeat_lt by lia. reflexivity.
      - unfold w2. rewrite update_nth by lia.
        replace (S m =? S (S m) - 1)%nat with true by (symmetry; apply Nat.eqb_eq; lia).
        unfold w1. rewrite update_nth by lia.
        replace (S (S m) - 1 =? 0)%nat with false by (symmetry; apply Nat.eqb_neq; lia).
        rewrite nth_repeat_lt by lia. reflexivity.
      - intros k Hk. unfold w2. rewrite update_nth by lia.
        replace (k =? S (S m) - 1)%nat with false by (symmetry; apply Nat.eqb_neq; lia).
        unfold w1. rewrite update_nth by lia.
        replace (k =? 0)%nat with false by (symmetry; apply Nat.eqb_neq; lia).
        apply nth_repeat_lt. lia. }
    destruct scaled; [destruct (SpectralBase.domain self) as [a b]|];
      do 2 eexists; (split; [reflexivity|]);
      rewrite ?length_map, ?length_seq; auto.
Qed.

(** [points_and_weights(N)] returns [N] points and [N] weights, and the
    weights add up to [pi], for [N >= 1] with Gauss and [N >= 2] with
    Gauss-Lobatto, scaled or not (exact arithmetic). *)
Theorem points_and_weights_sum (self : SpectralBase.t R) (N : Z) (scaled : bool) :
  (SpectralBase.quad self = GC /\ 1 <= N)%Z
  \/ (SpectralBase.quad self = GL /\ 2 <= N)%Z ->
  exists pts w,
    ChebyshevBase.points_and_weights self N scaled = Ok (pts, w)
    /\ length pts = Z.to_nat N
    /\ length w = Z.to_nat N
    /\ np_sum w = PI.
Proof. apply points_and_weights_total. Qed.

(** The Gauss-Lobatto points are [cos(j pi / (N - 1))] for [j = 0 .. N-1],
    so they run from [1] down to [-1]; with [scaled] they are mapped
    affinely to the domain [(a, b)] and run from [b] down to [a] (exact
    arithmetic). *)
Theorem gauss_lobatto_points (self : SpectralBase.t R) (N : Z) (scaled : bool) :
  SpectralBase.quad self = GL -> (2 <= N)%Z ->
  exists pts w,
    ChebyshevBase.points_and_weights self N scaled = Ok (pts, w)
    /\ (forall j, (j < Z.to_nat N)%nat ->
        let x := cos (INR j * PI / IZR (N - 1)) in
        let '(a, b) := SpectralBase.domain self in
        nth j pts 0 = if scaled then a + (b - a) / 2 * (1 + x) else x)
    /\ (let '(a, b) := SpectralBase.domain self in
        nth 0 pts 0 = (if scaled then b else 1)
        /\ nth (Z.to_nat N - 1) pts 0 = (if scaled then a else -1)).
Proof.
  intros Hq HN.
  edestruct (@points_and_weights_total self N scaled) as (pts & w & E & Hp & Hw & _);
    [right; split; [exact Hq | exact HN]|].
  exists pts, w. split; [exact E|].
  unfold ChebyshevBase.points_and_weights in E. rewrite Hq in E.
  unfold n_cheb.chebpts2 in E.
  replace (N <? 2)%Z with false in E by (symmetry; apply Z.ltb_ge; lia).
  cbn [bind] in E.
  destruct (np.moditem _ _ 0) as [w1|]; cbn [bind] in E; [|destruct scaled; discriminate].
  destruct (np.moditem _ w1 _) as [w2|]; cbn [bind] in E; [|destruct scaled; discriminate].
  assert (HN1 : IZR (N - 1) <> 0) by (apply not_0_IZR; lia).
  assert (Hx : forall j, (j < Z.to_nat N)%nat ->
    nth j (map num_opp (map (fun j : nat =>
      num_cos (if (S j =? Z.to_nat N)%nat then #0
               else #(Z.of_nat j) * ((#0 - (- num_pi)) / #(N - 1)) + (- num_pi))%num)
      (seq 0 (Z.to_nat N)))) 0 = cos (INR j * PI / IZR (N - 1))).
  { intros j Hj.
    rewrite (nth_indep _ 0 (num_opp 0)) by (rewrite !length_map, length_seq; exact Hj).
    rewrite map_nth.
    rewrite (nth_indep _ _ (num_cos (if (S j =? Z.to_nat N)%nat then #0
               else #(Z.of_nat j) * ((#0 - (- num_pi)) / #(N - 1)) + (- num_pi))%num))
      by (rewrite length_map, length_seq; exact Hj).
    rewrite (map_nth (fun j : nat =>
      num_cos (if (S j =? Z.to_nat N)%nat then #0
               else #(Z.of_nat j) * ((#0 - (- num_pi)) / #(N - 1)) + (- num_pi))%num)).
    rewrite seq_nth by exact Hj. cbn [Nat.add].
    change (@num_opp R Num_R) with Ropp. change (@num_cos R Cos_R) with cos.
    change (@num_pi R Pi_R) with PI. change (@num_of_Z R Num_R) with IZR.
    change (@num_add R Num_R) with Rplus. change (@num_sub R Num_R) with Rminus.
    change (@num_mul R Num_R) with Rmult. change (@num_div R Num_R) with Rdiv.
    destruct (Nat.eqb_spec (S j) (Z.to_nat N)) as [Ej|Ej].
    - replace (INR j * PI / IZR (N - 1)) with PI.
      + rewrite cos_0, cos_PI. reflexivity.
      + rewrite INR_IZR_INZ. replace (Z.of_nat j) with (N - 1)%Z by lia.
        field. exact HN1.
    - rewrite cos_plus, cos_neg, sin_neg, cos_PI, sin_PI, INR_IZR_INZ.
      replace (IZR (Z.of_nat j) * ((0 - - PI) / IZR (N - 1)))
        with (IZR (Z.of_nat j) * PI / IZR (N - 1)) by (field; exact HN1).
      ring. }
  assert (H0 : cos (INR 0 * PI / IZR (N - 1)) = 1).
  { cbn [INR]. replace (0 * PI / IZR (N - 1)) with 0 by (field; exact HN1).
    apply cos_0. }
  assert (Hl : cos (INR (Z.to_nat N - 1) * PI / IZR (N - 1)) = -1).
  { rewrite INR_IZR_INZ. replace (Z.of_nat (Z.to_nat N - 1)) with (N - 1)%Z by lia.
    replace (IZR (N - 1) * PI / IZR (N - 1)) with PI by (field; exact HN1).
    apply cos_PI. }
  destruct (SpectralBase.domain self) as [a b].
  destruct scaled; inv E.
  - assert (Hs : forall j, (j < Z.to_nat N)%nat ->
      nth j (map (fun p : R => (a + (b - a) / #2 + p * (b - a) / #2)%num)
        (map num_opp (map (fun j : nat =>
          num_cos (if (S j =? Z.to_nat N)%nat then #0
               else #(Z.of_nat j) * ((#0 - (- num_pi)) / #(N - 1)) + (- num_pi))%num)
          (seq 0 (Z.to_nat N))))) 0
      = a + (b - a) / 2 * (1 + cos (INR j * PI / IZR (N - 1)))).
    { intros j Hj.
      rewrite (nth_indep _ 0 ((fun p : R => (a + (b - a) / #2 + p * (b - a) / #2)%num) 0))
        by (rewrite !length_map, length_seq; exact Hj).
      rewrite (map_nth (fun p : R => (a + (b - a) / #2 + p * (b - a) / #2)%num)).
      rewrite Hx by exact Hj.
      change (@num_of_Z R Num_R) with IZR.
      change (@num_add R Num_R) with Rplus. change (@num_sub R Num_R) with Rminus.
      change (@num_mul R Num_R) with Rmult. change (@num_div R Num_R) with Rdiv.
      field. }
    split; [exact Hs|].
    split; [rewrite Hs, H0 by lia; field | rewrite Hs, Hl by lia; field].
  - split; [exact Hx|].
    split; [rewrite Hx, H0 by lia; reflexivity | rewrite Hx, Hl by lia; reflexivity].
Qed.

End Quadrature.

(** ** Errors of the scalar product *)

Section ScalarProductErrors.
Context {T : Type} `{Num T} `{Pi T}.
Variable xfftn_fwd : list T -> list T.
Variable vandermonde_scalar_product : list T -> list T -> list T.

Lemma assign_mismatch (a f : list T) :
  length f <> length a -> length f <> 1%nat -> np.assign a f = Raise ValueError.
Proof.
  intros Hl H1. unfold np.assign, np.broadcast.
  destruct (Nat.eqb_spec (length f) (length a)) as [E|_]; [contradiction|].
  destruct f as [|x [|y f]]; try reflexivity. cbn in H1. lia.
Qed.

Lemma assign_scalar (a : list T) (x : T) :
  np.assign a [x] = Ok (repeat x (length a)).
Proof.
  unfold np.assign, np.broadcast. cbn [length].
  destruct (Nat.eqb_spec 1 (length a)) as [E|_]; [|reflexivity].
  rewrite <- E. reflexivity.
Qed.

(** A scalar product of any of the four bases copies [input] into the
    input buffer first: an input whose length is neither the buffer's nor
    one raises [ValueError], on the fast and on the slow path, before
    anything else is looked at. *)
Theorem scalar_product_input_shape (f : list T) (output : option (list T))
  (fast_transform : bool) (b : buffers T) :
  length f <> length (input_array b) -> length f <> 1%nat ->
  (forall self, Basis.scalar_product xfftn_fwd vandermonde_scalar_product
     self (Some f) output fast_transform b = Raise ValueError)
  /\ (forall self, ShenDirichletBasis.scalar_product xfftn_fwd
     vandermonde_scalar_product self (Some f) output fast_transform b
     = Raise ValueError)
  /\ (forall self, ShenNeumannBasis.scalar_product xfftn_fwd
     vandermonde_scalar_product self (Some f) output fast_transform b
     = Raise ValueError)
  /\ (forall self, ShenBiharmonicBasis.scalar_product xfftn_fwd
     vandermonde_scalar_product self (Some f) output fast_transform b
     = Raise ValueError).
Proof.
  intros Hl H1.
  repeat split; intros self;
    unfold Basis.scalar_product, ShenDirichletBasis.scalar_product,
      ShenNeumannBasis.scalar_product, ShenBiharmonicBasis.scalar_product;
    rewrite (@assign_mismatch _ f Hl H1); reflexivity.
Qed.

(** An input of length one stands for the constant array: the scalar
    product of [[x]] is that of [x] repeated over the input buffer. *)
Lemma scalar_product_broadcasts_input (self : Basis.t T) (x : T)
  (output : option (list T)) (fast_transform : bool) (b : buffers T) :
  Basis.scalar_product xfftn_fwd vandermonde_scalar_product
    self (Some [x]) output fast_transform b
  = Basis.scalar_product xfftn_fwd vandermonde_scalar_product
      self (Some (repeat x (length (input_array b)))) output fast_transform b.
Proof.
  unfold Basis.scalar_product.
  rewrite assign_scalar, assign_same by apply repeat_length. reflexivity.
Qed.

(** On the fast path the input buffer must have [N] entries: otherwise the
    plain basis raises [AssertionError] before the transform runs, and the
    three Shen bases pass the error of their plain basis [CT] on. *)
Theorem scalar_product_fast_asserts_length (ct : Basis.t T) (b : buffers T)
  (output : option (list T)) :
  SpectralBase.N (Basis.super ct) <> Z.of_nat (length (input_array b)) ->
  Basis.scalar_product xfftn_fwd vandermonde_scalar_product
    ct None output true b = Raise AssertionError
  /\ (forall self, ShenDirichletBasis.CT self = ct ->
      ShenDirichletBasis.scalar_product xfftn_fwd vandermonde_scalar_product
        self None output true b = Raise AssertionError)
  /\ (forall self, ShenNeumannBasis.CT self = ct ->
      ShenNeumannBasis.scalar_product xfftn_fwd vandermonde_scalar_product
        self None output true b = Raise AssertionError)
  /\ (forall self, ShenBiharmonicBasis.CT self = ct ->
      ShenBiharmonicBasis.scalar_product xfftn_fwd vandermonde_scalar_product
        self None output true b = Raise AssertionError).
Proof.
  intros Hn.
  assert (E : forall o, Basis.scalar_product xfftn_fwd vandermonde_scalar_product
    ct None o true (Buffers (input_array b) (output_array b)) = Raise AssertionError).
  { intros o. unfold Basis.scalar_product. cbn [bind input_array output_array].
    replace (_ =? _)%Z with false by (symmetry; apply Z.eqb_neq; exact Hn).
    reflexivity. }
  split; [destruct b; apply E|].
  repeat split; intros self <-;
    unfold ShenDirichletBasis.scalar_product, ShenNeumannBasis.scalar_product,
      ShenBiharmonicBasis.scalar_product;
    cbn [bind]; rewrite E; reflexivity.
Qed.

End ScalarProductErrors.

(** ** Evaluation of expansions *)

Ltac num_R :=
  change (@num_add R Num_R) with Rplus in *;
  change (@num_sub R Num_R) with Rminus in *;
  change (@num_mul R Num_R) with Rmult in *;
  change (@num_div R Num_R) with Rdiv in *;
  change (@num_opp R Num_R) with Ropp in *;
  change (@num_of_Z R Num_R) with IZR in *;
  change (@num_half R Num_R) with (/ 2)%R in *.

Section ChebyshevSeries.
Local Open Scope R_scope.

Lemma sigma_R_S (f : nat -> R) (n : nat) : sigma f (S n) = sigma f n + f n.
Proof. reflexivity. Qed.

Lemma sigma_R_0 (f : nat -> R) : sigma f 0 = 0.
Proof. reflexivity. Qed.

Lemma sigma_zero (f : nat -> R) (n : nat) :
  (forall k, (k < n)%nat -> f k = 0) -> sigma f n = 0.
Proof.
  induction n as [|n IH]; intros E; [reflexivity|].
  rewrite sigma_R_S, IH, E by (try intros; try apply E; lia). ring.
Qed.

Lemma sigma_split (f : nat -> R) (m n : nat) :
  sigma f (m + n) = sigma f m + sigma (fun k => f (m + k)%nat) n.
Proof.
  induction n as [|n IH].
  - rewrite Nat.add_0_r, sigma_R_0. ring.
  - rewrite Nat.add_succ_r, !sigma_R_S, IH. ring.
Qed.

Lemma sigma_plus (f g : nat -> R) (n : nat) :
  sigma (fun k => f k + g k) n = sigma f n + sigma g n.
Proof.
  induction n as [|n IH]; [rewrite !sigma_R_0; ring|].
  rewrite !sigma_R_S, IH. ring.
Qed.

Lemma sigma_minus (f g : nat -> R) (n : nat) :
  sigma (fun k => f k - g k) n = sigma f n - sigma g n.
Proof.
  induction n as [|n IH]; [rewrite !sigma_R_0; ring|].
  rewrite !sigma_R_S, IH. ring.
Qed.

Lemma cheb_series_snoc (c : list R) (a x : R) :
  cheb_series (c ++ [a]) x = cheb_series c x + a * cheb_T x (length c).
Proof.
  unfold cheb_series. rewrite length_app, Nat.add_comm. cbn [length Nat.add].
  rewrite sigma_R_S, app_nth2, Nat.sub_diag by lia. cbn [nth]. f_equal.
  apply sigma_ext. intros j Hj. rewrite app_nth1 by exact Hj. reflexivity.
Qed.

(** A series whose coefficients are [lo] zeros, then [v], then zeros. *)
Lemma cheb_series_padded (lo hi : nat) (v : list R) (x : R) :
  cheb_series (repeat 0 lo ++ v ++ repeat 0 hi) x
  = sigma (fun k => nth k v 0 * cheb_T x (lo + k)) (length v).
Proof.
  unfold cheb_series. rewrite !length_app, !repeat_length.
  rewrite sigma_split, sigma_split.
  rewrite (@sigma_zero _ lo).
  2:{ intros k Hk. rewrite app_nth1 by (rewrite repeat_length; exact Hk).
      rewrite nth_repeat_lt by exact Hk. ring. }
  rewrite (@sigma_zero _ hi).
  2:{ intros k Hk. rewrite app_nth2 by (rewrite repeat_length; lia).
      rewrite app_nth2 by (rewrite repeat_length; lia).
      rewrite repeat_length, nth_repeat_lt by lia. ring. }
  rewrite Rplus_0_l, Rplus_0_r. apply sigma_ext. intros k Hk.
  rewrite app_nth2 by (rewrite repeat_length; lia).
  rewrite app_nth1 by (rewrite repeat_length; lia).
  rewrite repeat_length. do 2 f_equal. lia.
Qed.

Lemma clenshaw_loop (x : R) (rest : list R) (c0 c1 : R) :
  let '(d0, d1) :=
    fold_left (fun '(c0, c1) ci => (ci - c1, c0 + c1 * (#2 * x))%num) rest (c0, c1) in
  d0 + d1 * x
  = cheb_series (rev rest) x + c0 * cheb_T x (length rest)
    + c1 * cheb_T x (S (length rest)).
Proof.
  revert c0 c1. induction rest as [|ci rest IH]; intros c0 c1.
  - cbn. unfold cheb_series. cbn. ring.
  - cbn [fold_left rev length].
    specialize (IH (ci - c1)%num (c0 + c1 * (#2 * x))%num).
    destruct (fold_left _ rest _) as [d0 d1]. rewrite IH.
    rewrite cheb_series_snoc, length_rev. num_R.
    change (cheb_T x (S (S (length rest))))
      with (2 * x * cheb_T x (S (length rest)) - cheb_T x (length rest)).
    ring.
Qed.

(** Clenshaw's recursion sums the series. *)
Lemma chebval_series (x : R) (c : list R) :
  c <> [] -> n_cheb.chebval x c = Ok (cheb_series c x).
Proof.
  intros Hc. unfold n_cheb.chebval.
  rewrite <- (rev_involutive c) at 2.
  destruct (rev c) as [|c1 [|c0 rest]] eqn:E.
  - apply (f_equal (@rev R)) in E. rewrite rev_involutive in E. contradiction.
  - f_equal. unfold cheb_series. cbn. num_R. ring.
  - destruct rest as [|c2 rest].
    + f_equal. unfold cheb_series. cbn. num_R. ring.
    + pose proof (clenshaw_loop x (c2 :: rest) c0 c1) as L.
      destruct (fold_left _ (c2 :: rest) _) as [d0 d1]. f_equal.
      num_R. rewrite L.
      change (rev (c1 :: c0 :: c2 :: rest))
        with ((rev (c2 :: rest) ++ [c0]) ++ [c1]).
      rewrite !cheb_series_snoc, length_app, length_rev. cbn [length].
      rewrite Nat.add_comm. cbn [Nat.add]. ring.
Qed.

Lemma chebval_all_series (xs c : list R) :
  c <> [] -> n_cheb.chebval_all xs c = Ok (map (cheb_series c) xs).
Proof.
  intros Hc. unfold n_cheb.chebval_all. destruct c as [|a c]; [contradiction|].
  apply mapM_ok. intros x _. apply chebval_series. exact Hc.
Qed.

Lemma chebvander_loop_length (x2 a b : R) (n : nat) :
  length (n_cheb.chebvander_loop x2 a b n) = n.
Proof.
  revert a b. induction n as [|n IH]; intros a b; [reflexivity|].
  cbn [n_cheb.chebvander_loop length]. rewrite IH. reflexivity.
Qed.

Lemma chebvander_loop_nth (x : R) (m n k : nat) :
  (k < n)%nat ->
  nth k (n_cheb.chebvander_loop (#2 * x)%num (cheb_T x m) (cheb_T x (S m)) n) 0
  = cheb_T x (S (S m) + k).
Proof.
  revert m k. induction n as [|n IH]; intros m k Hk; [lia|].
  cbn [n_cheb.chebvander_loop].
  assert (E : (cheb_T x (S m) * (#2 * x) - cheb_T x m)%num = cheb_T x (S (S m))).
  { num_R. change (cheb_T x (S (S m)))
      with (2 * x * cheb_T x (S m) - cheb_T x m). ring. }
  rewrite E. destruct k as [|k]; cbn [nth].
  - rewrite Nat.add_0_r. reflexivity.
  - rewrite IH by lia. f_equal. lia.
Qed.


Lemma firstn_repeat_le {A : Type} (x : A) (lo n : nat) :
  (lo <= n)%nat -> firstn lo (repeat x n) = repeat x lo.
Proof.
  revert n. induction lo as [|lo IH]; intros n Hn; [reflexivity|].
  destruct n as [|n]; [lia|]. cbn. rewrite IH by lia. reflexivity.
Qed.

Lemma skipn_repeat_sub {A : Type} (x : A) (k n : nat) :
  skipn k (repeat x n) = repeat x (n - k).
Proof.
  revert n. induction k as [|k IH]; intros n.
  - rewrite Nat.sub_0_r. reflexivity.
  - destruct n as [|n]; [reflexivity|]. cbn. apply IH.
Qed.

Lemma indices_all (n : nat) : np.indices n (Slice None None) = (0, n)%nat.
Proof. unfold np.indices, np.bound. cbn. f_equal. lia. Qed.

Lemma indices_to_m4 (n : nat) :
  np.indices n (Slice None (Some (-4)%Z)) = (0, n - 4)%nat.
Proof. unfold np.indices, np.bound. cbn. f_equal. lia. Qed.

Lemma indices_to_4 (n : nat) :
  (4 <= n)%nat -> np.indices n (Slice None (Some 4%Z)) = (0, 4)%nat.
Proof. intros Hn. unfold np.indices, np.bound. cbn. f_equal. lia. Qed.

(** [w_hat[s] = v] on the zeros that [work] hands out. *)
Lemma setslice_zeros (n : nat) (s : slice) (lo len : nat) (v : list R) :
  np.indices n s = (lo, len) -> (lo + len <= n)%nat -> length v = len ->
  np.setslice (repeat 0 n) s v
  = Ok (repeat 0 lo ++ v ++ repeat 0 (n - (lo + len))).
Proof.
  intros E Hle Hv.
  rewrite (@setslice_ok _ _ s lo len) by (rewrite ?repeat_length; assumption).
  rewrite firstn_repeat_le, skipn_repeat_sub by lia. reflexivity.
Qed.

(** [output_array[:] = v] on a fresh array of the length of [v]. *)
Lemma setslice_all (v : list R) :
  np.setslice (repeat 0 (length v)) (Slice None None) v = Ok v.
Proof.
  rewrite (@setslice_zeros _ _ 0 (length v)) by (try apply indices_all; lia).
  cbn [repeat Nat.add app]. rewrite Nat.sub_diag. cbn [repeat]. rewrite app_nil_r.
  reflexivity.
Qed.

Lemma getitem_neg (a : list R) (i : Z) :
  (- Z.of_nat (length a) <= i < 0)%Z ->
  np.getitem a i = Ok (nth (Z.to_nat (Z.of_nat (length a) + i)) a 0).
Proof.
  intros Hi. unfold np.getitem. rewrite index_neg by lia. cbn [bind].
  rewrite (nth_error_nth' a 0) by lia. reflexivity.
Qed.

Lemma cheb_series_firstn (fk : list R) (m : nat) (x : R) :
  (m <= length fk)%nat ->
  cheb_series (firstn m fk) x = sigma (fun k => nth k fk 0 * cheb_T x k) m.
Proof.
  intros Hm. unfold cheb_series. rewrite length_firstn, Nat.min_l by exact Hm.
  apply sigma_ext. intros k Hk. rewrite nth_firstn.
  replace (k <? m)%nat with true by (symmetry; apply Nat.ltb_lt; exact Hk).
  reflexivity.
Qed.

Lemma eval_all_series (x c : list R) :
  c <> [] ->
  (v <- n_cheb.chebval_all x c ;;
   np.setslice (repeat (#0)%num (length x)) (Slice None None) v)
  = Ok (map (cheb_series c) x).
Proof.
  intros Hc. rewrite chebval_all_series by exact Hc. cbn [bind].
  rewrite <- (length_map (cheb_series c) x). apply setslice_all.
Qed.

(** [vandermonde(x)] has a row for each point and [N] columns, and its
    entry in row [i], column [k] is [T_k(x_i)]; it raises [ValueError] for
    [N <= 0]. *)
Theorem vandermonde_entries (self : SpectralBase.t R) (x : list R) :
  ((SpectralBase.N self <= 0)%Z ->
   ChebyshevBase.vandermonde self x = Raise ValueError)
  /\ ((1 <= SpectralBase.N self)%Z ->
      exists V,
        ChebyshevBase.vandermonde self x = Ok V
        /\ ncols V = Z.to_nat (SpectralBase.N self)
        /\ wf_matrix V
        /\ length (rows V) = length x
        /\ forall i k, (i < length x)%nat -> (k < ncols V)%nat ->
             nth k (nth i (rows V) []) 0 = cheb_T (nth i x 0) k).
Proof.
  unfold ChebyshevBase.vandermonde, n_cheb.chebvander.
  set (N := SpectralBase.N self). split; intros HN.
  - replace (N - 1 <? 0)%Z with true by (symmetry; apply Z.ltb_lt; lia).
    reflexivity.
  - replace (N - 1 <? 0)%Z with false by (symmetry; apply Z.ltb_ge; lia).
    set (row := fun xi : R => _).
    assert (Hrow : forall xi,
      length (row xi) = Z.to_nat N
      /\ forall k, (k < Z.to_nat N)%nat -> nth k (row xi) 0 = cheb_T xi k).
    { intros xi. unfold row. num_R.
      replace (xi + 0) with xi by ring.
      replace (xi * 0 + 1) with (cheb_T xi 0) by (cbn; ring).
      destruct (Z.to_nat (N - 1)) as [|d] eqn:Ed.
      - split; [cbn; lia|]. intros k Hk. replace k with 0%nat by lia. reflexivity.
      - split; [cbn [length]; rewrite chebvander_loop_length; lia|].
        intros k Hk. destruct k as [|[|k]]; try reflexivity.
        cbn [nth].
        apply (@chebvander_loop_nth xi 0 d k). lia. }
    eexists. split; [reflexivity|]. cbn [ncols rows].
    split; [lia|]. split.
    + unfold wf_matrix. cbn [ncols rows]. apply Forall_forall.
      intros r Hr. apply in_map_iff in Hr. destruct Hr as (xi & <- & _).
      rewrite (proj1 (Hrow xi)). lia.
    + split; [apply length_map|]. intros i k Hi Hk.
      rewrite (nth_indep _ [] (row 0)) by (rewrite length_map; exact Hi).
      rewrite map_nth. apply (proj2 (Hrow _)). lia.
Qed.

(** [Basis.eval(x, fk)] is the Chebyshev series [sum_k fk[k] T_k] at every
    point of [x] (exact arithmetic); without coefficients it is an
    [IndexError]. *)
Theorem basis_eval_series (self : Basis.t R) (x fk : list R) :
  Basis.eval self x fk
  = match fk with
    | [] => Raise IndexError
    | _ => Ok (map (fun xi => sigma (fun k => nth k fk 0 * cheb_T xi k) (length fk)) x)
    end.
Proof.
  unfold Basis.eval. destruct fk as [|a fk]; [reflexivity|].
  apply eval_all_series. discriminate.
Qed.

Lemma cheb_T_one (k : nat) : cheb_T 1 k = 1 /\ cheb_T 1 (S k) = 1.
Proof.
  induction k as [|k [IH0 IH1]]; [split; reflexivity|].
  split; [exact IH1|].
  change (cheb_T 1 (S (S k))) with (2 * 1 * cheb_T 1 (S k) - cheb_T 1 k).
  rewrite IH0, IH1. ring.
Qed.

Lemma cheb_T_minus_one (k : nat) : cheb_T (-1) (S k) = - cheb_T (-1) k.
Proof.
  induction k as [|k IH]; [cbn; ring|].
  change (cheb_T (-1) (S (S k)))
    with (2 * (-1) * cheb_T (-1) (S k) - cheb_T (-1) k).
  rewrite IH. ring.
Qed.

(** [ShenDirichletBasis.eval(x, fk)], for [N >= 3] coefficients: at every
    point it is [sum_{k < N-2} fk[k] (T_k - T_{k+2})], plus the last
    coefficient times [(1 + x)/2], plus the one before times [(1 - x)/2]
    (exact arithmetic). *)
Theorem dirichlet_eval_expansion (self : ShenDirichletBasis.t R) (x fk : list R) :
  (3 <= length fk)%nat ->
  ShenDirichletBasis.eval self x fk
  = Ok (map (fun xi =>
       sigma (fun k => nth k fk 0 * (cheb_T xi k - cheb_T xi (k + 2)))
         (length fk - 2)
       + nth (length fk - 1) fk 0 * ((1 + xi) / 2)
       + nth (length fk - 2) fk 0 * ((1 - xi) / 2)) x).
Proof.
  intros Hn. set (n := length fk) in *. unfold ShenDirichletBasis.eval.
  assert (Hs : np.getslice fk (Slice None (Some (-2)%Z)) = firstn (n - 2) fk).
  { unfold np.getslice. fold n. rewrite indices_to_m2. reflexivity. }
  rewrite Hs.
  assert (Hl : length (firstn (n - 2) fk) = (n - 2)%nat)
    by (rewrite length_firstn; fold n; lia).
  assert (Hne : firstn (n - 2) fk <> [])
    by (intros E; rewrite E in Hl; cbn in Hl; lia).
  rewrite chebval_all_series by exact Hne. cbn [bind].
  unfold work. fold n.
  rewrite (@setslice_zeros n _ 2 (n - 2)) by (try apply indices_from2; lia).
  cbn [bind].
  rewrite chebval_all_series by (cbn; discriminate). cbn [bind].
  rewrite binop_same by (rewrite !length_map; reflexivity). cbn [bind].
  rewrite zip_map.
  rewrite !getitem_neg by (fold n; lia). cbn [bind]. fold n.
  rewrite binop_same by (rewrite !length_map; reflexivity).
  rewrite zip_map. f_equal. apply map_ext. intros xi.
  rewrite cheb_series_padded, cheb_series_firstn, Hl by (fold n; lia).
  num_R.
  rewrite (sigma_ext (fun k => nth k (firstn (n - 2) fk) 0 * cheb_T xi (2 + k))
                     (fun k => nth k fk 0 * cheb_T xi (k + 2))).
  2:{ intros k Hk. rewrite nth_firstn.
      replace (k <? n - 2)%nat with true by (symmetry; apply Nat.ltb_lt; exact Hk).
      rewrite (Nat.add_comm 2 k). reflexivity. }
  rewrite <- sigma_minus.
  rewrite (sigma_ext (fun k => nth k fk 0 * cheb_T xi k - nth k fk 0 * cheb_T xi (k + 2))
                     (fun k => nth k fk 0 * (cheb_T xi k - cheb_T xi (k + 2))))
    by (intros; ring).
  replace (Z.to_nat (Z.of_nat n + -1)) with (n - 1)%nat by lia.
  replace (Z.to_nat (Z.of_nat n + -2)) with (n - 2)%nat by lia.
  field.
Qed.

(** At the boundary the part in [T_k - T_{k+2}] vanishes:
    [ShenDirichletBasis.eval] is the last coefficient at [x = 1] and the one
    before it at [x = -1], whatever the other coefficients are (exact
    arithmetic). *)
Theorem dirichlet_eval_boundary (self : ShenDirichletBasis.t R) (fk : list R) :
  (3 <= length fk)%nat ->
  ShenDirichletBasis.eval self [1; -1] fk
  = Ok [nth (length fk - 1) fk 0; nth (length fk - 2) fk 0].
Proof.
  intros Hn. unfold ShenDirichletBasis.eval.
  set (n := length fk) in *.
  assert (Hs : np.getslice fk (Slice None (Some (-2)%Z)) = firstn (n - 2) fk).
  { unfold np.getslice. fold n. rewrite indices_to_m2. reflexivity. }
  rewrite Hs.
  assert (Hl : length (firstn (n - 2) fk) = (n - 2)%nat)
    by (rewrite length_firstn; fold n; lia).
  assert (Hne : firstn (n - 2) fk <> [])
    by (intros E; rewrite E in Hl; cbn in Hl; lia).
  rewrite chebval_all_series by exact Hne. cbn [bind].
  unfold work. fold n.
  rewrite (@setslice_zeros n _ 2 (n - 2)) by (try apply indices_from2; lia).
  cbn [bind].
  rewrite chebval_all_series by (cbn; discriminate). cbn [bind].
  rewrite binop_same by (rewrite !length_map; reflexivity). cbn [bind].
  rewrite zip_map.
  rewrite !getitem_neg by (fold n; lia). cbn [bind]. fold n.
  rewrite binop_same by (rewrite !length_map; reflexivity).
  rewrite zip_map.
  replace (Z.to_nat (Z.of_nat n + -1)) with (n - 1)%nat by lia.
  replace (Z.to_nat (Z.of_nat n + -2)) with (n - 2)%nat by lia.
  assert (E : forall xi, (forall k, cheb_T xi (2 + k) = cheb_T xi k) ->
    cheb_series (firstn (n - 2) fk) xi
    = cheb_series (repeat 0 2 ++ firstn (n - 2) fk ++ repeat 0 (n - (2 + (n - 2)))) xi).
  { intros xi HT. rewrite cheb_series_padded. unfold cheb_series.
    apply sigma_ext. intros k _. rewrite HT. reflexivity. }
  cbn [map]. rewrite <- !E.
  - num_R. repeat f_equal; field.
  - intros k. cbn [Nat.add]. rewrite !cheb_T_minus_one. ring.
  - intros k. cbn [Nat.add].
    rewrite (proj2 (cheb_T_one (S k))), (proj1 (cheb_T_one k)). reflexivity.
Qed.

Lemma setslice_all_map {X : Type} (g : X -> R) (x : list X) :
  np.setslice (repeat 0 (length x)) (Slice None None) (map g x) = Ok (map g x).
Proof. rewrite <- (length_map g x). apply setslice_all. Qed.

(** What [eval] of the Neumann basis returns, with the factor array that
    it sets. *)
Lemma neumann_eval_value (self : ShenNeumannBasis.t R) (x fk : list R) (n : nat) :
  SpectralBase.N (ShenNeumannBasis.super self) = Z.of_nat n ->
  length fk = n -> (3 <= n)%nat ->
  length (ShenNeumannBasis._factor self) <> n ->
  ShenNeumannBasis.eval self x fk
  = Ok (map (fun xi =>
          sigma (fun k => nth k fk 0 *
                   (cheb_T xi k
                    - (INR k / (INR k + 2)) * (INR k / (INR k + 2)) * cheb_T xi (k + 2)))
            (n - 2)) x,
        ShenNeumannBasis.set_factor_array self fk).
Proof.
  intros HN Hfk Hn Hfac. unfold ShenNeumannBasis.eval.
  set (self' := ShenNeumannBasis.set_factor_array self fk).
  set (F := fun k : R => (let q := k / (k + #2) in q * q)%num).
  assert (Hf : ShenNeumannBasis._factor self' = map F (wavenumbers (Z.of_nat n) 2)).
  { unfold self', ShenNeumannBasis.set_factor_array.
    destruct (Nat.eqb_spec (length (ShenNeumannBasis._factor self)) (length fk)) as [E|_];
      [rewrite Hfk in E; contradiction|].
    cbn [ShenNeumannBasis._factor]. rewrite HN. reflexivity. }
  rewrite Hf.
  assert (Hfl : length (map F (wavenumbers (T:=R) (Z.of_nat n) 2)) = (n - 2)%nat)
    by (rewrite length_map, wavenumbers_length; lia).
  assert (Hs : np.getslice fk (Slice None (Some (-2)%Z)) = firstn (n - 2) fk).
  { unfold np.getslice. rewrite Hfk, indices_to_m2. reflexivity. }
  rewrite Hs.
  assert (Hl : length (firstn (n - 2) fk) = (n - 2)%nat)
    by (rewrite length_firstn; lia).
  assert (Hne : firstn (n - 2) fk <> [])
    by (intros E; rewrite E in Hl; cbn in Hl; lia).
  rewrite chebval_all_series by exact Hne. cbn [bind].
  rewrite setslice_all_map. cbn [bind].
  rewrite binop_same by lia. cbn [bind].
  set (r := np.zip num_mul _ _).
  assert (Hr : length r = (n - 2)%nat) by (unfold r; rewrite zip_length; lia).
  unfold work. rewrite Hfk.
  rewrite (@setslice_zeros n _ 2 (n - 2)) by (try apply indices_from2; lia).
  cbn [bind].
  rewrite chebval_all_series by (cbn; discriminate). cbn [bind].
  rewrite binop_same by (rewrite !length_map; reflexivity). cbn [bind].
  rewrite zip_map. do 2 f_equal. apply map_ext. intros xi.
  rewrite cheb_series_padded, cheb_series_firstn, Hr by lia.
  num_R. rewrite <- sigma_minus. apply sigma_ext. intros k Hk.
  unfold r. rewrite zip_nth by lia.
  rewrite (@map_nth_lt _ _ F _ k 0 0) by (rewrite wavenumbers_length; lia).
  rewrite wavenumbers_nth by lia.
  rewrite nth_firstn.
  replace (k <? n - 2)%nat with true by (symmetry; apply Nat.ltb_lt; exact Hk).
  unfold F. num_R. rewrite INR_IZR_INZ, (Nat.add_comm k 2). ring.
Qed.

(** [ShenNeumannBasis.eval(x, fk)], for [N >= 3] coefficients, is
    [sum_{k < N-2} fk[k] (T_k - (k/(k+2))**2 T_{k+2})] at every point: the
    last two coefficients play no part (exact arithmetic).  It leaves the
    factor array set. *)
Theorem neumann_eval_expansion (self : ShenNeumannBasis.t R) (x fk : list R) (n : nat) :
  SpectralBase.N (ShenNeumannBasis.super self) = Z.of_nat n ->
  length fk = n -> (3 <= n)%nat ->
  length (ShenNeumannBasis._factor self) <> n ->
  ShenNeumannBasis.eval self x fk
  = Ok (map (fun xi =>
          sigma (fun k => nth k fk 0 *
                   (cheb_T xi k
                    - (INR k / (INR k + 2)) * (INR k / (INR k + 2)) * cheb_T xi (k + 2)))
            (n - 2)) x,
        ShenNeumannBasis.set_factor_array self fk).
Proof. apply neumann_eval_value. Qed.

Lemma cheb_series_firstn_zeros (l : list R) (m : nat) (x : R) :
  (m <= length l)%nat -> (forall k, (m <= k)%nat -> nth k l 0 = 0) ->
  cheb_series (firstn m l) x = cheb_series l x.
Proof.
  intros Hm Hz. rewrite cheb_series_firstn by exact Hm. unfold cheb_series.
  replace (length l) with (m + (length l - m))%nat by lia.
  rewrite sigma_split, (@sigma_zero (fun k => nth (m + k) l 0 * cheb_T x (m + k))).
  - ring.
  - intros k _. rewrite Hz by lia. ring.
Qed.

(** What [eval] of the biharmonic basis returns, with the factor arrays
    that it sets. *)
Lemma biharmonic_eval_value (self : ShenBiharmonicBasis.t R) (x fk : list R) (n : nat) :
  SpectralBase.N (ShenBiharmonicBasis.super self) = Z.of_nat n ->
  length fk = n -> (5 <= n)%nat ->
  length (ShenBiharmonicBasis._factor1 self) <> (n - 4)%nat ->
  ShenBiharmonicBasis.eval self x fk
  = Ok (map (fun xi =>
          sigma (fun k => nth k fk 0 *
                   (cheb_T xi k
                    - 2 * (INR k + 2) / (INR k + 3) * cheb_T xi (k + 2)
                    + (INR k + 1) / (INR k + 3) * cheb_T xi (k + 4)))
            (n - 4)) x,
        ShenBiharmonicBasis.set_factor_arrays self fk).
Proof.
  intros HN Hfk Hn Hfac. unfold ShenBiharmonicBasis.eval.
  set (self' := ShenBiharmonicBasis.set_factor_arrays self fk).
  set (F1 := fun k : R => (#(-2) * (k + #2) / (k + #3))%num).
  set (F2 := fun k : R => ((k + #1) / (k + #3))%num).
  assert (Hf : ShenBiharmonicBasis._factor1 self' = map F1 (wavenumbers (Z.of_nat n) 4)
               /\ ShenBiharmonicBasis._factor2 self' = map F2 (wavenumbers (Z.of_nat n) 4)).
  { unfold self', ShenBiharmonicBasis.set_factor_arrays.
    assert (Hg : length (np.getslice fk (ShenBiharmonicBasis.slice_ self)) = (n - 4)%nat).
    { unfold ShenBiharmonicBasis.slice_. rewrite HN.
      apply (@getslice_length _ fk _ 0%nat); [|lia].
      rewrite Hfk. apply indices_0_to. lia. }
    rewrite Hg.
    destruct (Nat.eqb_spec (length (ShenBiharmonicBasis._factor1 self)) (n - 4)) as [E|_];
      [contradiction|].
    cbn [ShenBiharmonicBasis._factor1 ShenBiharmonicBasis._factor2]. rewrite HN.
    split; reflexivity. }
  destruct Hf as [Hf1 Hf2]. rewrite Hf1, Hf2.
  assert (Hw : length (wavenumbers (T:=R) (Z.of_nat n) 4) = (n - 4)%nat)
    by (rewrite wavenumbers_length; lia).
  assert (Hs : np.getslice fk (Slice None (Some (-4)%Z)) = firstn (n - 4) fk).
  { unfold np.getslice. rewrite Hfk, indices_to_m4. reflexivity. }
  rewrite Hs.
  assert (Hl : length (firstn (n - 4) fk) = (n - 4)%nat)
    by (rewrite length_firstn; lia).
  assert (Hne : firstn (n - 4) fk <> [])
    by (intros E; rewrite E in Hl; cbn in Hl; lia).
  rewrite chebval_all_series by exact Hne. cbn [bind].
  rewrite setslice_all_map. cbn [bind].
  rewrite binop_same by (rewrite length_map; lia). cbn [bind].
  set (r1 := np.zip num_mul (map F1 _) _).
  assert (Hr1 : length r1 = (n - 4)%nat)
    by (unfold r1; rewrite zip_length; rewrite length_map; lia).
  unfold work. rewrite Hfk.
  rewrite (@setslice_zeros n _ 2 (n - 4)) by (try apply indices_2_m2; lia).
  cbn [bind].
  set (w1 := repeat 0 2 ++ r1 ++ repeat 0 (n - (2 + (n - 4)))).
  assert (Hw1 : length w1 = n)
    by (unfold w1; rewrite !length_app, !repeat_length, Hr1; lia).
  assert (Hg1 : np.getslice w1 (Slice None (Some (-2)%Z)) = firstn (n - 2) w1).
  { unfold np.getslice. rewrite Hw1, indices_to_m2. reflexivity. }
  rewrite Hg1.
  assert (Hne1 : firstn (n - 2) w1 <> []).
  { intros E. apply (f_equal (@length R)) in E.
    rewrite length_firstn, Hw1 in E. cbn in E. lia. }
  rewrite chebval_all_series by exact Hne1. cbn [bind].
  rewrite binop_same by (rewrite !length_map; reflexivity). cbn [bind].
  rewrite zip_map.
  rewrite binop_same by (rewrite length_map; lia). cbn [bind].
  set (r2 := np.zip num_mul (map F2 _) _).
  assert (Hr2 : length r2 = (n - 4)%nat)
    by (unfold r2; rewrite zip_length; rewrite length_map; lia).
  rewrite (@setslice_ok _ w1 _ 4 (n - 4))
    by (rewrite ?Hw1; try apply indices_from4; lia).
  cbn [bind].
  assert (Hw3 : np.fill (firstn 4 w1 ++ r2 ++ skipn (4 + (n - 4)) w1)
                  (Slice None (Some 4%Z)) (#0)%num
                = repeat 0 4 ++ r2 ++ repeat 0 0).
  { unfold np.fill.
    rewrite length_app, length_app, length_firstn, length_skipn, Hw1, Hr2.
    rewrite indices_to_4 by lia.
    rewrite firstn_O. change (0 + 4)%nat with 4%nat. cbn [app]. f_equal.
    rewrite skipn_app, length_firstn, Hw1.
    rewrite (skipn_all2 (firstn 4 w1)) by (rewrite length_firstn; lia).
    replace (4 - Nat.min 4 n)%nat with 0%nat by lia.
    rewrite (skipn_all2 w1) by lia. reflexivity. }
  rewrite Hw3.
  rewrite chebval_all_series by (cbn; discriminate). cbn [bind].
  rewrite binop_same by (rewrite !length_map; reflexivity). cbn [bind].
  rewrite zip_map. do 2 f_equal. apply map_ext. intros xi.
  rewrite (@cheb_series_firstn_zeros w1 (n - 2)).
  2:{ rewrite Hw1. lia. }
  2:{ intros k Hk. unfold w1. rewrite app_nth2 by (rewrite repeat_length; lia).
      rewrite app_nth2 by (rewrite repeat_length; lia).
      apply nth_repeat. }
  unfold w1. rewrite !cheb_series_padded, cheb_series_firstn, Hr1, Hr2 by lia.
  num_R. rewrite <- !sigma_plus. apply sigma_ext. intros k Hk.
  unfold r1, r2. rewrite !zip_nth by (rewrite ?length_map; lia).
  rewrite (@map_nth_lt _ _ F1 _ k 0 0), (@map_nth_lt _ _ F2 _ k 0 0) by lia.
  rewrite wavenumbers_nth by lia.
  rewrite nth_firstn.
  replace (k <? n - 4)%nat with true by (symmetry; apply Nat.ltb_lt; exact Hk).
  unfold F1, F2. num_R.
  rewrite INR_IZR_INZ, (Nat.add_comm k 2), (Nat.add_comm k 4).
  unfold Rdiv. ring.
Qed.

(** [ShenBiharmonicBasis.eval(x, fk)], for [N >= 5] coefficients and a
    basis whose factor arrays are not yet set, is
    [sum_{k < N-4} fk[k] (T_k - 2(k+2)/(k+3) T_{k+2} + (k+1)/(k+3) T_{k+4})]
    at every point: the last four coefficients play no part (exact
    arithmetic). *)
Theorem biharmonic_eval_expansion (self : ShenBiharmonicBasis.t R) (x fk : list R) (n : nat) :
  SpectralBase.N (ShenBiharmonicBasis.super self) = Z.of_nat n ->
  length fk = n -> (5 <= n)%nat ->
  length (ShenBiharmonicBasis._factor1 self) <> (n - 4)%nat ->
  exists self',
    ShenBiharmonicBasis.eval self x fk
    = Ok (map (fun xi =>
            sigma (fun k => nth k fk 0 *
                     (cheb_T xi k
                      - 2 * (INR k + 2) / (INR k + 3) * cheb_T xi (k + 2)
                      + (INR k + 1) / (INR k + 3) * cheb_T xi (k + 4)))
              (n - 4)) x, self')
    /\ ShenBiharmonicBasis._factor1 self'
       = map (fun k => -2 * (k + 2) / (k + 3)) (wavenumbers (Z.of_nat n) 4)
    /\ ShenBiharmonicBasis._factor2 self'
       = map (fun k => (k + 1) / (k + 3)) (wavenumbers (Z.of_nat n) 4).
Proof.
  intros HN Hfk Hn Hfac.
  exists (ShenBiharmonicBasis.set_factor_arrays self fk).
  split; [apply biharmonic_eval_value; assumption|].
  unfold ShenBiharmonicBasis.set_factor_arrays.
  assert (Hg : length (np.getslice fk (ShenBiharmonicBasis.slice_ self)) = (n - 4)%nat).
  { unfold ShenBiharmonicBasis.slice_. rewrite HN.
    apply (@getslice_length _ fk _ 0%nat); [|lia].
    rewrite Hfk. apply indices_0_to. lia. }
  rewrite Hg.
  destruct (Nat.eqb_spec (length (ShenBiharmonicBasis._factor1 self)) (n - 4)) as [E|_];
    [contradiction|].
  cbn [ShenBiharmonicBasis._factor1 ShenBiharmonicBasis._factor2]. rewrite HN.
  split; reflexivity.
Qed.

(** An expansion in the biharmonic basis vanishes at both ends of the
    interval: [ShenBiharmonicBasis.eval] at [x = 1] and [x = -1] is zero for
    every coefficient array (exact arithmetic). *)
Theorem biharmonic_eval_boundary (self : ShenBiharmonicBasis.t R) (fk : list R) (n : nat) :
  SpectralBase.N (ShenBiharmonicBasis.super self) = Z.of_nat n ->
  length fk = n -> (5 <= n)%nat ->
  length (ShenBiharmonicBasis._factor1 self) <> (n - 4)%nat ->
  exists self', ShenBiharmonicBasis.eval self [1; -1] fk = Ok ([0; 0], self').
Proof.
  intros HN Hfk Hn Hfac.
  exists (ShenBiharmonicBasis.set_factor_arrays self fk).
  rewrite (@biharmonic_eval_value self [1; -1] fk n) by assumption.
  assert (Hk : forall k, INR k + 3 <> 0).
  { intros k. pose proof (pos_INR k). lra. }
  cbn [map].
  match goal with
  | |- Ok ([?a; ?b], _) = _ =>
      assert (Ha : a = 0); [|assert (Hb : b = 0); [|rewrite Ha, Hb; reflexivity]]
  end.
  - apply sigma_zero. intros k _.
    replace (k + 2)%nat with (S (S k)) by lia.
    replace (k + 4)%nat with (S (S (S (S k)))) by lia.
    rewrite (proj2 (cheb_T_one (S (S (S k))))), (proj2 (cheb_T_one (S k))),
      (proj1 (cheb_T_one k)).
    field. apply Hk.
  - apply sigma_zero. intros k _.
    replace (k + 2)%nat with (S (S k)) by lia.
    replace (k + 4)%nat with (S (S (S (S k)))) by lia.
    rewrite !cheb_T_minus_one. field. apply Hk.
Qed.

(** ** The inverse transform of the plain basis *)

(** [T_k(cos t) = cos (k t)] *)
Lemma cheb_T_cos (t : R) (k : nat) :
  cheb_T (cos t) k = cos (INR k * t)
  /\ cheb_T (cos t) (S k) = cos (INR (S k) * t).
Proof.
  induction k as [|k [IH0 IH1]].
  - split; cbn.
    + replace (0 * t) with 0 by ring. symmetry. apply cos_0.
    + f_equal. ring.
  - split; [exact IH1|].
    change (cheb_T (cos t) (S (S k)))
      with (2 * cos t * cheb_T (cos t) (S k) - cheb_T (cos t) k).
    rewrite IH0, IH1.
    replace (INR (S (S k)) * t) with (INR (S k) * t + t)
      by (rewrite (S_INR (S k)); ring).
    replace (INR k * t) with (INR (S k) * t - t) by (rewrite (S_INR k); ring).
    rewrite cos_plus, cos_minus. ring.
Qed.

Lemma cos_INR_PI (k : nat) : cos (INR k * PI) = if Nat.even k then 1 else -1.
Proof.
  induction k as [|k IH].
  - cbn. replace (0 * PI) with 0 by ring. apply cos_0.
  - rewrite S_INR. replace ((INR k + 1) * PI) with (INR k * PI + PI) by ring.
    rewrite neg_cos, IH, Nat.even_succ, <- Nat.negb_even.
    destruct (Nat.even k); cbn; ring.
Qed.

Lemma modslice_all_scalar {A : Type} (f : A -> A -> A) (a : list A) (y : A) :
  np.modslice f a (Slice None None) [y] = Ok (map (fun x => f x y) a).
Proof.
  unfold np.modslice.
  assert (Hg : np.getslice a (Slice None None) = a).
  { unfold np.getslice. rewrite indices_all. cbn [skipn]. apply firstn_all. }
  rewrite Hg.
  assert (Hb : np.binop f a [y] = Ok (map (fun x => f x y) a)).
  { unfold np.binop. destruct a as [|x [|x' a]]; reflexivity. }
  rewrite Hb. cbn [bind]. rewrite indices_all. cbn [snd].
  rewrite length_map, Nat.eqb_refl.
  rewrite (@setslice_ok _ a _ 0 (length a)) by (try apply indices_all; apply length_map).
  cbn [firstn Nat.add app]. rewrite skipn_all, app_nil_r. reflexivity.
Qed.

Lemma combine_map_self {A B : Type} (g : A -> B) (l : list A) :
  combine l (map g l) = map (fun k => (k, g k)) l.
Proof. induction l as [|x l IH]; [reflexivity|]. cbn. rewrite IH. reflexivity. Qed.

(** [a[start::2] op= [y]] on an array given entry by entry. *)
Lemma modstep_map_seq {A : Type} (f : A -> A -> A) (g : nat -> A) (n start : nat) (y : A) :
  np.modstep f (map g (seq 0 n)) start 2 [y]
  = Ok (map (fun k => if ((start <=? k) && ((k - start) mod 2 =? 0))%nat
                      then f (g k) y else g k) (seq 0 n)).
Proof.
  unfold np.modstep. rewrite length_map, length_seq.
  set (count := ((n - start + (2 - 1)) / 2)%nat).
  assert (Hb : np.broadcast count [y] = Ok (repeat y count)).
  { unfold np.broadcast. cbn [length].
    destruct (Nat.eqb_spec 1 count) as [E|_]; [|reflexivity].
    rewrite <- E. reflexivity. }
  rewrite Hb. cbn [bind]. rewrite combine_map_self, map_map. f_equal.
  apply map_ext_in. intros k Hk. apply in_seq in Hk.
  destruct ((start <=? k)%nat && ((k - start) mod 2 =? 0)%nat) eqn:E; [|reflexivity].
  apply andb_prop in E. destruct E as [E1 _]. apply Nat.leb_le in E1.
  rewrite nth_error_repeat; [reflexivity|].
  unfold count.
  apply Nat.Div0.div_lt_upper_bound.
  pose proof (Nat.div_mod_eq (n - start + (2 - 1)) 2) as D.
  pose proof (Nat.mod_upper_bound (n - start + (2 - 1)) 2 ltac:(lia)) as M.
  lia.
Qed.

Lemma mod2_even (k : nat) : (k mod 2 =? 0)%nat = Nat.even k.
Proof.
  destruct (Nat.even k) eqn:E.
  - apply Nat.even_spec in E. destruct E as [m ->].
    rewrite Nat.mul_comm, Nat.Div0.mod_mul. reflexivity.
  - assert (O : Nat.odd k = true) by (rewrite <- Nat.negb_even, E; reflexivity).
    apply Nat.odd_spec in O. destruct O as [m ->].
    rewrite Nat.add_comm, Nat.mul_comm, Nat.Div0.mod_add. reflexivity.
Qed.

Lemma select_even (k : nat) :
  ((0 <=? k) && ((k - 0) mod 2 =? 0))%nat = Nat.even k.
Proof. rewrite Nat.sub_0_r, mod2_even. reflexivity. Qed.

Lemma select_odd (k : nat) :
  ((1 <=? k) && ((k - 1) mod 2 =? 0))%nat = negb (Nat.even k).
Proof.
  destruct k as [|k]; [reflexivity|].
  cbn [Nat.leb andb]. replace (S k - 1)%nat with k by lia.
  rewrite mod2_even, Nat.even_succ, <- Nat.negb_even, Bool.negb_involutive.
  reflexivity.
Qed.

(** The Gauss points and weights, entry by entry. *)
Lemma gauss_points_weights (self : SpectralBase.t R) (n : nat) :
  SpectralBase.quad self = GC -> (1 <= n)%nat ->
  ChebyshevBase.points_and_weights self (Z.of_nat n) false
  = Ok (map (fun j => cos ((2 * INR j + 1) * PI / (2 * INR n))) (seq 0 n),
        repeat (PI / INR n) n).
Proof.
  intros Hq Hn. unfold ChebyshevBase.points_and_weights. rewrite Hq.
  unfold n_cheb.chebgauss.
  replace (Z.of_nat n <=? 0)%Z with false by (symmetry; apply Z.leb_gt; lia).
  cbn [bind]. rewrite Nat2Z.id. do 2 f_equal.
  - apply map_ext. intros j. num_R. change (@num_cos R Cos_R) with cos.
    change (@num_pi R Pi_R) with PI. f_equal.
    rewrite plus_IZR, mult_IZR, <- !INR_IZR_INZ.
    assert (INR n <> 0) by (apply not_0_INR; lia).
    field. assumption.
  - num_R. change (@num_pi R Pi_R) with PI. rewrite <- INR_IZR_INZ. f_equal. ring.
Qed.

(** The Gauss-Lobatto points and weights, entry by entry. *)
Lemma gauss_lobatto_points_weights (self : SpectralBase.t R) (n : nat) :
  SpectralBase.quad self = GL -> (2 <= n)%nat ->
  exists w,
    ChebyshevBase.points_and_weights self (Z.of_nat n) false
    = Ok (map (fun j => cos (INR j * PI / INR (n - 1))) (seq 0 n), w)
    /\ length w = n
    /\ forall j, (j < n)%nat ->
         nth j w 0 = if ((j =? 0) || (j =? n - 1))%nat
                     then PI / INR (n - 1) / 2 else PI / INR (n - 1).
Proof.
  intros Hq Hn. unfold ChebyshevBase.points_and_weights. rewrite Hq.
  unfold n_cheb.chebpts2.
  replace (Z.of_nat n <? 2)%Z with false by (symmetry; apply Z.ltb_ge; lia).
  cbn [bind]. rewrite Nat2Z.id.
  set (c := (num_pi / #(Z.of_nat n - 1))%num).
  assert (Hc : c = PI / INR (n - 1)).
  { unfold c. num_R. change (@num_pi R Pi_R) with PI.
    rewrite INR_IZR_INZ. do 2 f_equal. lia. }
  assert (Hr : length (repeat c n) = n) by apply repeat_length.
  rewrite (@moditem_ok _ _ (repeat c n) 0%Z 0%nat 0)
    by (rewrite ?Hr; try (apply index_nonneg); lia).
  cbn [bind].
  set (w1 := np.update (repeat c n) 0 (nth 0 (repeat c n) 0 / #2)%num).
  assert (H1 : length w1 = n) by (unfold w1; rewrite update_length; lia).
  rewrite (@moditem_ok _ _ w1 (-1)%Z (n - 1)%nat 0)
    by (rewrite ?H1; try (rewrite index_neg by lia; f_equal); lia).
  cbn [bind].
  set (w2 := np.update w1 (n - 1) (nth (n - 1) w1 0 / #2)%num).
  assert (H2 : length w2 = n) by (unfold w2; rewrite update_length; lia).
  assert (Hn1 : INR (n - 1) <> 0) by (apply not_0_INR; lia).
  exists w2. split; [|split; [exact H2|]].
  - do 2 f_equal. rewrite map_map. apply map_ext_in. intros j Hj.
    apply in_seq in Hj. num_R. change (@num_cos R Cos_R) with cos.
    change (@num_pi R Pi_R) with PI.
    replace (IZR (Z.of_nat n - 1)) with (INR (n - 1))
      by (rewrite INR_IZR_INZ; f_equal; lia).
    destruct (Nat.eqb_spec (S j) n) as [Ej|Ej].
    + replace (INR j) with (INR (n - 1)) by (f_equal; lia).
      replace (INR (n - 1) * PI / INR (n - 1)) with PI by (field; exact Hn1).
      rewrite cos_0, cos_PI. reflexivity.
    + rewrite cos_plus, cos_neg, sin_neg, cos_PI, sin_PI, <- INR_IZR_INZ.
      replace (INR j * ((0 - - PI) / INR (n - 1)))
        with (INR j * PI / INR (n - 1)) by (field; exact Hn1).
      ring.
  - intros j Hj. unfold w2. rewrite update_nth by lia.
    unfold w1. rewrite !update_nth by lia.
    rewrite !nth_repeat_lt by lia.
    replace (n - 1 =? 0)%nat with false by (symmetry; apply Nat.eqb_neq; lia).
    num_R. rewrite Hc.
    destruct (Nat.eqb_spec j (n - 1)), (Nat.eqb_spec j 0); cbn [orb];
      try reflexivity; lia.
Qed.

Lemma getslice_first (a : list R) :
  (1 <= length a)%nat ->
  np.getslice a (Slice (Some 0%Z) (Some 1%Z)) = [nth 0 a 0].
Proof. intros Ha. destruct a as [|x a]; [cbn in Ha; lia|]. reflexivity. Qed.

Lemma getslice_last (a : list R) :
  (1 <= length a)%nat ->
  np.getslice a (Slice (Some (-1)%Z) None) = [nth (length a - 1) a 0].
Proof.
  intros Ha.
  assert (Hi : np.indices (length a) (Slice (Some (-1)%Z) None)
               = (length a - 1, 1)%nat).
  { unfold np.indices, np.bound. cbn. f_equal; lia. }
  pose proof (@getslice_length _ a _ _ _ Hi ltac:(lia)) as Hl.
  pose proof (@getslice_nth _ a _ _ _ 0%nat 0 Hi ltac:(lia)) as Hx.
  rewrite Nat.add_0_r in Hx.
  destruct (np.getslice a _) as [|y [|z l]]; cbn in Hl; try lia.
  cbn in Hx. rewrite Hx. reflexivity.
Qed.

Lemma sigma_mul_r (f : nat -> R) (c : R) (n : nat) :
  sigma f n * c = sigma (fun j => f j * c) n.
Proof.
  induction n as [|n IH]; [rewrite !sigma_R_0; ring|].
  rewrite !sigma_R_S, <- IH. ring.
Qed.

Lemma sigma_first (f : nat -> R) (n : nat) :
  sigma f (S n) = f 0%nat + sigma (fun j => f (S j)) n.
Proof.
  change (S n) with (1 + n)%nat. rewrite sigma_split, sigma_R_S, sigma_R_0.
  cbn [Nat.add]. ring.
Qed.

Lemma evaluate_expansion_all_gauss (self : Basis.t R) (fk : list R) :
  SpectralBase.quad (Basis.super self) = GC -> (1 <= length fk)%nat ->
  Basis.evaluate_expansion_all (fftw.dct DCT3) self fk
  = Ok (map (fun k => cheb_series fk
                        (cos ((2 * INR k + 1) * PI / (2 * INR (length fk)))))
          (seq 0 (length fk))).
Proof.
  intros Hq Hn. unfold Basis.evaluate_expansion_all. rewrite Hq.
  unfold sl. rewrite getslice_first by exact Hn. cbn [map].
  rewrite modslice_all_scalar. unfold fftw.dct. rewrite !map_map. f_equal.
  apply map_ext_in. intros k Hk. apply in_seq in Hk.
  set (n := length fk) in *.
  assert (Hn0 : INR n <> 0) by (apply not_0_INR; lia).
  unfold cheb_series. fold n.
  destruct n as [|m] eqn:En; [lia|]. rewrite sigma_first.
  replace (S m - 1)%nat with m by lia.
  rewrite (sigma_ext (fun j => nth (S j) fk 0 * cheb_T (cos ((2 * INR k + 1) * PI / (2 * INR (S m)))) (S j))
                     (fun j => (nth (S j) fk (#0) * num_cos (num_pi * #(Z.of_nat (S j)) * (#(Z.of_nat k) + num_half) / #(Z.of_nat (S m))))%num)).
  - num_R. cbn [cheb_T]. field.
  - intros j Hj. rewrite (proj1 (cheb_T_cos _ (S j))).
    num_R. change (@num_cos R Cos_R) with cos. change (@num_pi R Pi_R) with PI.
    rewrite <- !INR_IZR_INZ. do 2 f_equal. field. exact Hn0.
Qed.

Lemma evaluate_expansion_all_lobatto (self : Basis.t R) (fk : list R) :
  SpectralBase.quad (Basis.super self) = GL -> (2 <= length fk)%nat ->
  Basis.evaluate_expansion_all (fftw.dct DCT1) self fk
  = Ok (map (fun k => cheb_series fk (cos (INR k * PI / INR (length fk - 1))))
          (seq 0 (length fk))).
Proof.
  intros Hq Hn. unfold Basis.evaluate_expansion_all. rewrite Hq.
  unfold sl. rewrite getslice_first, getslice_last by lia. cbn [map].
  rewrite modslice_all_scalar. cbn [bind].
  unfold fftw.dct. rewrite !map_map.
  rewrite modstep_map_seq. cbn [bind]. rewrite modstep_map_seq. f_equal.
  apply map_ext_in. intros k Hk. apply in_seq in Hk.
  rewrite select_even, select_odd.
  set (n := length fk) in *.
  assert (Hn1 : INR (n - 1) <> 0) by (apply not_0_INR; lia).
  unfold cheb_series. fold n.
  destruct n as [|[|m]] eqn:En; try lia.
  replace (S (S m) - 1)%nat with (S m) in * by lia.
  replace (S (S m) - 2)%nat with m by lia.
  rewrite sigma_R_S, sigma_first.
  rewrite (sigma_ext (fun j => nth (S j) fk 0 * cheb_T (cos (INR k * PI / INR (S m))) (S j))
                     (fun j => (nth (S j) fk (#0) * num_cos (num_pi * #(Z.of_nat (S j)) * #(Z.of_nat k) / #(Z.of_nat (S m))))%num)).
  - rewrite (proj1 (cheb_T_cos _ (S m))).
    replace (INR (S m) * (INR k * PI / INR (S m))) with (INR k * PI)
      by (field; exact Hn1).
    rewrite cos_INR_PI. unfold fftw.alt. num_R. cbn [cheb_T].
    destruct (Nat.even k); cbn [negb]; field.
  - intros j Hj. rewrite (proj1 (cheb_T_cos _ (S j))).
    num_R. change (@num_cos R Cos_R) with cos. change (@num_pi R Pi_R) with PI.
    rewrite <- !INR_IZR_INZ. do 2 f_equal. field. exact Hn1.
Qed.

(** [evaluate_expansion_all] of the plain basis, with the inverse cosine
    transform that the basis plans (type 3 for Gauss, type 1 for
    Gauss-Lobatto), returns the values of the Chebyshev series
    [sum_k fk[k] T_k] at the quadrature points: what [eval] returns at the
    points of [points_and_weights] (exact arithmetic). *)
Theorem evaluate_expansion_all_at_points (self : Basis.t R) (fk : list R) :
  SpectralBase.N (Basis.super self) = Z.of_nat (length fk) ->
  (SpectralBase.quad (Basis.super self) = GC /\ Basis._xfftn_bck self = DCT3
   /\ (1 <= length fk)%nat)
  \/ (SpectralBase.quad (Basis.super self) = GL /\ Basis._xfftn_bck self = DCT1
      /\ (2 <= length fk)%nat) ->
  exists pts w ys,
    ChebyshevBase.points_and_weights (Basis.super self)
      (SpectralBase.N (Basis.super self)) false = Ok (pts, w)
    /\ Basis.evaluate_expansion_all (fftw.dct (Basis._xfftn_bck self)) self fk = Ok ys
    /\ Basis.eval self pts fk = Ok ys.
Proof.
  intros HN [(Hq & Hb & Hn) | (Hq & Hb & Hn)]; rewrite HN, Hb.
  - rewrite gauss_points_weights by assumption.
    do 3 eexists. split; [reflexivity|].
    rewrite evaluate_expansion_all_gauss by assumption.
    split; [reflexivity|].
    unfold Basis.eval. rewrite eval_all_series by (destruct fk; [cbn in Hn; lia | discriminate]).
    rewrite map_map. reflexivity.
  - destruct (@gauss_lobatto_points_weights (Basis.super self) (length fk) Hq Hn)
      as (w & E & _).
    rewrite E. do 3 eexists. split; [reflexivity|].
    rewrite evaluate_expansion_all_lobatto by assumption.
    split; [reflexivity|].
    unfold Basis.eval. rewrite eval_all_series by (destruct fk; [cbn in Hn; lia | discriminate]).
    rewrite map_map. reflexivity.
Qed.

(** ** The scalar product as a quadrature *)

(** The fast scalar product of the plain basis, with the cosine transform
    that the basis plans (type 2 for Gauss, type 1 for Gauss-Lobatto), is the
    quadrature of the input against the Chebyshev polynomials: entry [k] is
    [sum_j u[j] T_k(x_j) w_j], with the points and weights of
    [points_and_weights] (exact arithmetic). *)
Theorem scalar_product_quadrature
  (vandermonde_scalar_product : list R -> list R -> list R)
  (self : Basis.t R) (u : list R) (b : buffers R) :
  SpectralBase.N (Basis.super self) = Z.of_nat (length u) ->
  length (input_array b) = length u -> (2 <= length u)%nat ->
  (SpectralBase.quad (Basis.super self) = GC /\ Basis._xfftn_fwd self = DCT2)
  \/ (SpectralBase.quad (Basis.super self) = GL /\ Basis._xfftn_fwd self = DCT1) ->
  exists pts w out b',
    ChebyshevBase.points_and_weights (Basis.super self)
      (SpectralBase.N (Basis.super self)) false = Ok (pts, w)
    /\ Basis.scalar_product (fftw.dct (Basis._xfftn_fwd self))
         vandermonde_scalar_product self (Some u) None true b = Ok (out, b')
    /\ length out = length u
    /\ forall k, (k < length u)%nat ->
         nth k out 0
         = sigma (fun j => nth j u 0 * cheb_T (nth j pts 0) k * nth j w 0)
             (length u).
Proof.
  intros HN Hb Hn Hq.
  set (n := length u) in *.
  assert (Hfast := @scalar_product_fast R _ _ (fftw.dct (Basis._xfftn_fwd self))
                     vandermonde_scalar_product self u b).
  rewrite Hb in Hfast. fold n in Hfast.
  specialize (Hfast HN eq_refl ltac:(lia)). cbv zeta in Hfast.
  assert (Hlen : forall t, length (fftw.dct t u) = n)
    by (intros t; unfold fftw.dct; rewrite length_map, length_seq; reflexivity).
  destruct Hq as [[Hq Ht] | [Hq Ht]]; rewrite Hq, Ht in Hfast; rewrite Ht, HN.
  - rewrite gauss_points_weights by (try exact Hq; lia).
    do 4 eexists. split; [reflexivity|]. split; [exact Hfast|].
    split; [rewrite length_map; apply Hlen|].
    intros k Hk.
    rewrite (@map_nth_lt _ _ _ _ k 0 0) by (rewrite Hlen; exact Hk).
    unfold fftw.dct. fold n.
    rewrite (@map_nth_lt _ _ _ _ k 0%nat 0) by (rewrite length_seq; exact Hk).
    rewrite seq_nth by exact Hk. cbn [Nat.add].
    assert (Hn0 : INR n <> 0) by (apply not_0_INR; lia).
    rewrite (sigma_ext
      (fun j => nth j u 0
                * cheb_T (nth j (map (fun j => cos ((2 * INR j + 1) * PI / (2 * INR n)))
                                   (seq 0 n)) 0) k
                * nth j (repeat (PI / INR n) n) 0)
      (fun j => (nth j u (#0) * num_cos (num_pi * (#(Z.of_nat j) + num_half)
                                          * #(Z.of_nat k) / #(Z.of_nat n)))%num
                * (PI / INR n))).
    + rewrite <- sigma_mul_r. num_R. change (@num_pi R Pi_R) with PI.
      rewrite HN, mult_IZR. rewrite (INR_IZR_INZ n) in Hn0 |- *. field. exact Hn0.
    + intros j Hj.
      rewrite (@map_nth_lt _ _ _ _ j 0%nat 0) by (rewrite length_seq; exact Hj).
      rewrite seq_nth by exact Hj. cbn [Nat.add].
      rewrite nth_repeat_lt by exact Hj.
      rewrite (proj1 (cheb_T_cos _ k)).
      num_R. change (@num_cos R Cos_R) with cos. change (@num_pi R Pi_R) with PI.
      rewrite <- !INR_IZR_INZ. do 3 f_equal. field. exact Hn0.
  - destruct (@gauss_lobatto_points_weights (Basis.super self) n Hq Hn)
      as (w & E & Hwl & Hw).
    rewrite E. do 4 eexists. split; [reflexivity|]. split; [exact Hfast|].
    split; [rewrite length_map; apply Hlen|].
    intros k Hk.
    rewrite (@map_nth_lt _ _ _ _ k 0 0) by (rewrite Hlen; exact Hk).
    unfold fftw.dct. fold n.
    rewrite (@map_nth_lt _ _ _ _ k 0%nat 0) by (rewrite length_seq; exact Hk).
    rewrite seq_nth by exact Hk. cbn [Nat.add].
    assert (Hn1 : INR (n - 1) <> 0) by (apply not_0_INR; lia).
    assert (Hp : forall j, (j < n)%nat ->
      cheb_T (nth j (map (fun j => cos (INR j * PI / INR (n - 1))) (seq 0 n)) 0) k
      = cos (INR k * (INR j * PI / INR (n - 1)))).
    { intros j Hj.
      rewrite (@map_nth_lt _ _ _ _ j 0%nat 0) by (rewrite length_seq; exact Hj).
      rewrite seq_nth by exact Hj. cbn [Nat.add]. apply (proj1 (cheb_T_cos _ k)). }
    destruct n as [|[|m]] eqn:En; try lia.
    replace (S (S m) - 1)%nat with (S m) in * by lia.
    replace (S (S m) - 2)%nat with m by lia.
    rewrite sigma_R_S, sigma_first.
    rewrite !Hp, !Hw by lia.
    replace ((0 =? 0) || (0 =? S m))%nat with true by reflexivity.
    replace ((S m =? 0) || (S m =? S m))%nat with true
      by (rewrite Nat.eqb_refl; reflexivity).
    rewrite (sigma_ext
      (fun j => nth (S j) u 0
                * cheb_T (nth (S j) (map (fun j => cos (INR j * PI / INR (S m)))
                                       (seq 0 (S (S m)))) 0) k
                * nth (S j) w 0)
      (fun j => (nth (S j) u (#0) * num_cos (num_pi * #(Z.of_nat (S j))
                                              * #(Z.of_nat k) / #(Z.of_nat (S m))))%num
                * (PI / INR (S m)))).
    + rewrite <- sigma_mul_r.
      replace (INR k * (INR 0 * PI / INR (S m))) with 0
        by (cbn [INR]; field; exact Hn1).
      replace (INR k * (INR (S m) * PI / INR (S m))) with (INR k * PI)
        by (field; exact Hn1).
      rewrite cos_0, cos_INR_PI. unfold fftw.alt.
      num_R. change (@num_pi R Pi_R) with PI.
      rewrite HN, mult_IZR, minus_IZR, <- (INR_IZR_INZ (S (S m))), (S_INR (S m)).
      destruct (Nat.even k); field; exact Hn1.
    + intros j Hj. rewrite Hp, Hw by lia.
      replace ((S j =? 0) || (S j =? S m))%nat with false
        by (symmetry; apply Bool.orb_false_iff; split; apply Nat.eqb_neq; lia).
      num_R. change (@num_cos R Cos_R) with cos. change (@num_pi R Pi_R) with PI.
      rewrite <- !INR_IZR_INZ. do 3 f_equal. field. exact Hn1.
Qed.

End ChebyshevSeries.

(** ** There and back: the plain basis *)

Section RoundTrip.
Local Open Scope R_scope.

Lemma sin_INR_PI (k : nat) : sin (INR k * PI) = 0.
Proof.
  induction k as [|k IH].
  - cbn. replace (0 * PI) with 0 by ring. apply sin_0.
  - rewrite S_INR. replace ((INR k + 1) * PI) with (INR k * PI + PI) by ring.
    rewrite neg_sin, IH. ring.
Qed.

(** [2 sin(p/2) (cos p + cos 2p + ... + cos np) = sin((n + 1/2) p) - sin(p/2)] *)
Lemma dirichlet_kernel (p : R) (n : nat) :
  2 * sin (p / 2) * sigma (fun k => cos (INR (S k) * p)) n
  = sin ((INR n + / 2) * p) - sin (p / 2).
Proof.
  induction n as [|n IH].
  - rewrite sigma_R_0. cbn [INR]. replace ((0 + / 2) * p) with (p / 2) by field. ring.
  - rewrite sigma_R_S, Rmult_plus_distr_l, IH.
    replace ((INR (S n) + / 2) * p) with (INR (S n) * p + p / 2) by field.
    replace ((INR n + / 2) * p) with (INR (S n) * p - p / 2)
      by (rewrite S_INR; field).
    rewrite sin_plus, sin_minus. ring.
Qed.

Lemma sin_grid_pos (m n : nat) :
  (0 < m < 2 * n)%nat -> 0 < sin (INR m * PI / INR n / 2).
Proof.
  intros Hm.
  assert (Hn : 0 < INR n) by (apply lt_0_INR; lia).
  assert (Hm0 : 0 < INR m) by (apply lt_0_INR; lia).
  assert (Hm2 : INR m < 2 * INR n).
  { replace 2 with (INR 2) by reflexivity. rewrite <- mult_INR. apply lt_INR. lia. }
  pose proof PI_RGT_0 as Hpi.
  set (t := INR m / (2 * INR n)).
  assert (Ht0 : 0 < t) by (apply Rdiv_lt_0_compat; lra).
  assert (Ht1 : t < 1).
  { unfold t. apply (Rmult_lt_reg_r (2 * INR n)); [lra|].
    unfold Rdiv. rewrite Rmult_assoc, Rinv_l by lra. lra. }
  replace (INR m * PI / INR n / 2) with (PI * t) by (unfold t; field; lra).
  apply sin_gt_0; nra.
Qed.

(** The sum of [cos (k m pi / n)] over [0 < k < n], for [0 < m < 2n]. *)
Lemma cos_sum_grid (m n : nat) :
  (0 < m < 2 * n)%nat ->
  sigma (fun k => cos (INR (S k) * (INR m * PI / INR n))) (n - 1)
  = - (1 + cos (INR m * PI)) / 2.
Proof.
  intros Hm.
  assert (Hn : INR n <> 0) by (apply not_0_INR; lia).
  pose proof (@sin_grid_pos m n Hm) as Hs.
  pose proof (dirichlet_kernel (INR m * PI / INR n) (n - 1)) as D.
  replace ((INR (n - 1) + / 2) * (INR m * PI / INR n))
    with (INR m * PI - INR m * PI / INR n / 2) in D.
  2:{ rewrite minus_INR by lia. cbn [INR]. field. exact Hn. }
  rewrite sin_minus, sin_INR_PI in D.
  apply (Rmult_eq_reg_l (2 * sin (INR m * PI / INR n / 2))); [|lra].
  rewrite D. field.
Qed.

Lemma sigma_swap (f : nat -> nat -> R) (m n : nat) :
  sigma (fun k => sigma (fun j => f k j) n) m
  = sigma (fun j => sigma (fun k => f k j) m) n.
Proof.
  induction m as [|m IH].
  - rewrite sigma_R_0. symmetry. apply sigma_zero. intros; apply sigma_R_0.
  - rewrite sigma_R_S, IH, <- sigma_plus. apply sigma_ext. intros j _.
    rewrite sigma_R_S. reflexivity.
Qed.

Lemma sigma_delta (g : nat -> R) (i n : nat) :
  (i < n)%nat -> sigma (fun j => if (j =? i)%nat then g j else 0) n = g i.
Proof.
  induction n as [|n IH]; intros Hi; [lia|].
  rewrite sigma_R_S. destruct (Nat.eqb_spec n i) as [->|Hne].
  - rewrite sigma_zero; [ring|]. intros k Hk.
    replace (k =? i)%nat with false by (symmetry; apply Nat.eqb_neq; lia).
    reflexivity.
  - rewrite IH by lia. ring.
Qed.

Lemma cos_sum_zero (n cnt : nat) :
  sigma (fun k => cos (INR (S k) * (INR 0 * PI / INR n))) cnt = INR cnt.
Proof.
  rewrite (sigma_ext _ (fun _ => 1)).
  - rewrite sigma_const. ring.
  - intros k _. cbn [INR].
    replace (_ * (0 * PI / INR n)) with 0 by (unfold Rdiv; ring).
    apply cos_0.
Qed.

Lemma cos_sum_full (n cnt : nat) :
  (0 < n)%nat ->
  sigma (fun k => cos (INR (S k) * (INR (2 * n) * PI / INR n))) cnt = INR cnt.
Proof.
  intros Hn. assert (Hn0 : INR n <> 0) by (apply not_0_INR; lia).
  rewrite (sigma_ext _ (fun _ => 1)).
  - rewrite sigma_const. ring.
  - intros k _.
    replace (INR (S k) * (INR (2 * n) * PI / INR n)) with (INR (2 * S k) * PI)
      by (rewrite !mult_INR; cbn [INR]; field; exact Hn0).
    rewrite cos_INR_PI, Nat.even_mul. reflexivity.
Qed.

(** The distance of two indices. *)
Lemma cos_sum_diff (n cnt i j : nat) (ti tj : R) :
  ti = INR i * PI / INR n -> tj = INR j * PI / INR n -> (0 < n)%nat ->
  sigma (fun k => cos (INR (S k) * ti) * cos (INR (S k) * tj) * 2) cnt
  = sigma (fun k => cos (INR (S k) * (INR ((i - j) + (j - i)) * PI / INR n))) cnt
    + sigma (fun k => cos (INR (S k) * (INR (i + j) * PI / INR n))) cnt.
Proof.
  intros -> -> Hn. assert (Hn0 : INR n <> 0) by (apply not_0_INR; lia).
  rewrite <- sigma_plus. apply sigma_ext. intros k _.
  set (a := INR (S k) * (INR i * PI / INR n)).
  set (b := INR (S k) * (INR j * PI / INR n)).
  replace (INR (S k) * (INR (i + j) * PI / INR n)) with (a + b)
    by (unfold a, b; rewrite plus_INR; field; exact Hn0).
  destruct (Nat.le_gt_cases j i) as [Hle|Hlt].
  - replace (INR (S k) * (INR ((i - j) + (j - i)) * PI / INR n)) with (a - b).
    + rewrite cos_plus, cos_minus. ring.
    + unfold a, b. replace (i - j + (j - i))%nat with (i - j)%nat by lia.
      rewrite minus_INR by lia. field. exact Hn0.
  - replace (INR (S k) * (INR ((i - j) + (j - i)) * PI / INR n)) with (b - a).
    + rewrite cos_plus, cos_minus. ring.
    + unfold a, b. replace (i - j + (j - i))%nat with (j - i)%nat by lia.
      rewrite minus_INR by lia. field. exact Hn0.
Qed.

(** The Chebyshev polynomials are orthogonal on the Gauss grid. *)
Lemma gauss_kernel (n i j : nat) :
  (i < n)%nat -> (j < n)%nat ->
  1 + 2 * sigma (fun k => cos (INR (S k) * ((2 * INR i + 1) * PI / (2 * INR n)))
                          * cos (INR (S k) * ((2 * INR j + 1) * PI / (2 * INR n))))
            (n - 1)
  = if (j =? i)%nat then INR n else 0.
Proof.
  intros Hi Hj. assert (Hn0 : INR n <> 0) by (apply not_0_INR; lia).
  rewrite (Rmult_comm 2), sigma_mul_r.
  (* the angles as multiples of pi / (2n) *)
  rewrite (sigma_ext _
    (fun k => cos (INR (S k) * (INR (2 * i + 1) * PI / INR (2 * n)))
              * cos (INR (S k) * (INR (2 * j + 1) * PI / INR (2 * n))) * 2)).
  2:{ intros k _. rewrite !plus_INR, !mult_INR. cbn [INR]. reflexivity. }
  rewrite (@cos_sum_diff (2 * n) (n - 1) (2 * i + 1) (2 * j + 1) _ _ eq_refl eq_refl)
    by lia.
  assert (Hhalf : forall m cnt,
    sigma (fun k => cos (INR (S k) * (INR (2 * m) * PI / INR (2 * n)))) cnt
    = sigma (fun k => cos (INR (S k) * (INR m * PI / INR n))) cnt).
  { intros m cnt. apply sigma_ext. intros k _. f_equal.
    rewrite !mult_INR. cbn [INR]. field. exact Hn0. }
  replace (2 * i + 1 - (2 * j + 1) + (2 * j + 1 - (2 * i + 1)))%nat
    with (2 * ((i - j) + (j - i)))%nat by lia.
  replace (2 * i + 1 + (2 * j + 1))%nat with (2 * (i + j + 1))%nat by lia.
  rewrite !Hhalf.
  destruct (Nat.eqb_spec j i) as [->|Hne].
  - replace (i - i + (i - i))%nat with 0%nat by lia.
    rewrite cos_sum_zero, cos_sum_grid by lia.
    rewrite cos_INR_PI.
    replace (Nat.even (i + i + 1)) with false.
    + rewrite minus_INR by lia. cbn [INR]. field.
    + symmetry. rewrite Nat.add_1_r, Nat.even_succ, <- Nat.negb_even.
      replace (i + i)%nat with (2 * i)%nat by lia.
      rewrite Nat.even_mul. reflexivity.
  - rewrite !cos_sum_grid by lia. rewrite !cos_INR_PI.
    replace (Nat.even (i + j + 1)) with (negb (Nat.even (i - j + (j - i)))).
    + destruct (Nat.even (i - j + (j - i))); cbn [negb]; field.
    + rewrite Nat.add_1_r, Nat.even_succ, <- Nat.negb_even. f_equal.
      destruct (Nat.le_gt_cases j i).
      * replace (i - j + (j - i))%nat with (i - j)%nat by lia.
        rewrite Nat.even_sub, Nat.even_add by lia. reflexivity.
      * replace (i - j + (j - i))%nat with (j - i)%nat by lia.
        rewrite Nat.even_sub, Nat.even_add by lia.
        destruct (Nat.even i), (Nat.even j); reflexivity.
Qed.

Lemma cheb_series_first (c : list R) (x : R) :
  (1 <= length c)%nat ->
  cheb_series c x
  = nth 0 c 0 + sigma (fun k => nth (S k) c 0 * cheb_T x (S k)) (length c - 1).
Proof.
  intros Hc. unfold cheb_series.
  replace (length c) with (S (length c - 1)) at 1 by lia.
  rewrite sigma_first. cbn [cheb_T]. ring.
Qed.

(** [apply_inverse_mass], entry by entry. *)
Lemma inverse_mass_value (self : Basis.t R) (a : list R) :
  (1 <= length a)%nat ->
  exists c,
    Basis.apply_inverse_mass self a = Ok c
    /\ length c = length a
    /\ forall k, (k < length a)%nat ->
         nth k c 0
         = nth k a 0 * (2 / PI)
           * (if (k =? 0)%nat then / 2 else 1)
           * match SpectralBase.quad (Basis.super self) with
             | GL => if (k =? length a - 1)%nat then / 2 else 1
             | GC => 1
             end.
Proof.
  intros Hn. unfold Basis.apply_inverse_mass, sl.
  set (m := map (fun x => (x * (#2 / num_pi))%num) a).
  assert (Hm : length m = length a) by apply length_map.
  rewrite (@moditem_ok _ _ m 0%Z 0%nat 0) by (try (apply index_nonneg); lia).
  cbn [bind].
  set (m1 := np.update m 0 (nth 0 m 0 / #2)%num).
  assert (Hm1 : length m1 = length a) by (unfold m1; rewrite update_length; lia).
  assert (Hnth1 : forall k, (k < length a)%nat ->
            nth k m1 0 = nth k a 0 * (2 / PI) * (if (k =? 0)%nat then / 2 else 1)).
  { intros k Hk. unfold m1. rewrite update_nth by lia. unfold m.
    destruct (Nat.eqb_spec k 0) as [->|_];
      rewrite (@map_nth_lt _ _ _ _ _ 0 0) by lia; num_R;
      change (@num_pi R Pi_R) with PI; field; apply PI_neq0. }
  destruct (SpectralBase.quad (Basis.super self)).
  - exists m1. split; [reflexivity|]. split; [exact Hm1|].
    intros k Hk. rewrite Hnth1 by exact Hk. ring.
  - rewrite (@moditem_ok _ _ m1 (-1)%Z (length a - 1)%nat 0)
      by (rewrite ?Hm1; try (rewrite index_neg by lia; f_equal); lia).
    eexists. split; [reflexivity|]. split; [rewrite update_length; lia|].
    intros k Hk. rewrite update_nth by lia.
    destruct (Nat.eqb_spec k (length a - 1)) as [->|Hk'].
    + rewrite Hnth1 by lia. num_R. field. apply PI_neq0.
    + rewrite Hnth1 by lia. ring.
Qed.

Lemma round_trip_gauss
  (vandermonde_scalar_product : list R -> list R -> list R)
  (self : Basis.t R) (u : list R) (b : buffers R) :
  SpectralBase.N (Basis.super self) = Z.of_nat (length u) ->
  length (input_array b) = length u -> (2 <= length u)%nat ->
  SpectralBase.quad (Basis.super self) = GC ->
  exists out b' c,
    Basis.scalar_product (fftw.dct DCT2) vandermonde_scalar_product self
      (Some u) None true b = Ok (out, b')
    /\ Basis.apply_inverse_mass self out = Ok c
    /\ Basis.evaluate_expansion_all (fftw.dct DCT3) self c = Ok u.
Proof.
  intros HN Hb Hn Hq.
  set (n := length u) in *.
  assert (Hfast := @scalar_product_fast R _ _ (fftw.dct DCT2)
                     vandermonde_scalar_product self u b).
  rewrite Hb in Hfast. fold n in Hfast.
  specialize (Hfast HN eq_refl ltac:(lia)). cbv zeta in Hfast.
  rewrite Hq in Hfast.
  set (out := map _ (fftw.dct DCT2 u)) in Hfast.
  assert (Hol : length out = n) by (unfold out; rewrite length_map; apply dct_length).
  destruct (@inverse_mass_value self out ltac:(lia)) as (c & Ec & Hcl & Hc).
  rewrite Hol in Hcl, Hc. rewrite Hq in Hc.
  exists out, (Buffers u out), c. split; [exact Hfast|]. split; [exact Ec|].
  rewrite evaluate_expansion_all_gauss by (try exact Hq; lia).
  rewrite Hcl. f_equal.
  assert (Hn0 : INR n <> 0) by (apply not_0_INR; lia).
  pose (th := fun i : nat => (2 * INR i + 1) * PI / (2 * INR n)).
  assert (Hc' : forall k, (k < n)%nat ->
    nth k c 0 = sigma (fun j => nth j u 0 * cos (INR k * th j)) n
                * (if (k =? 0)%nat then / INR n else 2 / INR n)).
  { intros k Hk. rewrite Hc by exact Hk. unfold out.
    rewrite (@map_nth_lt _ _ _ _ k 0 0) by (rewrite dct_length; exact Hk).
    unfold fftw.dct. fold n.
    rewrite (@map_nth_lt _ _ _ _ k 0%nat 0) by (rewrite length_seq; exact Hk).
    rewrite seq_nth by exact Hk. cbn [Nat.add].
    rewrite (sigma_ext
      (fun j => (nth j u (#0) * num_cos (num_pi * (#(Z.of_nat j) + num_half)
                                          * #(Z.of_nat k) / #(Z.of_nat n)))%num)
      (fun j => nth j u 0 * cos (INR k * th j))).
    - num_R. change (@num_pi R Pi_R) with PI.
      rewrite HN, mult_IZR. rewrite (INR_IZR_INZ n) in Hn0 |- *.
      destruct (k =? 0)%nat; field; split; try exact Hn0; apply PI_neq0.
    - intros j _. unfold th. num_R. change (@num_cos R Cos_R) with cos.
      change (@num_pi R Pi_R) with PI. rewrite <- !INR_IZR_INZ.
      do 2 f_equal. field. exact Hn0. }
  apply (nth_ext _ _ 0 0); [rewrite length_map, length_seq; reflexivity|].
  intros i Hi. rewrite length_map, length_seq in Hi.
  rewrite (@map_nth_lt _ _ _ _ i 0%nat 0) by (rewrite length_seq; exact Hi).
  rewrite seq_nth by exact Hi. cbn [Nat.add]. fold (th i).
  rewrite cheb_series_first by lia. rewrite Hcl.
  rewrite Hc' by lia. cbn [Nat.eqb].
  rewrite (sigma_ext (fun k => nth (S k) c 0 * cheb_T (cos (th i)) (S k))
    (fun k => sigma (fun j => nth j u 0 * cos (INR (S k) * th j)
                              * (2 / INR n) * cos (INR (S k) * th i)) n)).
  2:{ intros k Hk. rewrite Hc' by lia. cbn [Nat.eqb].
      rewrite (proj1 (cheb_T_cos _ (S k))). rewrite !sigma_mul_r. reflexivity. }
  rewrite sigma_swap, sigma_mul_r, <- sigma_plus.
  rewrite (sigma_ext _ (fun j => if (j =? i)%nat then nth j u 0 else 0)).
  - apply sigma_delta. exact Hi.
  - intros j Hj.
    pose proof (@gauss_kernel n i j Hi Hj) as K. fold (th i) (th j) in K.
    rewrite (sigma_ext (fun k => nth j u 0 * cos (INR (S k) * th j)
                                 * (2 / INR n) * cos (INR (S k) * th i))
      (fun k => cos (INR (S k) * th i) * cos (INR (S k) * th j)
                * (nth j u 0 * (2 / INR n)))) by (intros; ring).
    rewrite <- sigma_mul_r.
    set (S0 := sigma _ (n - 1)) in *.
    replace (INR 0 * th j) with 0 by (cbn [INR]; ring). rewrite cos_0.
    destruct (j =? i)%nat.
    + replace S0 with ((INR n - 1) / 2) by lra. field. exact Hn0.
    + replace S0 with (- / 2) by lra. field. exact Hn0.
Qed.

(** The Chebyshev polynomials are orthogonal on the Gauss-Lobatto grid,
    the first and the last mode and point counting half. *)
Lemma lobatto_kernel (M i j : nat) :
  (1 <= M)%nat -> (i <= M)%nat -> (j <= M)%nat ->
  sigma (fun k => (if ((k =? 0) || (k =? M))%nat then / 2 else 1)
                  * cos (INR k * (INR i * PI / INR M))
                  * cos (INR k * (INR j * PI / INR M))) (S M)
  * (if ((j =? 0) || (j =? M))%nat then / 2 else 1) * (2 / INR M)
  = if (j =? i)%nat then 1 else 0.
Proof.
  intros HM Hi Hj. assert (HM0 : INR M <> 0) by (apply not_0_INR; lia).
  replace (S M) with (S (S (M - 1))) at 1 by lia.
  rewrite sigma_R_S, sigma_first.
  replace (S (M - 1)) with M by lia.
  rewrite (Nat.eqb_refl M), Bool.orb_true_r.
  change (0 =? 0)%nat with true. cbn [orb INR].
  replace (0 * (INR i * PI / INR M)) with 0 by (unfold Rdiv; ring).
  replace (0 * (INR j * PI / INR M)) with 0 by (unfold Rdiv; ring).
  rewrite cos_0.
  replace (INR M * (INR i * PI / INR M)) with (INR i * PI) by (field; exact HM0).
  replace (INR M * (INR j * PI / INR M)) with (INR j * PI) by (field; exact HM0).
  rewrite (sigma_ext
    (fun k => (if ((S k =? 0) || (S k =? M))%nat then / 2 else 1)
              * cos (INR (S k) * (INR i * PI / INR M))
              * cos (INR (S k) * (INR j * PI / INR M)))
    (fun k => cos (INR (S k) * (INR i * PI / INR M))
              * cos (INR (S k) * (INR j * PI / INR M)) * 2 * / 2)).
  2:{ intros k Hk. change (S k =? 0)%nat with false. cbn [orb].
      replace (S k =? M)%nat with false by (symmetry; apply Nat.eqb_neq; lia).
      field. }
  rewrite <- sigma_mul_r.
  rewrite (@cos_sum_diff M (M - 1) i j _ _ eq_refl eq_refl) by lia.
  rewrite !cos_INR_PI.
  destruct (Nat.eqb_spec j i) as [->|Hne].
  - replace (i - i + (i - i))%nat with 0%nat by lia.
    rewrite cos_sum_zero, minus_INR by lia. cbn [INR].
    assert (Hsq : (if Nat.even i then 1 else -1) * (if Nat.even i then 1 else -1) = 1)
      by (destruct (Nat.even i); ring).
    destruct (Nat.eqb_spec i 0) as [->|Hi0]; [|destruct (Nat.eqb_spec i M) as [->|HiM]];
      cbn [orb Nat.add].
    + rewrite cos_sum_zero, minus_INR by lia. cbn [INR Nat.even]. field. exact HM0.
    + replace (M + M)%nat with (2 * M)%nat by lia.
      rewrite cos_sum_full, minus_INR by lia. cbn [INR].
      destruct (Nat.even M); field; exact HM0.
    + rewrite cos_sum_grid by lia. rewrite cos_INR_PI.
      replace (i + i)%nat with (2 * i)%nat by lia. rewrite Nat.even_mul.
      cbn [Nat.even orb].
      destruct (Nat.even i); field; exact HM0.
  - rewrite !cos_sum_grid by lia. rewrite !cos_INR_PI.
    assert (Hpar : Nat.even (i - j + (j - i)) = Nat.even (i + j)).
    { destruct (Nat.le_gt_cases j i).
      - replace (i - j + (j - i))%nat with (i - j)%nat by lia.
        rewrite Nat.even_sub, Nat.even_add by lia. reflexivity.
      - replace (i - j + (j - i))%nat with (j - i)%nat by lia.
        rewrite Nat.even_sub, Nat.even_add by lia.
        destruct (Nat.even i), (Nat.even j); reflexivity. }
    rewrite Hpar, Nat.even_add.
    destruct (Nat.even i), (Nat.even j), ((j =? 0) || (j =? M))%nat;
      cbn [Bool.eqb]; field; exact HM0.
Qed.

Lemma round_trip_lobatto
  (vandermonde_scalar_product : list R -> list R -> list R)
  (self : Basis.t R) (u : list R) (b : buffers R) :
  SpectralBase.N (Basis.super self) = Z.of_nat (length u) ->
  length (input_array b) = length u -> (2 <= length u)%nat ->
  SpectralBase.quad (Basis.super self) = GL ->
  exists out b' c,
    Basis.scalar_product (fftw.dct DCT1) vandermonde_scalar_product self
      (Some u) None true b = Ok (out, b')
    /\ Basis.apply_inverse_mass self out = Ok c
    /\ Basis.evaluate_expansion_all (fftw.dct DCT1) self c = Ok u.
Proof.
  intros HN Hb Hn Hq.
  set (n := length u) in *.
  assert (Hfast := @scalar_product_fast R _ _ (fftw.dct DCT1)
                     vandermonde_scalar_product self u b).
  rewrite Hb in Hfast. fold n in Hfast.
  specialize (Hfast HN eq_refl ltac:(lia)). cbv zeta in Hfast.
  rewrite Hq in Hfast.
  set (out := map _ (fftw.dct DCT1 u)) in Hfast.
  assert (Hol : length out = n) by (unfold out; rewrite length_map; apply dct_length).
  destruct (@inverse_mass_value self out ltac:(lia)) as (c & Ec & Hcl & Hc).
  rewrite Hol in Hcl, Hc. rewrite Hq in Hc.
  exists out, (Buffers u out), c. split; [exact Hfast|]. split; [exact Ec|].
  rewrite evaluate_expansion_all_lobatto by (try exact Hq; lia).
  rewrite Hcl. f_equal.
  set (M := (n - 1)%nat).
  assert (HM0 : INR M <> 0) by (apply not_0_INR; unfold M; lia).
  pose (th := fun i : nat => INR i * PI / INR M).
  pose (e := fun k : nat => if ((k =? 0) || (k =? M))%nat then / 2 else 1).
  assert (Hc' : forall k, (k < n)%nat ->
    nth k c 0 = sigma (fun j => nth j u 0 * cos (INR k * th j) * e j) n
                * (2 / INR M) * e k).
  { intros k Hk. rewrite Hc by exact Hk. unfold out.
    rewrite (@map_nth_lt _ _ _ _ k 0 0) by (rewrite dct_length; exact Hk).
    unfold fftw.dct. fold n.
    rewrite (@map_nth_lt _ _ _ _ k 0%nat 0) by (rewrite length_seq; exact Hk).
    rewrite seq_nth by exact Hk. cbn [Nat.add].
    replace n with (S (S (n - 2))) at 4 by lia.
    rewrite sigma_R_S, sigma_first.
    rewrite (sigma_ext
      (fun j => nth (S j) u 0 * cos (INR k * th (S j)) * e (S j))
      (fun j => (nth (S j) u (#0) * num_cos (num_pi * #(Z.of_nat (S j))
                                              * #(Z.of_nat k) / #(Z.of_nat (n - 1))))%num)).
    - replace (S (n - 2)) with M by (unfold M; lia).
      unfold e at 1 2. rewrite (Nat.eqb_refl M), Bool.orb_true_r.
      change (0 =? 0)%nat with true. cbn [orb]. unfold th. cbn [INR].
      replace (INR k * (0 * PI / INR M)) with 0 by (unfold Rdiv; ring).
      replace (INR k * (INR M * PI / INR M)) with (INR k * PI) by (field; exact HM0).
      rewrite cos_0, cos_INR_PI. unfold fftw.alt. fold M.
      num_R. change (@num_pi R Pi_R) with PI.
      rewrite HN, mult_IZR, minus_IZR, <- (INR_IZR_INZ n).
      replace (INR n - 1) with (INR M) by (unfold M; rewrite minus_INR by lia; reflexivity).
      unfold e.
      destruct (Nat.eqb_spec k 0), (Nat.eqb_spec k M); cbn [orb];
        try (exfalso; unfold M in *; lia);
        destruct (Nat.even k); field; split; try exact HM0; apply PI_neq0.
    - intros j Hj. unfold e, th.
      change (S j =? 0)%nat with false. cbn [orb].
      replace (S j =? M)%nat with false by (symmetry; apply Nat.eqb_neq; unfold M; lia).
      fold M. num_R. change (@num_cos R Cos_R) with cos.
      change (@num_pi R Pi_R) with PI. rewrite <- !INR_IZR_INZ.
      rewrite Rmult_1_r. do 2 f_equal. field. exact HM0. }
  apply (nth_ext _ _ 0 0); [rewrite length_map, length_seq; reflexivity|].
  intros i Hi. rewrite length_map, length_seq in Hi.
  rewrite (@map_nth_lt _ _ _ _ i 0%nat 0) by (rewrite length_seq; exact Hi).
  rewrite seq_nth by exact Hi. cbn [Nat.add]. fold M. fold (th i).
  unfold cheb_series. rewrite Hcl.
  rewrite (sigma_ext (fun k => nth k c 0 * cheb_T (cos (th i)) k)
    (fun k => sigma (fun j => nth j u 0 * cos (INR k * th j) * e j
                              * (2 / INR M) * e k * cos (INR k * th i)) n)).
  2:{ intros k Hk. rewrite Hc' by lia.
      rewrite (proj1 (cheb_T_cos _ k)). rewrite !sigma_mul_r. reflexivity. }
  rewrite sigma_swap.
  rewrite (sigma_ext _ (fun j => if (j =? i)%nat then nth j u 0 else 0)).
  - apply sigma_delta. exact Hi.
  - intros j Hj.
    pose proof (@lobatto_kernel M i j ltac:(unfold M; lia) ltac:(unfold M; lia)
                  ltac:(unfold M; lia)) as K.
    replace (S M) with n in K by (unfold M; lia).
    fold (th i) (th j) in K.
    rewrite (sigma_ext (fun k => nth j u 0 * cos (INR k * th j) * e j
                                 * (2 / INR M) * e k * cos (INR k * th i))
      (fun k => (if ((k =? 0) || (k =? M))%nat then / 2 else 1)
                * cos (INR k * th i) * cos (INR k * th j)
                * (nth j u 0 * e j * (2 / INR M)))) by (intros; unfold e; ring).
    rewrite <- sigma_mul_r.
    set (S0 := sigma _ n) in *. fold (e j) in K.
    destruct (j =? i)%nat.
    + replace (S0 * (nth j u 0 * e j * (2 / INR M)))
        with (nth j u 0 * (S0 * e j * (2 / INR M))) by ring.
      rewrite K. ring.
    + replace (S0 * (nth j u 0 * e j * (2 / INR M)))
        with (nth j u 0 * (S0 * e j * (2 / INR M))) by ring.
      rewrite K. ring.
Qed.

(** There and back: on a plain basis with the cosine transforms that it
    plans, the fast scalar product of grid values [u], then
    [apply_inverse_mass], then [evaluate_expansion_all], returns [u], for
    Gauss and for Gauss-Lobatto quadrature and every [N >= 2] (exact
    arithmetic). *)
Theorem plain_round_trip
  (vandermonde_scalar_product : list R -> list R -> list R)
  (self : Basis.t R) (u : list R) (b : buffers R) :
  SpectralBase.N (Basis.super self) = Z.of_nat (length u) ->
  length (input_array b) = length u -> (2 <= length u)%nat ->
  (SpectralBase.quad (Basis.super self) = GC
   /\ Basis._xfftn_fwd self = DCT2 /\ Basis._xfftn_bck self = DCT3)
  \/ (SpectralBase.quad (Basis.super self) = GL
      /\ Basis._xfftn_fwd self = DCT1 /\ Basis._xfftn_bck self = DCT1) ->
  exists out b' c,
    Basis.scalar_product (fftw.dct (Basis._xfftn_fwd self))
      vandermonde_scalar_product self (Some u) None true b = Ok (out, b')
    /\ Basis.apply_inverse_mass self out = Ok c
    /\ Basis.evaluate_expansion_all (fftw.dct (Basis._xfftn_bck self)) self c = Ok u.
Proof.
  intros HN Hb Hn [(Hq & -> & ->) | (Hq & -> & ->)].
  - apply round_trip_gauss; assumption.
  - apply round_trip_lobatto; assumption.
Qed.

End RoundTrip.

(** ** The coefficients that the Shen bases hand to the plain basis *)

Section Recombined.
Local Open Scope R_scope.

Lemma sigma_window (h : nat -> R) (lo len n : nat) :
  (lo + len <= n)%nat ->
  sigma (fun k => if ((lo <=? k) && (k <? lo + len))%nat then h (k - lo)%nat else 0) n
  = sigma h len.
Proof.
  intros Hle.
  replace n with (lo + (len + (n - (lo + len))))%nat by lia.
  rewrite sigma_split, sigma_split.
  rewrite (@sigma_zero _ lo).
  2:{ intros k Hk.
      replace (lo <=? k)%nat with false by (symmetry; apply Nat.leb_gt; lia).
      reflexivity. }
  rewrite (@sigma_zero _ (n - (lo + len))).
  2:{ intros k Hk.
      replace (lo + (len + k) <? lo + len)%nat with false
        by (symmetry; apply Nat.ltb_ge; lia).
      rewrite Bool.andb_false_r. reflexivity. }
  rewrite Rplus_0_l, Rplus_0_r. apply sigma_ext. intros k Hk.
  replace (lo <=? lo + k)%nat with true by (symmetry; apply Nat.leb_le; lia).
  replace (lo + k <? lo + len)%nat with true by (symmetry; apply Nat.ltb_lt; lia).
  cbn [andb]. f_equal. lia.
Qed.

(** The series of [a] after [a[s] += c * v]. *)
Lemma cheb_series_modslice (f : R -> R -> R) (c : R) (a v : list R) (s : slice)
  (lo len : nat) (x : R) :
  (forall p q, f p q = p + c * q) ->
  np.indices (length a) s = (lo, len) -> (lo + len <= length a)%nat ->
  length v = len ->
  cheb_series (firstn lo a ++ np.zip f (np.getslice a s) v ++ skipn (lo + len) a) x
  = cheb_series a x + c * sigma (fun k => nth k v 0 * cheb_T x (lo + k)) len.
Proof.
  intros Hf E Hle Hv.
  assert (Hg : length (np.getslice a s) = len) by (eapply getslice_length; eauto).
  assert (Hz : length (np.zip f (np.getslice a s) v) = len)
    by (rewrite zip_length; lia).
  unfold cheb_series. rewrite (@splice_length _ a lo len) by assumption.
  rewrite <- (@sigma_window (fun k => nth k v 0 * cheb_T x (lo + k)) lo len (length a))
    by exact Hle.
  rewrite (Rmult_comm c), sigma_mul_r, <- sigma_plus. apply sigma_ext. intros k Hk.
  rewrite (@splice_nth _ a lo len) by assumption.
  destruct (Nat.ltb_spec k lo) as [H1|H1].
  - replace (lo <=? k)%nat with false by (symmetry; apply Nat.leb_gt; lia).
    cbn [andb]. ring.
  - replace (lo <=? k)%nat with true by (symmetry; apply Nat.leb_le; lia).
    destruct (Nat.ltb_spec k (lo + len)) as [H2|H2]; cbn [andb]; [|ring].
    rewrite zip_nth by lia. rewrite Hf.
    rewrite (@getslice_nth _ a s lo len) by (try exact E; lia).
    replace (lo + (k - lo))%nat with k by lia. ring.
Qed.

(** The plain Chebyshev coefficients that [evaluate_expansion_all] of the
    Neumann basis hands to [CT.backward] are those of the expansion that
    [eval] sums: evaluated as a plain series, at any points, they give what
    [ShenNeumannBasis.eval] gives for the coefficients they come from (exact
    arithmetic, [N >= 3]). *)
Theorem neumann_expansion_coefficients (self : ShenNeumannBasis.t R) (fk : list R) (n : nat) :
  SpectralBase.N (ShenNeumannBasis.super self) = Z.of_nat n ->
  length fk = n -> (3 <= n)%nat ->
  length (ShenNeumannBasis._factor self) <> n ->
  exists w self',
    (forall CT_backward,
        ShenNeumannBasis.evaluate_expansion_all CT_backward self fk
        = (o <- CT_backward w ;; Ok (o, self')))
    /\ length w = n
    /\ forall x,
         exists ys,
           Basis.eval (ShenNeumannBasis.CT self) x w = Ok ys
           /\ ShenNeumannBasis.eval self x fk = Ok (ys, self').
Proof.
  intros HN Hfk Hn Hfac.
  set (self' := ShenNeumannBasis.set_factor_array self fk).
  set (F := fun k : R => (let q := k / (k + #2) in q * q)%num).
  assert (Hf : ShenNeumannBasis._factor self' = map F (wavenumbers (Z.of_nat n) 2)).
  { unfold self', ShenNeumannBasis.set_factor_array.
    destruct (Nat.eqb_spec (length (ShenNeumannBasis._factor self)) (length fk)) as [E|_];
      [rewrite Hfk in E; contradiction|].
    cbn [ShenNeumannBasis._factor]. rewrite HN. reflexivity. }
  assert (Hfl : length (map F (wavenumbers (T:=R) (Z.of_nat n) 2)) = (n - 2)%nat)
    by (rewrite length_map, wavenumbers_length; lia).
  assert (Hs : np.getslice fk (Slice (Some 0%Z) (Some (-2)%Z)) = firstn (n - 2) fk).
  { unfold np.getslice. rewrite Hfk, indices_0_m2. reflexivity. }
  assert (Hl : length (firstn (n - 2) fk) = (n - 2)%nat)
    by (rewrite length_firstn; lia).
  set (r := np.zip num_mul (map F (wavenumbers (Z.of_nat n) 2)) (firstn (n - 2) fk)).
  assert (Hr : length r = (n - 2)%nat) by (unfold r; rewrite zip_length; lia).
  set (w1 := repeat 0 0 ++ firstn (n - 2) fk ++ repeat 0 (n - (0 + (n - 2)))).
  assert (Hw1 : length w1 = n)
    by (unfold w1; rewrite !length_app, !repeat_length, Hl; cbn; lia).
  assert (Hi : np.indices (length w1) (Slice (Some 2%Z) None) = (2, n - 2)%nat)
    by (rewrite Hw1; apply indices_from2; lia).
  set (w := firstn 2 w1 ++ np.zip num_sub (np.getslice w1 (Slice (Some 2%Z) None)) r
            ++ skipn (2 + (n - 2)) w1).
  assert (Hw : length w = n).
  { unfold w. rewrite (@splice_length _ w1 2 (n - 2)); [exact Hw1 | lia |].
    rewrite zip_length; [|rewrite Hr];
      apply (@getslice_length _ w1 _ 2%nat); try exact Hi; lia. }
  exists w, self'. split; [|split; [exact Hw|]].
  - intros CT_backward. unfold ShenNeumannBasis.evaluate_expansion_all, sl.
    fold self'. rewrite Hf, Hs. unfold work. rewrite Hfk.
    rewrite (@setslice_zeros n _ 0 (n - 2)) by (try apply indices_0_m2; lia).
    cbn [bind]. rewrite binop_same by lia. cbn [bind]. fold r w1.
    rewrite (@modslice_ok _ _ w1 _ 2 (n - 2)) by (try exact Hi; lia).
    reflexivity.
  - intros x. eexists. split.
    + unfold Basis.eval. apply eval_all_series.
      intros E. rewrite E in Hw. cbn in Hw. lia.
    + rewrite (@neumann_eval_value self x fk n) by assumption. fold self'.
      do 2 f_equal. apply map_ext. intros xi. unfold w.
      rewrite (@cheb_series_modslice num_sub (-1) w1 r _ 2 (n - 2))
        by (try exact Hi; try lia; intros; num_R; ring).
      unfold w1. rewrite cheb_series_padded, Hl.
      rewrite (Rmult_comm (-1)), sigma_mul_r, <- sigma_plus.
      apply sigma_ext. intros k Hk.
      unfold r. rewrite zip_nth by lia.
      rewrite (@map_nth_lt _ _ F _ k 0 0) by (rewrite wavenumbers_length; lia).
      rewrite wavenumbers_nth by lia.
      rewrite nth_firstn.
      replace (k <? n - 2)%nat with true by (symmetry; apply Nat.ltb_lt; exact Hk).
      unfold F. num_R. rewrite INR_IZR_INZ, (Nat.add_comm k 2). cbn [Nat.add]. ring.
Qed.

(** The same for the biharmonic basis, whose coefficients [set_w_hat]
    recombines: what [evaluate_expansion_all] hands to [CT.backward] gives,
    as a plain series at any points, what [ShenBiharmonicBasis.eval] gives
    (exact arithmetic, [N >= 5], factor arrays not yet set). *)
Theorem biharmonic_expansion_coefficients (self : ShenBiharmonicBasis.t R) (fk : list R)
  (n : nat) :
  SpectralBase.N (ShenBiharmonicBasis.super self) = Z.of_nat n ->
  length fk = n -> (5 <= n)%nat ->
  length (ShenBiharmonicBasis._factor1 self) <> (n - 4)%nat ->
  exists w self',
    ShenBiharmonicBasis.set_w_hat self' (work fk) fk
      (ShenBiharmonicBasis._factor1 self') (ShenBiharmonicBasis._factor2 self') = Ok w
    /\ (forall CT_backward,
          ShenBiharmonicBasis.evaluate_expansion_all CT_backward self fk
          = (o <- CT_backward w ;; Ok (o, self')))
    /\ length w = n
    /\ forall x,
         exists ys,
           Basis.eval (ShenBiharmonicBasis.CT self) x w = Ok ys
           /\ ShenBiharmonicBasis.eval self x fk = Ok (ys, self').
Proof.
  intros HN Hfk Hn Hfac.
  set (self' := ShenBiharmonicBasis.set_factor_arrays self fk).
  set (F1 := fun k : R => (#(-2) * (k + #2) / (k + #3))%num).
  set (F2 := fun k : R => ((k + #1) / (k + #3))%num).
  assert (Hf : self' = ShenBiharmonicBasis.Make (ShenBiharmonicBasis.super self)
                         (ShenBiharmonicBasis.CT self)
                         (map F1 (wavenumbers (Z.of_nat n) 4))
                         (map F2 (wavenumbers (Z.of_nat n) 4))).
  { unfold self', ShenBiharmonicBasis.set_factor_arrays.
    assert (Hg : length (np.getslice fk (ShenBiharmonicBasis.slice_ self)) = (n - 4)%nat).
    { unfold ShenBiharmonicBasis.slice_. rewrite HN.
      apply (@getslice_length _ fk _ 0%nat); [|lia].
      rewrite Hfk. apply indices_0_to. lia. }
    rewrite Hg.
    destruct (Nat.eqb_spec (length (ShenBiharmonicBasis._factor1 self)) (n - 4)) as [E|_];
      [contradiction|].
    rewrite HN. reflexivity. }
  assert (Hsl : ShenBiharmonicBasis.slice_ self'
                = Slice (Some 0%Z) (Some (Z.of_nat n - 4)%Z)).
  { rewrite Hf. unfold ShenBiharmonicBasis.slice_. cbn. rewrite HN. reflexivity. }
  assert (Hw4 : length (wavenumbers (T:=R) (Z.of_nat n) 4) = (n - 4)%nat)
    by (rewrite wavenumbers_length; lia).
  assert (Hs : np.getslice fk (Slice (Some 0%Z) (Some (Z.of_nat n - 4)%Z))
               = firstn (n - 4) fk).
  { unfold np.getslice. rewrite Hfk, indices_0_to by lia. reflexivity. }
  assert (Hl : length (firstn (n - 4) fk) = (n - 4)%nat)
    by (rewrite length_firstn; lia).
  set (r1 := np.zip num_mul (map F1 (wavenumbers (Z.of_nat n) 4)) (firstn (n - 4) fk)).
  set (r2 := np.zip num_mul (map F2 (wavenumbers (Z.of_nat n) 4)) (firstn (n - 4) fk)).
  assert (Hr1 : length r1 = (n - 4)%nat)
    by (unfold r1; rewrite zip_length; rewrite length_map; lia).
  assert (Hr2 : length r2 = (n - 4)%nat)
    by (unfold r2; rewrite zip_length; rewrite length_map; lia).
  set (w1 := repeat 0 0 ++ firstn (n - 4) fk ++ repeat 0 (n - (0 + (n - 4)))).
  assert (Hw1 : length w1 = n)
    by (unfold w1; rewrite !length_app, !repeat_length, Hl; cbn; lia).
  assert (Hi2 : np.indices (length w1) (Slice (Some 2%Z) (Some (-2)%Z)) = (2, n - 4)%nat)
    by (rewrite Hw1; apply indices_2_m2; lia).
  set (w2 := firstn 2 w1
             ++ np.zip num_add (np.getslice w1 (Slice (Some 2%Z) (Some (-2)%Z))) r1
             ++ skipn (2 + (n - 4)) w1).
  assert (Hw2 : length w2 = n).
  { unfold w2. rewrite (@splice_length _ w1 2 (n - 4)); [exact Hw1 | lia |].
    rewrite zip_length; [|rewrite Hr1];
      apply (@getslice_length _ w1 _ 2%nat); try exact Hi2; lia. }
  assert (Hi4 : np.indices (length w2) (Slice (Some 4%Z) None) = (4, n - 4)%nat)
    by (rewrite Hw2; apply indices_from4; lia).
  set (w := firstn 4 w2
            ++ np.zip num_add (np.getslice w2 (Slice (Some 4%Z) None)) r2
            ++ skipn (4 + (n - 4)) w2).
  assert (Hw : length w = n).
  { unfold w. rewrite (@splice_length _ w2 4 (n - 4)); [exact Hw2 | lia |].
    rewrite zip_length; [|rewrite Hr2];
      apply (@getslice_length _ w2 _ 4%nat); try exact Hi4; lia. }
  assert (Eset : ShenBiharmonicBasis.set_w_hat self' (work fk) fk
                   (ShenBiharmonicBasis._factor1 self')
                   (ShenBiharmonicBasis._factor2 self') = Ok w).
  { unfold ShenBiharmonicBasis.set_w_hat, sl. rewrite Hsl, Hs.
    rewrite Hf. cbn [ShenBiharmonicBasis._factor1 ShenBiharmonicBasis._factor2].
    unfold work. rewrite Hfk.
    rewrite (@setslice_zeros n _ 0 (n - 4)) by (try apply indices_0_to; lia).
    cbn [bind]. rewrite binop_same by (rewrite length_map; lia). cbn [bind].
    fold r1 w1.
    rewrite (@modslice_ok _ _ w1 _ 2 (n - 4)) by (try exact Hi2; lia).
    cbn [bind]. rewrite binop_same by (rewrite length_map; lia). cbn [bind].
    fold r2 w2.
    rewrite (@modslice_ok _ _ w2 _ 4 (n - 4)) by (try exact Hi4; lia).
    reflexivity. }
  exists w, self'. split; [exact Eset|]. split; [|split; [exact Hw|]].
  - intros CT_backward. unfold ShenBiharmonicBasis.evaluate_expansion_all.
    fold self'. rewrite Eset. reflexivity.
  - intros x. eexists. split.
    + unfold Basis.eval. apply eval_all_series.
      intros E. rewrite E in Hw. cbn in Hw. lia.
    + rewrite (@biharmonic_eval_value self x fk n) by assumption. fold self'.
      do 2 f_equal. apply map_ext. intros xi. unfold w.
      rewrite (@cheb_series_modslice num_add 1 w2 r2 _ 4 (n - 4))
        by (try exact Hi4; try lia; intros; num_R; ring).
      unfold w2.
      rewrite (@cheb_series_modslice num_add 1 w1 r1 _ 2 (n - 4))
        by (try exact Hi2; try lia; intros; num_R; ring).
      unfold w1. rewrite cheb_series_padded, Hl.
      rewrite !Rmult_1_l, <- !sigma_plus.
      apply sigma_ext. intros k Hk.
      unfold r1, r2. rewrite !zip_nth by (rewrite ?length_map; lia).
      rewrite (@map_nth_lt _ _ F1 _ k 0 0), (@map_nth_lt _ _ F2 _ k 0 0) by lia.
      rewrite wavenumbers_nth by lia.
      rewrite nth_firstn.
      replace (k <? n - 4)%nat with true by (symmetry; apply Nat.ltb_lt; exact Hk).
      unfold F1, F2. num_R.
      rewrite INR_IZR_INZ, (Nat.add_comm k 2), (Nat.add_comm k 4). cbn [Nat.add].
      unfold Rdiv. ring.
Qed.

End Recombined.

(** ** What planning keeps *)

Section KeptByPlan.
Context {T : Type} `{Num T}.

Lemma chebyshev_plan_keeps (fwd bck : dct_type) (self self' : SpectralBase.t T)
  shape axis dt opts h h' :
  ChebyshevBase.plan fwd bck self shape axis dt opts h = Ok (self', h') ->
  SpectralBase.N self' = SpectralBase.N self
  /\ SpectralBase.quad self' = SpectralBase.quad self
  /\ SpectralBase.domain self' = SpectralBase.domain self.
Proof.
  intros E.
  destruct (first_axis axis) as [a|e] eqn:Ha;
    [|unfold ChebyshevBase.plan, abind, lift in E; rewrite Ha in E; discriminate].
  destruct (already_planned self shape a) eqn:G.
  - unfold ChebyshevBase.plan, abind, lift, ret in E. rewrite Ha, G in E.
    inv E. repeat split.
  - unfold ChebyshevBase.plan, abind, lift in E. rewrite Ha, G in E.
    unfold new_func_wrap, fresh, abind, ret in E.
    repeat break_match_hyp E; try discriminate.
    inv E. repeat split.
Qed.

Lemma basis_plan_keeps (self self' : Basis.t T) shape axis dt opts h h' :
  Basis.plan self shape axis dt opts h = Ok (self', h') ->
  SpectralBase.N (Basis.super self') = SpectralBase.N (Basis.super self)
  /\ SpectralBase.quad (Basis.super self') = SpectralBase.quad (Basis.super self)
  /\ SpectralBase.domain (Basis.super self') = SpectralBase.domain (Basis.super self)
  /\ Basis._xfftn_fwd self' = Basis._xfftn_fwd self
  /\ Basis._xfftn_bck self' = Basis._xfftn_bck self.
Proof.
  unfold Basis.plan, abind, ret. intros E.
  destruct (ChebyshevBase.plan _ _ _ _ _ _ _ h) as [[s h1]|] eqn:P; [|discriminate].
  inv E. cbn [Basis.super Basis._xfftn_fwd Basis._xfftn_bck].
  destruct (chebyshev_plan_keeps _ _ _ _ _ _ _ _ P) as (HN & Hq & Hd).
  repeat split; assumption.
Qed.

Lemma basis_init_transforms N quad plan_ (domain : T * T) h (self : Basis.t T) h' :
  Basis.__init__ N quad plan_ domain h = Ok (self, h') ->
  SpectralBase.N (Basis.super self) = N
  /\ SpectralBase.domain (Basis.super self) = domain
  /\ ((quad = "GC"%string /\ SpectralBase.quad (Basis.super self) = GC
       /\ Basis._xfftn_fwd self = DCT2 /\ Basis._xfftn_bck self = DCT3)
      \/ (quad = "GL"%string /\ SpectralBase.quad (Basis.super self) = GL
          /\ Basis._xfftn_fwd self = DCT1 /\ Basis._xfftn_bck self = DCT1)).
Proof.
  unfold Basis.__init__, abind, lift, ChebyshevBase.__init__, bind, assert.
  destruct (String.eqb_spec quad "GC") as [->|Hgc];
    [|destruct (String.eqb_spec quad "GL") as [->|Hgl]];
    cbn [orb]; try discriminate.
  - destruct plan_; intros E.
    + apply basis_plan_keeps in E. cbn in E.
      destruct E as (-> & -> & -> & -> & ->). repeat split. left. repeat split.
    + unfold ret in E. inv E. repeat split. left. repeat split.
  - destruct plan_; intros E.
    + apply basis_plan_keeps in E. cbn in E.
      destruct E as (-> & -> & -> & -> & ->). repeat split. right. repeat split.
    + unfold ret in E. inv E. repeat split. right. repeat split.
Qed.

(** The constructor of the plain basis keeps [N] and the domain and pairs
    the quadrature with the cosine transforms: types 2 and 3 for Gauss,
    type 1 both ways for Gauss-Lobatto; and no [plan], from the constructor
    or later, changes [N], the quadrature, the domain or these types. *)
Theorem plan_keeps_configuration :
  (forall N quad plan_ (domain : T * T) h (self : Basis.t T) h',
      Basis.__init__ N quad plan_ domain h = Ok (self, h') ->
      SpectralBase.N (Basis.super self) = N
      /\ SpectralBase.domain (Basis.super self) = domain
      /\ ((quad = "GC"%string /\ SpectralBase.quad (Basis.super self) = GC
           /\ Basis._xfftn_fwd self = DCT2 /\ Basis._xfftn_bck self = DCT3)
          \/ (quad = "GL"%string /\ SpectralBase.quad (Basis.super self) = GL
              /\ Basis._xfftn_fwd self = DCT1 /\ Basis._xfftn_bck self = DCT1)))
  /\ (forall (self self' : Basis.t T) shape axis dt opts h h',
        Basis.plan self shape axis dt opts h = Ok (self', h') ->
        SpectralBase.N (Basis.super self') = SpectralBase.N (Basis.super self)
        /\ SpectralBase.quad (Basis.super self') = SpectralBase.quad (Basis.super self)
        /\ SpectralBase.domain (Basis.super self') = SpectralBase.domain (Basis.super self)
        /\ Basis._xfftn_fwd self' = Basis._xfftn_fwd self
        /\ Basis._xfftn_bck self' = Basis._xfftn_bck self).
Proof.
  split.
  - intros. eapply basis_init_transforms. eassumption.
  - intros. eapply basis_plan_keeps. eassumption.
Qed.

End KeptByPlan.

(** There and back, for a plain basis as its constructor builds it,
    planned or not, with the transforms of FFTW of the types that the
    constructor chose: the fast scalar product of [u], then
    [apply_inverse_mass], then [evaluate_expansion_all], returns [u] (exact
    arithmetic, [N >= 2]). *)
Theorem constructed_basis_round_trip
  (vandermonde_scalar_product : list R -> list R -> list R)
  (quad : string) (plan_ : bool) (domain : R * R) (h h' : oid)
  (self : Basis.t R) (u : list R) (b : buffers R) :
  Basis.__init__ (Z.of_nat (length u)) quad plan_ domain h = Ok (self, h') ->
  length (input_array b) = length u -> (2 <= length u)%nat ->
  exists out b' c,
    Basis.scalar_product (fftw.dct (Basis._xfftn_fwd self))
      vandermonde_scalar_product self (Some u) None true b = Ok (out, b')
    /\ Basis.apply_inverse_mass self out = Ok c
    /\ Basis.evaluate_expansion_all (fftw.dct (Basis._xfftn_bck self)) self c = Ok u.
Proof.
  intros I Hb Hn.
  destruct (basis_init_transforms _ _ _ _ _ I)
    as (HN & _ & [(_ & Hq & -> & ->) | (_ & Hq & -> & ->)]).
  - apply round_trip_gauss; assumption.
  - apply round_trip_lobatto; assumption.
Qed.

(** ** The further properties at concrete bases *)

Lemma plan_guard_ignores_dtype_witness :
  match (b0 <~ Basis.__init__ (T:=float) 8 "GC" false (-1, 1)%float ;;
         Basis.plan b0 (ShapeTuple [8]) (AxisInt 0) float64 []) 0%nat with
  | Ok (b, h) =>
      Basis.plan b (ShapeTuple [8]) (AxisInt 0) complex128 [] h = Ok (b, h)
  | Raise _ => False
  end.
Proof.
  destruct ((b0 <~ Basis.__init__ (T:=float) 8 "GC" false (-1, 1)%float ;;
             Basis.plan b0 (ShapeTuple [8]) (AxisInt 0) float64 []) 0%nat)
    as [[b h]|e] eqn:E; [|vm_compute in E; discriminate].
  unfold abind in E.
  destruct (Basis.__init__ _ _ _ _ _) as [[b0 h0]|]; [|discriminate].
  apply (plan_guard_ignores_dtype _ _ _ _ _ _ E).
Defined.

Lemma shen_plan_idempotent_witness :
  match (b0 <~ ShenDirichletBasis.__init__ (T:=float) 8 "GC" (0, 0)%float false
                 (-1, 1)%float false ;;
         ShenDirichletBasis.plan b0 (ShapeTuple [8]) (AxisInt 0) float64 []) 0%nat with
  | Ok (b, h) =>
      ShenDirichletBasis.plan b (ShapeTuple [8]) (AxisInt 0) float64 [] h = Ok (b, h)
  | Raise _ => False
  end.
Proof.
  destruct ((b0 <~ ShenDirichletBasis.__init__ (T:=float) 8 "GC" (0, 0)%float false
                     (-1, 1)%float false ;;
             ShenDirichletBasis.plan b0 (ShapeTuple [8]) (AxisInt 0) float64 []) 0%nat)
    as [[b h]|e] eqn:E; [|vm_compute in E; discriminate].
  unfold abind in E.
  destruct (ShenDirichletBasis.__init__ _ _ _ _ _ _ _) as [[b0 h0]|] eqn:I;
    [|discriminate].
  exact (proj1 (@shen_plan_idempotent float _) _ _ _ _ _ _ _ _ _ _ _ _ _ _ _ I E
           float64 [] h).
Defined.

Lemma dirichlet_scalar_product_entries_witness :
  exists p out b1 b2,
    Basis.scalar_product (fftw.dct DCT2) (fun _ v => v)
      (Basis.Make (SpectralBase.__init__ 4 GC (-1, 1)%R) DCT2 DCT3)
      None None true (Buffers [1; 2; 3; 4]%R [0; 0; 0; 0]%R) = Ok (p, b1)
    /\ ShenDirichletBasis.scalar_product (fftw.dct DCT2) (fun _ v => v)
         (ShenDirichletBasis.Make (SpectralBase.__init__ 4 GC (-1, 1)%R)
            (Basis.Make (SpectralBase.__init__ 4 GC (-1, 1)%R) DCT2 DCT3)
            false [1%R] (0, 0)%R)
         None None true (Buffers [1; 2; 3; 4]%R [0; 0; 0; 0]%R) = Ok (out, b2)
    /\ nth 3 out 0%R = (/ 2 * (nth 0 p 0 - nth 1 p 0))%R.
Proof.
  destruct (@dirichlet_scalar_product_entries R _ _ (fftw.dct DCT2) (fun _ v => v)
              (dct_length DCT2)
              (ShenDirichletBasis.Make (SpectralBase.__init__ 4 GC (-1, 1)%R)
                 (Basis.Make (SpectralBase.__init__ 4 GC (-1, 1)%R) DCT2 DCT3)
                 false [1%R] (0, 0)%R)
              None (Buffers [1; 2; 3; 4]%R [0; 0; 0; 0]%R) 0%R)
    as (p & out & b1 & b2 & E1 & E2 & _ & _ & _ & _ & H3);
    [reflexivity | cbn; lia | exact I |].
  exists p, out, b1, b2. split; [exact E1|]. split; [exact E2 | exact H3].
Defined.

Lemma neumann_scalar_product_entries_witness :
  exists out self' b2,
    ShenNeumannBasis.scalar_product (fftw.dct DCT2) (fun _ v => v)
      (ShenNeumannBasis.Make (SpectralBase.__init__ 4 GC (-1, 1)%R) 2%R
         (Basis.Make (SpectralBase.__init__ 4 GC (-1, 1)%R) DCT2 DCT3) [])
      None None true (Buffers [1; 2; 3; 4]%R [0; 0; 0; 0]%R) = Ok (out, self', b2)
    /\ nth 0 out 0%R = (2 * PI)%R.
Proof.
  destruct (@neumann_scalar_product_entries R _ _ (fftw.dct DCT2) (fun _ v => v)
              (dct_length DCT2)
              (ShenNeumannBasis.Make (SpectralBase.__init__ 4 GC (-1, 1)%R) 2%R
                 (Basis.Make (SpectralBase.__init__ 4 GC (-1, 1)%R) DCT2 DCT3) [])
              None (Buffers [1; 2; 3; 4]%R [0; 0; 0; 0]%R) 0%R)
    as (p & out & self' & b1 & b2 & _ & E2 & _ & H0 & _);
    [reflexivity | reflexivity | cbn; lia | cbn; lia | exact I |].
  exists out, self', b2. split; [exact E2 | exact H0].
Defined.

Lemma biharmonic_scalar_product_entries_witness :
  exists out self' b2,
    ShenBiharmonicBasis.scalar_product (fftw.dct DCT2) (fun _ v => v)
      (ShenBiharmonicBasis.Make (SpectralBase.__init__ 6 GC (-1, 1)%R)
         (Basis.Make (SpectralBase.__init__ 6 GC (-1, 1)%R) DCT2 DCT3) [] [])
      None None true
      (Buffers [1; 2; 3; 4; 5; 6]%R [0; 0; 0; 0; 0; 0]%R) = Ok (out, self', b2)
    /\ nth 5 out 0%R = 0%R.
Proof.
  destruct (@biharmonic_scalar_product_entries R _ _ (fftw.dct DCT2) (fun _ v => v)
              (dct_length DCT2)
              (ShenBiharmonicBasis.Make (SpectralBase.__init__ 6 GC (-1, 1)%R)
                 (Basis.Make (SpectralBase.__init__ 6 GC (-1, 1)%R) DCT2 DCT3) [] [])
              None (Buffers [1; 2; 3; 4; 5; 6]%R [0; 0; 0; 0; 0; 0]%R) 0%R)
    as (p & out & self' & b1 & b2 & _ & E2 & _ & _ & _ & _ & Hz);
    [reflexivity | reflexivity | cbn; lia | left; cbn; lia | exact I |].
  exists out, self', b2. split; [exact E2|]. apply Hz. cbn. lia.
Defined.

Lemma neumann_vandermonde_basis_columns_witness :
  ShenNeumannBasis.get_vandermonde_basis
    (ShenNeumannBasis.Make (SpectralBase.__init__ 3 GC (-1, 1)%float) 0%float
       (Basis.Make (SpectralBase.__init__ 3 GC (-1, 1)%float) DCT2 DCT3) [])
    (Matrix 4 [[1; 2; 7; 26]]%float) = Raise AssertionError
  /\ exists P,
       ShenNeumannBasis.get_vandermonde_basis
         (ShenNeumannBasis.Make (SpectralBase.__init__ 4 GC (-1, 1)%float) 0%float
            (Basis.Make (SpectralBase.__init__ 4 GC (-1, 1)%float) DCT2 DCT3) [])
         (Matrix 4 [[1; 2; 7; 26]]%float) = Ok P
       /\ ncols P = 4%nat.
Proof.
  split.
  - apply (proj1 (neumann_vandermonde_basis_columns
             (ShenNeumannBasis.Make (SpectralBase.__init__ 3 GC (-1, 1)%float) 0%float
                (Basis.Make (SpectralBase.__init__ 3 GC (-1, 1)%float) DCT2 DCT3) [])
             (Matrix 4 [[1; 2; 7; 26]]%float) 0%float)).
    cbn. lia.
  - destruct (proj2 (neumann_vandermonde_basis_columns
             (ShenNeumannBasis.Make (SpectralBase.__init__ 4 GC (-1, 1)%float) 0%float
                (Basis.Make (SpectralBase.__init__ 4 GC (-1, 1)%float) DCT2 DCT3) [])
             (Matrix 4 [[1; 2; 7; 26]]%float) 0%float))
      as (P & E & Hc & _);
      [reflexivity | repeat constructor | cbn; lia |].
    exists P. split; [exact E | exact Hc].
Defined.

Lemma biharmonic_vandermonde_basis_columns_witness :
  exists P,
    ShenBiharmonicBasis.get_vandermonde_basis
      (ShenBiharmonicBasis.Make (SpectralBase.__init__ 5 GC (-1, 1)%float)
         (Basis.Make (SpectralBase.__init__ 5 GC (-1, 1)%float) DCT2 DCT3) [] [])
      (Matrix 5 [[1; 2; 7; 26; 97]]%float) = Ok P
    /\ ncols P = 5%nat.
Proof.
  destruct (biharmonic_vandermonde_basis_columns
              (ShenBiharmonicBasis.Make (SpectralBase.__init__ 5 GC (-1, 1)%float)
                 (Basis.Make (SpectralBase.__init__ 5 GC (-1, 1)%float) DCT2 DCT3) [] [])
              (V:=Matrix 5 [[1; 2; 7; 26; 97]]%float) 0%float)
    as (P & E & Hc & _);
    [repeat constructor | cbn; lia |].
  exists P. split; [exact E | exact Hc].
Defined.

Lemma points_and_weights_sum_witness :
  exists pts w,
    ChebyshevBase.points_and_weights (SpectralBase.__init__ 4 GL (-1, 1)%R) 4 false
    = Ok (pts, w)
    /\ length pts = 4%nat /\ length w = 4%nat /\ np_sum w = PI.
Proof.
  apply (@points_and_weights_sum (SpectralBase.__init__ 4 GL (-1, 1)%R) 4 false).
  right. split; [reflexivity | lia].
Defined.

Lemma gauss_lobatto_points_witness :
  exists pts w,
    ChebyshevBase.points_and_weights (SpectralBase.__init__ 4 GL (-1, 1)%R) 4 false
    = Ok (pts, w)
    /\ nth 0 pts 0%R = 1%R /\ nth 3 pts 0%R = (-1)%R.
Proof.
  destruct (@gauss_lobatto_points (SpectralBase.__init__ 4 GL (-1, 1)%R) 4 false
              eq_refl ltac:(lia)) as (pts & w & E & _ & H0 & H3).
  exists pts, w. split; [exact E|]. split; [exact H0 | exact H3].
Defined.

Lemma scalar_product_input_shape_witness :
  Basis.scalar_product (fftw.dct DCT2) (fun _ v => v)
    (Basis.Make (SpectralBase.__init__ 3 GC (-1, 1)%R) DCT2 DCT3)
    (Some [1; 2]%R) None false (Buffers [0; 0; 0]%R [0; 0; 0]%R)
  = Raise ValueError.
Proof.
  apply (@scalar_product_input_shape R _ _ (fftw.dct DCT2) (fun _ v => v)
           [1; 2]%R None false (Buffers [0; 0; 0]%R [0; 0; 0]%R));
    cbn; lia.
Defined.

Lemma scalar_product_fast_asserts_length_witness :
  Basis.scalar_product (fftw.dct DCT2) (fun _ v => v)
    (Basis.Make (SpectralBase.__init__ 4 GC (-1, 1)%R) DCT2 DCT3)
    None None true (Buffers [0; 0; 0]%R [0; 0; 0]%R)
  = Raise AssertionError.
Proof.
  apply (@scalar_product_fast_asserts_length R _ _ (fftw.dct DCT2) (fun _ v => v)
           (Basis.Make (SpectralBase.__init__ 4 GC (-1, 1)%R) DCT2 DCT3)
           (Buffers [0; 0; 0]%R [0; 0; 0]%R) None).
  cbn. lia.
Defined.

Lemma vandermonde_entries_witness :
  ChebyshevBase.vandermonde (SpectralBase.__init__ 0 GC (-1, 1)%R) [0]%R
  = Raise ValueError
  /\ exists V,
       ChebyshevBase.vandermonde (SpectralBase.__init__ 3 GC (-1, 1)%R) [0]%R = Ok V
       /\ ncols V = 3%nat.
Proof.
  split.
  - apply (proj1 (vandermonde_entries (SpectralBase.__init__ 0 GC (-1, 1)%R) [0]%R)).
    cbn. lia.
  - destruct (proj2 (vandermonde_entries (SpectralBase.__init__ 3 GC (-1, 1)%R) [0]%R))
      as (V & E & Hc & _); [cbn; lia|].
    exists V. split; [exact E | exact Hc].
Defined.

Lemma dirichlet_eval_expansion_witness :
  exists y,
    ShenDirichletBasis.eval
      (ShenDirichletBasis.Make (SpectralBase.__init__ 3 GC (-1, 1)%R)
         (Basis.Make (SpectralBase.__init__ 3 GC (-1, 1)%R) DCT2 DCT3)
         false [1%R] (0, 0)%R)
      [0]%R [1; 2; 3]%R = Ok y.
Proof.
  eexists. apply dirichlet_eval_expansion. cbn. lia.
Defined.

Lemma dirichlet_eval_boundary_witness :
  ShenDirichletBasis.eval
    (ShenDirichletBasis.Make (SpectralBase.__init__ 6 GC (-1, 1)%R)
       (Basis.Make (SpectralBase.__init__ 6 GC (-1, 1)%R) DCT2 DCT3)
       false [1%R] (0, 0)%R)
    [1; -1]%R [3; 1; 2; 5; 7; 9]%R
  = Ok [9; 7]%R.
Proof.
  apply (@dirichlet_eval_boundary
           (ShenDirichletBasis.Make (SpectralBase.__init__ 6 GC (-1, 1)%R)
              (Basis.Make (SpectralBase.__init__ 6 GC (-1, 1)%R) DCT2 DCT3)
              false [1%R] (0, 0)%R)
           [3; 1; 2; 5; 7; 9]%R).
  cbn. lia.
Defined.

Lemma neumann_eval_expansion_witness :
  exists r,
    ShenNeumannBasis.eval
      (ShenNeumannBasis.Make (SpectralBase.__init__ 4 GC (-1, 1)%R) 0%R
         (Basis.Make (SpectralBase.__init__ 4 GC (-1, 1)%R) DCT2 DCT3) [])
      [0]%R [1; 2; 3; 4]%R = Ok r.
Proof.
  eexists.
  apply (@neumann_eval_expansion
           (ShenNeumannBasis.Make (SpectralBase.__init__ 4 GC (-1, 1)%R) 0%R
              (Basis.Make (SpectralBase.__init__ 4 GC (-1, 1)%R) DCT2 DCT3) [])
           [0]%R [1; 2; 3; 4]%R 4%nat);
    [reflexivity | reflexivity | lia | cbn; lia].
Defined.

Lemma biharmonic_eval_expansion_witness :
  exists r,
    ShenBiharmonicBasis.eval
      (ShenBiharmonicBasis.Make (SpectralBase.__init__ 6 GC (-1, 1)%R)
         (Basis.Make (SpectralBase.__init__ 6 GC (-1, 1)%R) DCT2 DCT3) [] [])
      [0]%R [1; 2; 3; 4; 5; 6]%R = Ok r.
Proof.
  destruct (@biharmonic_eval_expansion
              (ShenBiharmonicBasis.Make (SpectralBase.__init__ 6 GC (-1, 1)%R)
                 (Basis.Make (SpectralBase.__init__ 6 GC (-1, 1)%R) DCT2 DCT3) [] [])
              [0]%R [1; 2; 3; 4; 5; 6]%R 6%nat)
    as (self' & E & _);
    [reflexivity | reflexivity | lia | cbn; lia |].
  eexists. exact E.
Defined.

Lemma biharmonic_eval_boundary_witness :
  exists self',
    ShenBiharmonicBasis.eval
      (ShenBiharmonicBasis.Make (SpectralBase.__init__ 6 GC (-1, 1)%R)
         (Basis.Make (SpectralBase.__init__ 6 GC (-1, 1)%R) DCT2 DCT3) [] [])
      [1; -1]%R [1; 2; 3; 4; 5; 6]%R = Ok ([0; 0]%R, self').
Proof.
  apply (@biharmonic_eval_boundary
           (ShenBiharmonicBasis.Make (SpectralBase.__init__ 6 GC (-1, 1)%R)
              (Basis.Make (SpectralBase.__init__ 6 GC (-1, 1)%R) DCT2 DCT3) [] [])
           [1; 2; 3; 4; 5; 6]%R 6%nat);
    [reflexivity | reflexivity | lia | cbn; lia].
Defined.

Lemma evaluate_expansion_all_at_points_witness :
  exists pts w ys,
    ChebyshevBase.points_and_weights (SpectralBase.__init__ 3 GC (-1, 1)%R) 3 false
    = Ok (pts, w)
    /\ Basis.evaluate_expansion_all (fftw.dct DCT3)
         (Basis.Make (SpectralBase.__init__ 3 GC (-1, 1)%R) DCT2 DCT3)
         [1; 2; 3]%R = Ok ys
    /\ Basis.eval (Basis.Make (SpectralBase.__init__ 3 GC (-1, 1)%R) DCT2 DCT3)
         pts [1; 2; 3]%R = Ok ys.
Proof.
  apply (@evaluate_expansion_all_at_points
           (Basis.Make (SpectralBase.__init__ 3 GC (-1, 1)%R) DCT2 DCT3)
           [1; 2; 3]%R).
  - reflexivity.
  - left. repeat split. cbn. lia.
Defined.

Lemma scalar_product_quadrature_witness :
  exists pts w out b',
    ChebyshevBase.points_and_weights (SpectralBase.__init__ 3 GL (-1, 1)%R) 3 false
    = Ok (pts, w)
    /\ Basis.scalar_product (fftw.dct DCT1) (fun _ v => v)
         (Basis.Make (SpectralBase.__init__ 3 GL (-1, 1)%R) DCT1 DCT1)
         (Some [1; 2; 3]%R) None true (Buffers [0; 0; 0]%R [0; 0; 0]%R)
       = Ok (out, b')
    /\ length out = 3%nat.
Proof.
  destruct (@scalar_product_quadrature (fun _ v => v)
              (Basis.Make (SpectralBase.__init__ 3 GL (-1, 1)%R) DCT1 DCT1)
              [1; 2; 3]%R (Buffers [0; 0; 0]%R [0; 0; 0]%R))
    as (pts & w & out & b' & E1 & E2 & Hl & _);
    [reflexivity | reflexivity | cbn; lia | right; split; reflexivity |].
  exists pts, w, out, b'. split; [exact E1|]. split; [exact E2 | exact Hl].
Defined.

Lemma plain_round_trip_witness :
  exists out b' c,
    Basis.scalar_product (fftw.dct DCT1) (fun _ v => v)
      (Basis.Make (SpectralBase.__init__ 3 GL (-1, 1)%R) DCT1 DCT1)
      (Some [1; 2; 3]%R) None true (Buffers [0; 0; 0]%R [0; 0; 0]%R) = Ok (out, b')
    /\ Basis.apply_inverse_mass
         (Basis.Make (SpectralBase.__init__ 3 GL (-1, 1)%R) DCT1 DCT1) out = Ok c
    /\ Basis.evaluate_expansion_all (fftw.dct DCT1)
         (Basis.Make (SpectralBase.__init__ 3 GL (-1, 1)%R) DCT1 DCT1) c
       = Ok [1; 2; 3]%R.
Proof.
  apply (@plain_round_trip (fun _ v => v)
           (Basis.Make (SpectralBase.__init__ 3 GL (-1, 1)%R) DCT1 DCT1)
           [1; 2; 3]%R (Buffers [0; 0; 0]%R [0; 0; 0]%R));
    [reflexivity | reflexivity | cbn; lia | right; repeat split].
Defined.

Lemma plan_keeps_configuration_witness :
  match Basis.__init__ (T:=float) 8 "GL" true (-1, 1)%float 0%nat with
  | Ok (b, _) =>
      SpectralBase.N (Basis.super b) = 8
      /\ Basis._xfftn_fwd b = DCT1 /\ Basis._xfftn_bck b = DCT1
  | Raise _ => False
  end.
Proof.
  destruct (Basis.__init__ (T:=float) 8 "GL" true (-1, 1)%float 0%nat)
    as [[b h]|e] eqn:E; [|vm_compute in E; discriminate].
  destruct (proj1 (@plan_keeps_configuration float) _ _ _ _ _ _ _ E)
    as (HN & _ & [(Hq & _) | (_ & _ & Hf & Hb)]); [discriminate|].
  repeat split; assumption.
Defined.

Lemma constructed_basis_round_trip_witness :
  match Basis.__init__ (T:=R) 3 "GC" true (-1, 1)%R 0%nat with
  | Ok (self, _) =>
      exists out b' c,
        Basis.scalar_product (fftw.dct (Basis._xfftn_fwd self)) (fun _ v => v)
          self (Some [1; 2; 3]%R) None true (Buffers [0; 0; 0]%R [0; 0; 0]%R)
        = Ok (out, b')
        /\ Basis.apply_inverse_mass self out = Ok c
        /\ Basis.evaluate_expansion_all (fftw.dct (Basis._xfftn_bck self)) self c
           = Ok [1; 2; 3]%R
  | Raise _ => False
  end.
Proof.
  destruct (Basis.__init__ (T:=R) 3 "GC" true (-1, 1)%R 0%nat)
    as [[self h]|e] eqn:E; [|vm_compute in E; discriminate].
  apply (@constructed_basis_round_trip (fun _ v => v) "GC" true (-1, 1)%R 0%nat h
           self [1; 2; 3]%R (Buffers [0; 0; 0]%R [0; 0; 0]%R));
    [exact E | reflexivity | cbn; lia].
Defined.

Lemma neumann_expansion_coefficients_witness :
  exists w self',
    ShenNeumannBasis.evaluate_expansion_all (fun v => Ok v)
      (ShenNeumannBasis.Make (SpectralBase.__init__ 4 GC (-1, 1)%R) 0%R
         (Basis.Make (SpectralBase.__init__ 4 GC (-1, 1)%R) DCT2 DCT3) [])
      [1; 2; 3; 4]%R = Ok (w, self')
    /\ length w = 4%nat.
Proof.
  destruct (@neumann_expansion_coefficients
              (ShenNeumannBasis.Make (SpectralBase.__init__ 4 GC (-1, 1)%R) 0%R
                 (Basis.Make (SpectralBase.__init__ 4 GC (-1, 1)%R) DCT2 DCT3) [])
              [1; 2; 3; 4]%R 4%nat)
    as (w & self' & E & Hl & _);
    [reflexivity | reflexivity | lia | cbn; lia |].
  exists w, self'. split; [rewrite E; reflexivity | exact Hl].
Defined.

Lemma biharmonic_expansion_coefficients_witness :
  exists w self',
    ShenBiharmonicBasis.evaluate_expansion_all (fun v => Ok v)
      (ShenBiharmonicBasis.Make (SpectralBase.__init__ 6 GC (-1, 1)%R)
         (Basis.Make (SpectralBase.__init__ 6 GC (-1, 1)%R) DCT2 DCT3) [] [])
      [1; 2; 3; 4; 5; 6]%R = Ok (w, self')
    /\ length w = 6%nat.
Proof.
  destruct (@biharmonic_expansion_coefficients
              (ShenBiharmonicBasis.Make (SpectralBase.__init__ 6 GC (-1, 1)%R)
                 (Basis.Make (SpectralBase.__init__ 6 GC (-1, 1)%R) DCT2 DCT3) [] [])
              [1; 2; 3; 4; 5; 6]%R 6%nat)
    as (w & self' & _ & E & Hl & _);
    [reflexivity | reflexivity | lia | cbn; lia |].
  exists w, self'. split; [rewrite E; reflexivity | exact Hl].
Defined.
